(** * Project Aegis: liquidity pools, share ledger and cross-pool fallback payments

    A shallow embedding of the Solidity contracts
    [LPERC20], [LiquidityPool], [PoolFactory] and [SimpleStakingToken]
    (truffle-project/contracts), and the properties of the pooled-accounting
    engine proved over it.

    Conventions of the embedding:
    - [uint256] and [address] values are [N]; Solidity 0.8 checked arithmetic
      is written out: an overflow, underflow or division by zero reverts with
      a [Panic] code;
    - a [mapping] is a [gmap] read with default [0] (or the zero struct);
    - a [revert] discards the state of the reverting call frame: a call is a
      function from the pre-state to a [result] holding the post-state, and a
      [try]/[catch] resumes from the pre-state of the failed call;
    - events carry no state and are not modelled; gas is not modelled;
    - arguments of calls stand for [uint256] and [address] values. *)

From Stdlib Require Import String NArith Lia.
From stdpp Require Import base option list gmap fin_maps strings.

#[local] Open Scope string_scope.
#[local] Open Scope N_scope.

(** ** Machine integers and reverts *)

Abbreviation address := N (only parsing).
Abbreviation uint256 := N (only parsing).

Definition MAX_UINT256 : N := 2 ^ 256 - 1.

Inductive failure :=
| ErrorString (msg : string)     (* require(cond, msg) / revert(msg) *)
| PanicCode (code : N)           (* 0x11 arithmetic, 0x12 division by zero, 0x32 index *)
| CustomError (name : string)    (* custom errors of the ERC20 base contract *)
| NoCode (target : address).     (* high-level call to an address without code *)

Inductive result (A : Type) :=
| Ok (a : A)
| Reverted (f : failure).
Arguments Ok {A} a.
Arguments Reverted {A} f.

Definition rbind {A B} (r : result A) (k : A -> result B) : result B :=
  match r with
  | Ok a => k a
  | Reverted f => Reverted f
  end.

Definition rrequire (cond : bool) (msg : string) : result unit :=
  if cond then Ok tt else Reverted (ErrorString msg).

Declare Scope result_scope.
Delimit Scope result_scope with res.
Notation "x <- r ;; k" := (rbind r (fun x => k))
  (at level 100, r at next level, right associativity) : result_scope.
Notation "r ;; k" := (rbind r (fun _ => k))
  (at level 100, right associativity) : result_scope.

Definition checked_add (a b : uint256) : result uint256 :=
  if a + b <=? MAX_UINT256 then Ok (a + b) else Reverted (PanicCode 17).

Definition checked_sub (a b : uint256) : result uint256 :=
  if b <=? a then Ok (a - b) else Reverted (PanicCode 17).

Definition checked_mul (a b : uint256) : result uint256 :=
  if a * b <=? MAX_UINT256 then Ok (a * b) else Reverted (PanicCode 17).

Definition checked_div (a b : uint256) : result uint256 :=
  if b =? 0 then Reverted (PanicCode 18) else Ok (a / b).

Definition checked_pow (a b : uint256) : result uint256 :=
  if a ^ b <=? MAX_UINT256 then Ok (a ^ b) else Reverted (PanicCode 17).

(** Sum of the values of a [mapping(address => uint256)]. *)
Definition sum_values (m : gmap address N) : N :=
  map_fold (fun _ v acc => v + acc) 0 m.

(** ** LPERC20: the share ledger of a pool *)

Module LPERC20.

Record state := mk {
  _totalSupply : uint256;
  _balances : gmap address uint256;
  _allowances : gmap (address * address) uint256;
  owner : address
}.

Definition constructor (_owner : address) : state :=
  {| _totalSupply := 0; _balances := ∅; _allowances := ∅; owner := _owner |}.

Definition totalSupply (s : state) : uint256 := _totalSupply s.

Definition balanceOf (s : state) (account : address) : uint256 :=
  default 0 (_balances s !! account).

Definition allowance (s : state) (ownerAddr spender : address) : uint256 :=
  default 0 (_allowances s !! (ownerAddr, spender)).

Definition set_balance (account : address) (v : uint256) (s : state) : state :=
  {| _totalSupply := _totalSupply s;
     _balances := <[account := v]> (_balances s);
     _allowances := _allowances s;
     owner := owner s |}.

Definition set_totalSupply (v : uint256) (s : state) : state :=
  {| _totalSupply := v;
     _balances := _balances s;
     _allowances := _allowances s;
     owner := owner s |}.

Definition set_allowance (ownerAddr spender : address) (v : uint256) (s : state) : state :=
  {| _totalSupply := _totalSupply s;
     _balances := _balances s;
     _allowances := <[(ownerAddr, spender) := v]> (_allowances s);
     owner := owner s |}.

Definition onlyOwner (sender : address) (s : state) : result unit :=
  rrequire (sender =? owner s) "LPERC20: caller is not the owner".

Definition _transfer (from to : address) (amount : uint256) (s : state) : result state :=
  (rrequire (negb (from =? 0)) "LPERC20: transfer from the zero address" ;;
   rrequire (negb (to =? 0)) "LPERC20: transfer to the zero address" ;;
   rrequire (amount <=? balanceOf s from) "LPERC20: transfer amount exceeds balance" ;;
   b <- checked_sub (balanceOf s from) amount ;;
   let s1 := set_balance from b s in
   b' <- checked_add (balanceOf s1 to) amount ;;
   Ok (set_balance to b' s1))%res.

Definition _approve (ownerAddr spender : address) (amount : uint256) (s : state) : result state :=
  (rrequire (negb (ownerAddr =? 0)) "LPERC20: approve from the zero address" ;;
   rrequire (negb (spender =? 0)) "LPERC20: approve to the zero address" ;;
   Ok (set_allowance ownerAddr spender amount s))%res.

Definition transfer (sender to : address) (amount : uint256) (s : state) : result state :=
  _transfer sender to amount s.

Definition approve (sender spender : address) (amount : uint256) (s : state) : result state :=
  _approve sender spender amount s.

Definition transferFrom (sender from to : address) (amount : uint256) (s : state) : result state :=
  (let currentAllowance := allowance s from sender in
   rrequire (amount <=? currentAllowance) "LPERC20: transfer amount exceeds allowance" ;;
   s1 <- _transfer from to amount s ;;
   rest <- checked_sub currentAllowance amount ;;
   _approve from sender rest s1)%res.

Definition mint (sender to : address) (amount : uint256) (s : state) : result state :=
  (onlyOwner sender s ;;
   rrequire (negb (to =? 0)) "LPERC20: mint to the zero address" ;;
   t <- checked_add (_totalSupply s) amount ;;
   let s1 := set_totalSupply t s in
   b <- checked_add (balanceOf s1 to) amount ;;
   Ok (set_balance to b s1))%res.

Definition burn (sender from : address) (amount : uint256) (s : state) : result state :=
  (onlyOwner sender s ;;
   rrequire (negb (from =? 0)) "LPERC20: burn from the zero address" ;;
   rrequire (amount <=? balanceOf s from) "LPERC20: burn amount exceeds balance" ;;
   b <- checked_sub (balanceOf s from) amount ;;
   let s1 := set_balance from b s in
   t <- checked_sub (_totalSupply s1) amount ;;
   Ok (set_totalSupply t s1))%res.

(** The calls a ledger can receive, each with its [msg.sender]. *)
Inductive op :=
| Mint (sender to : address) (amount : uint256)
| Burn (sender from : address) (amount : uint256)
| Transfer (sender to : address) (amount : uint256)
| TransferFrom (sender from to : address) (amount : uint256)
| Approve (sender spender : address) (amount : uint256).

Definition call (o : op) (s : state) : result state :=
  match o with
  | Mint sender to amount => mint sender to amount s
  | Burn sender from amount => burn sender from amount s
  | Transfer sender to amount => transfer sender to amount s
  | TransferFrom sender from to amount => transferFrom sender from to amount s
  | Approve sender spender amount => approve sender spender amount s
  end.

(** A transaction on the ledger: a reverted call leaves the storage as it was. *)
Definition apply_op (s : state) (o : op) : state :=
  match call o s with
  | Ok s' => s'
  | Reverted _ => s
  end.

Definition run (ops : list op) (s : state) : state := foldl apply_op s ops.

Definition conserved (s : state) : Prop := sum_values (_balances s) = _totalSupply s.

End LPERC20.

(** ** The staking token, as the pools see it

    [LiquidityPool] is written against the [IERC20] interface.  A token is a
    state with the three calls the pools make; each call takes its
    [msg.sender] first.  A token call changes the token's own storage only
    (it does not call back into a pool). *)

Class IERC20 := {
  token_state : Type;
  token_balanceOf : token_state -> address -> uint256;
  token_transfer :
    address -> address -> uint256 -> token_state -> result (bool * token_state);
  token_transferFrom :
    address -> address -> address -> uint256 -> token_state -> result (bool * token_state)
}.

(** ** LiquidityPool: storage *)

Record Stake := mkStake {
  stakedAmount : uint256;
  collateralAmount : uint256;
  lpTokensMinted : uint256;
  stakeTimestamp : uint256
}.

Record Debt := mkDebt {
  user : address;
  merchantAddress : address;
  amount : uint256;
  timestamp : uint256;
  isRepaid : bool
}.

Inductive PoolStatusContract := ACTIVE | PAUSED | INACTIVE.

Definition status_eqb (a b : PoolStatusContract) : bool :=
  match a, b with
  | ACTIVE, ACTIVE | PAUSED, PAUSED | INACTIVE, INACTIVE => true
  | _, _ => false
  end.

Definition COLLATERAL_PERCENTAGE_BP : uint256 := 2000.
Definition UNSTAKE_TIME_LOCK_DURATION : uint256 := 24 * 3600.
Definition BASIS_POINTS : uint256 := 10000.

Record LiquidityPool := mkPool {
  factoryOwner : address;
  poolFactory : address;
  regionName : string;
  lpToken : LPERC20.state;
  totalLiquidityStaked : uint256;
  status : PoolStatusContract;
  rewardsPot : uint256;
  apyBasisPoints : uint256;
  totalDebt : uint256;
  stakers : gmap address Stake;
  userDebts : gmap address (list Debt);
  debtRelatedUnstakeTimelock : gmap address uint256
}.

Definition set_lpToken (v : LPERC20.state) (p : LiquidityPool) : LiquidityPool :=
  mkPool (factoryOwner p) (poolFactory p) (regionName p) v (totalLiquidityStaked p)
    (status p) (rewardsPot p) (apyBasisPoints p) (totalDebt p) (stakers p) (userDebts p)
    (debtRelatedUnstakeTimelock p).

Definition set_totalLiquidityStaked (v : uint256) (p : LiquidityPool) : LiquidityPool :=
  mkPool (factoryOwner p) (poolFactory p) (regionName p) (lpToken p) v
    (status p) (rewardsPot p) (apyBasisPoints p) (totalDebt p) (stakers p) (userDebts p)
    (debtRelatedUnstakeTimelock p).

Definition set_status (v : PoolStatusContract) (p : LiquidityPool) : LiquidityPool :=
  mkPool (factoryOwner p) (poolFactory p) (regionName p) (lpToken p) (totalLiquidityStaked p)
    v (rewardsPot p) (apyBasisPoints p) (totalDebt p) (stakers p) (userDebts p)
    (debtRelatedUnstakeTimelock p).

Definition set_rewardsPot (v : uint256) (p : LiquidityPool) : LiquidityPool :=
  mkPool (factoryOwner p) (poolFactory p) (regionName p) (lpToken p) (totalLiquidityStaked p)
    (status p) v (apyBasisPoints p) (totalDebt p) (stakers p) (userDebts p)
    (debtRelatedUnstakeTimelock p).

Definition set_apyBasisPoints (v : uint256) (p : LiquidityPool) : LiquidityPool :=
  mkPool (factoryOwner p) (poolFactory p) (regionName p) (lpToken p) (totalLiquidityStaked p)
    (status p) (rewardsPot p) v (totalDebt p) (stakers p) (userDebts p)
    (debtRelatedUnstakeTimelock p).

Definition set_totalDebt (v : uint256) (p : LiquidityPool) : LiquidityPool :=
  mkPool (factoryOwner p) (poolFactory p) (regionName p) (lpToken p) (totalLiquidityStaked p)
    (status p) (rewardsPot p) (apyBasisPoints p) v (stakers p) (userDebts p)
    (debtRelatedUnstakeTimelock p).

Definition set_staker (u : address) (v : Stake) (p : LiquidityPool) : LiquidityPool :=
  mkPool (factoryOwner p) (poolFactory p) (regionName p) (lpToken p) (totalLiquidityStaked p)
    (status p) (rewardsPot p) (apyBasisPoints p) (totalDebt p) (<[u := v]> (stakers p))
    (userDebts p) (debtRelatedUnstakeTimelock p).

Definition set_userDebts (u : address) (v : list Debt) (p : LiquidityPool) : LiquidityPool :=
  mkPool (factoryOwner p) (poolFactory p) (regionName p) (lpToken p) (totalLiquidityStaked p)
    (status p) (rewardsPot p) (apyBasisPoints p) (totalDebt p) (stakers p)
    (<[u := v]> (userDebts p)) (debtRelatedUnstakeTimelock p).

Definition set_timelock (u : address) (v : uint256) (p : LiquidityPool) : LiquidityPool :=
  mkPool (factoryOwner p) (poolFactory p) (regionName p) (lpToken p) (totalLiquidityStaked p)
    (status p) (rewardsPot p) (apyBasisPoints p) (totalDebt p) (stakers p) (userDebts p)
    (<[u := v]> (debtRelatedUnstakeTimelock p)).

(** The constructor; the LP token it deploys is owned by the pool itself. *)
Definition LiquidityPool_constructor
    (this : address) (_regionName : string) (_factoryOwner _poolFactory : address)
  : LiquidityPool :=
  {| factoryOwner := _factoryOwner;
     poolFactory := _poolFactory;
     regionName := _regionName;
     lpToken := LPERC20.constructor this;
     totalLiquidityStaked := 0;
     status := ACTIVE;
     rewardsPot := 0;
     apyBasisPoints := 500;
     totalDebt := 0;
     stakers := ∅;
     userDebts := ∅;
     debtRelatedUnstakeTimelock := ∅ |}.

(** *** Views of one pool *)

Definition zeroStake : Stake := mkStake 0 0 0 0.

Definition getStake (p : LiquidityPool) (_user : address) : Stake :=
  default zeroStake (stakers p !! _user).

Definition getUserDebts (p : LiquidityPool) (_user : address) : list Debt :=
  default [] (userDebts p !! _user).

Definition getStakedAmount (p : LiquidityPool) (_user : address) : uint256 :=
  stakedAmount (getStake p _user).

Definition getTimelock (p : LiquidityPool) (_user : address) : uint256 :=
  default 0 (debtRelatedUnstakeTimelock p !! _user).

(** The loop shared by [getCollateralAvailable] and [getActiveDebtAmount]:
    [for i < debts.length: if (!debts[i].isRepaid) acc += debts[i].amount]. *)
Fixpoint sumUnrepaid (debts : list Debt) (acc : uint256) : result uint256 :=
  match debts with
  | [] => Ok acc
  | d :: rest =>
      if isRepaid d then sumUnrepaid rest acc
      else (acc' <- checked_add acc (amount d) ;; sumUnrepaid rest acc')%res
  end.

Definition getCollateralAvailable (p : LiquidityPool) (_user : address) : result uint256 :=
  (totalDebt <- sumUnrepaid (getUserDebts p _user) 0 ;;
   Ok (if totalDebt <? collateralAmount (getStake p _user)
       then collateralAmount (getStake p _user) - totalDebt
       else 0))%res.

Definition getActiveDebtAmount (p : LiquidityPool) (_user : address) : result uint256 :=
  sumUnrepaid (getUserDebts p _user) 0.

(** ** PoolFactory: the pool registry *)

Module PoolFactory.

Record state := mk {
  owner : address;
  pools : list address;
  regionExists : gset string;
  poolToRegion : gmap address string;
  regionToPool : gmap string address
}.

Definition constructor (sender : address) : state :=
  {| owner := sender; pools := []; regionExists := ∅;
     poolToRegion := ∅; regionToPool := ∅ |}.

Definition getPools (s : state) : list address := pools s.

Definition getPoolCount (s : state) : uint256 := N.of_nat (length (pools s)).

Definition register (poolAddress : address) (_regionName : string) (s : state) : state :=
  {| owner := owner s;
     pools := pools s ++ [poolAddress];
     regionExists := {[ _regionName ]} ∪ regionExists s;
     poolToRegion := <[poolAddress := _regionName]> (poolToRegion s);
     regionToPool := <[_regionName := poolAddress]> (regionToPool s) |}.

Definition set_owner (newOwner : address) (s : state) : state :=
  {| owner := newOwner; pools := pools s; regionExists := regionExists s;
     poolToRegion := poolToRegion s; regionToPool := regionToPool s |}.

End PoolFactory.

(** ** The world: one staking token, one factory, its pools

    Every pool is bound to the one staking token of the world (the
    factory's [setStakingToken], which only affects pools created later, is
    left out), and the pools of the world are those the factory deployed. *)

Section Contracts.
Context `{Token : IERC20}.

Record World := mkWorld {
  token : token_state;
  factoryAddress : address;
  factory : PoolFactory.state;
  pools : gmap address LiquidityPool
}.

Definition set_token (t : token_state) (w : World) : World :=
  mkWorld t (factoryAddress w) (factory w) (pools w).

Definition set_factory (f : PoolFactory.state) (w : World) : World :=
  mkWorld (token w) (factoryAddress w) f (pools w).

Definition set_pool (a : address) (p : LiquidityPool) (w : World) : World :=
  mkWorld (token w) (factoryAddress w) (factory w) (<[a := p]> (pools w)).

(** Code running inside a transaction: reads and writes the world, or reverts. *)
Definition M (A : Type) : Type := World -> result (A * World).

Definition ret {A} (a : A) : M A := fun w => Ok (a, w).

Definition bind {A B} (m : M A) (k : A -> M B) : M B :=
  fun w =>
    match m w with
    | Ok (a, w') => k a w'
    | Reverted f => Reverted f
    end.

Definition revert {A} (f : failure) : M A := fun _ => Reverted f.

Definition require (cond : bool) (msg : string) : M unit :=
  if cond then ret tt else revert (ErrorString msg).

Definition lift {A} (r : result A) : M A :=
  fun w =>
    match r with
    | Ok a => Ok (a, w)
    | Reverted f => Reverted f
    end.

Declare Scope contract_scope.
Delimit Scope contract_scope with M.
Notation "x <- m ;; k" := (bind m (fun x => k))
  (at level 100, m at next level, right associativity) : contract_scope.
Notation "m ;; k" := (bind m (fun _ => k))
  (at level 100, right associativity) : contract_scope.
#[local] Open Scope contract_scope.

(** Storage of the contract at [this]. *)
Definition sload (this : address) : M LiquidityPool :=
  fun w =>
    match pools w !! this with
    | Some p => Ok (p, w)
    | None => Reverted (NoCode this)
    end.

Definition sstore (this : address) (p : LiquidityPool) : M unit :=
  fun w => Ok (tt, set_pool this p w).

(** A plain external call [ILiquidityPool(target).f(..)]: the callee must be
    a contract; its revert is the caller's revert. *)
Definition call {A} (target : address) (callee : M A) : M A :=
  fun w =>
    match pools w !! target with
    | Some _ => callee w
    | None => Reverted (NoCode target)
    end.

(** [try ILiquidityPool(target).f(..) returns (r) {..} catch {..}]: a revert
    inside the callee undoes the callee's writes and yields [None]; the
    check that [target] has code belongs to the caller and is not caught. *)
Definition try_call {A} (target : address) (callee : M A) : M (option A) :=
  fun w =>
    match pools w !! target with
    | Some _ =>
        match callee w with
        | Ok (a, w') => Ok (Some a, w')
        | Reverted _ => Ok (None, w)
        end
    | None => Reverted (NoCode target)
    end.

(** [IPoolFactory(poolFactory).getPools()] *)
Definition getPools (this : address) : M (list address) :=
  p <- sload this ;;
  fun w =>
    if poolFactory p =? factoryAddress w
    then Ok (PoolFactory.getPools (factory w), w)
    else Reverted (NoCode (poolFactory p)).

(** [stakingToken.transfer(to, amount)] called by the contract [this]. *)
Definition stakingToken_transfer (this to : address) (amount : uint256) : M bool :=
  fun w =>
    match token_transfer this to amount (token w) with
    | Ok (b, t) => Ok (b, set_token t w)
    | Reverted f => Reverted f
    end.

(** [stakingToken.transferFrom(from, to, amount)] called by the contract [this]. *)
Definition stakingToken_transferFrom (this from to : address) (amount : uint256) : M bool :=
  fun w =>
    match token_transferFrom this from to amount (token w) with
    | Ok (b, t) => Ok (b, set_token t w)
    | Reverted f => Reverted f
    end.

Definition stakingToken_balanceOf (account : address) : M uint256 :=
  fun w => Ok (token_balanceOf (token w) account, w).

(** *** Modifiers *)

Definition onlyFactoryOwner (this sender : address) : M unit :=
  p <- sload this ;;
  require (sender =? factoryOwner p) "Not factory owner".

Definition whenActive (this : address) : M unit :=
  p <- sload this ;;
  require (status_eqb (status p) ACTIVE) "Pool not active".

(** *** Administration *)

Definition toggleStatus (this sender : address) : M unit :=
  onlyFactoryOwner this sender ;;
  p <- sload this ;;
  match status p with
  | ACTIVE => sstore this (set_status PAUSED p)
  | PAUSED => sstore this (set_status ACTIVE p)
  | INACTIVE => ret tt
  end.

Definition setStatus (this sender : address) (_newStatus : PoolStatusContract) : M unit :=
  onlyFactoryOwner this sender ;;
  p <- sload this ;;
  sstore this (set_status _newStatus p).

Definition setApy (this sender : address) (_newApyBasisPoints : uint256) : M unit :=
  onlyFactoryOwner this sender ;;
  require (_newApyBasisPoints <=? 5000) "APY exceeds 50%" ;;
  p <- sload this ;;
  sstore this (set_apyBasisPoints _newApyBasisPoints p).

Definition addRewardsToPot (this sender : address) (amount : uint256) : M unit :=
  onlyFactoryOwner this sender ;;
  require (0 <? amount) "Amount must be > 0" ;;
  p <- sload this ;;
  r <- lift (checked_add (rewardsPot p) amount) ;;
  sstore this (set_rewardsPot r p).

Definition distributeRewards (this sender : address) : M unit :=
  onlyFactoryOwner this sender ;;
  whenActive this ;;
  p <- sload this ;;
  require (0 <? rewardsPot p) "No rewards to distribute" ;;
  require (0 <? LPERC20.totalSupply (lpToken p)) "No LP tokens to distribute" ;;
  sstore this (set_rewardsPot 0 p).

Definition emergencyWithdraw (this sender : address) : M unit :=
  onlyFactoryOwner this sender ;;
  p <- sload this ;;
  require (status_eqb (status p) INACTIVE) "Pool must be inactive" ;;
  balance <- stakingToken_balanceOf this ;;
  if 0 <? balance
  then (_ <- stakingToken_transfer this (factoryOwner p) balance ;; ret tt)
  else ret tt.

(** *** stake / unstake *)

Definition stake (this sender : address) (now _amount : uint256) : M unit :=
  whenActive this ;;
  require (0 <? _amount) "Amount must be > 0" ;;
  ok <- stakingToken_transferFrom this sender this _amount ;;
  require ok "Token transfer failed" ;;
  x <- lift (checked_mul _amount COLLATERAL_PERCENTAGE_BP) ;;
  collateral <- lift (checked_div x BASIS_POINTS) ;;
  p <- sload this ;;
  lpTokensToMint <-
    (if LPERC20.totalSupply (lpToken p) =? 0
     then ret _amount
     else (y <- lift (checked_mul _amount (LPERC20.totalSupply (lpToken p))) ;;
           lift (checked_div y (totalLiquidityStaked p)))) ;;
  let userStake := getStake p sender in
  staked' <- lift (checked_add (stakedAmount userStake) _amount) ;;
  collateral' <- lift (checked_add (collateralAmount userStake) collateral) ;;
  minted' <- lift (checked_add (lpTokensMinted userStake) lpTokensToMint) ;;
  liquidity' <- lift (checked_add (totalLiquidityStaked p) _amount) ;;
  lp' <- lift (LPERC20.mint this sender lpTokensToMint (lpToken p)) ;;
  sstore this
    (set_lpToken lp'
       (set_totalLiquidityStaked liquidity'
          (set_staker sender (mkStake staked' collateral' minted' now) p))).

Definition unstake (this sender : address) (_lpTokenAmount : uint256) : M unit :=
  whenActive this ;;
  require (0 <? _lpTokenAmount) "LP token amount must be > 0" ;;
  p <- sload this ;;
  let userStake := getStake p sender in
  require (_lpTokenAmount <=? lpTokensMinted userStake) "Insufficient LP tokens" ;;
  x <- lift (checked_mul _lpTokenAmount BASIS_POINTS) ;;
  proportionBasisPoints <- lift (checked_div x (lpTokensMinted userStake)) ;;
  y <- lift (checked_mul (stakedAmount userStake) proportionBasisPoints) ;;
  stakedAmountToReturn <- lift (checked_div y BASIS_POINTS) ;;
  z <- lift (checked_mul (collateralAmount userStake) proportionBasisPoints) ;;
  collateralToReduce <- lift (checked_div z BASIS_POINTS) ;;
  remainingCollateral <- lift (checked_sub (collateralAmount userStake) collateralToReduce) ;;
  activeDebt <- lift (getActiveDebtAmount p sender) ;;
  require (activeDebt <=? remainingCollateral) "Insufficient collateral" ;;
  staked' <- lift (checked_sub (stakedAmount userStake) stakedAmountToReturn) ;;
  collateral' <- lift (checked_sub (collateralAmount userStake) collateralToReduce) ;;
  minted' <- lift (checked_sub (lpTokensMinted userStake) _lpTokenAmount) ;;
  liquidity' <- lift (checked_sub (totalLiquidityStaked p) stakedAmountToReturn) ;;
  lp' <- lift (LPERC20.burn this sender _lpTokenAmount (lpToken p)) ;;
  sstore this
    (set_lpToken lp'
       (set_totalLiquidityStaked liquidity'
          (set_staker sender
             (mkStake staked' collateral' minted' (stakeTimestamp userStake)) p))) ;;
  ok <- stakingToken_transfer this sender stakedAmountToReturn ;;
  require ok "Token transfer failed".

(** *** Cross-pool transfer protocol *)

(** [for i: if (allPools[i] == msg.sender || allPools[i] == targetPool)
          { isValidPool = true; break; }] *)
Fixpoint isValidPool_transfer (allPools : list address) (sender targetPool : address) : bool :=
  match allPools with
  | [] => false
  | a :: rest =>
      if (a =? sender) || (a =? targetPool) then true
      else isValidPool_transfer rest sender targetPool
  end.

(** [for i: if (allPools[i] == msg.sender) { isValidPool = true; break; }] *)
Fixpoint isValidPool_receive (allPools : list address) (sender : address) : bool :=
  match allPools with
  | [] => false
  | a :: rest => if a =? sender then true else isValidPool_receive rest sender
  end.

Definition receiveLiquidity (this sender : address) (amount : uint256) : M unit :=
  require (negb (sender =? 0)) "Invalid caller" ;;
  allPools <- getPools this ;;
  require (isValidPool_receive allPools sender) "Unauthorized caller" ;;
  p <- sload this ;;
  liquidity' <- lift (checked_add (totalLiquidityStaked p) amount) ;;
  sstore this (set_totalLiquidityStaked liquidity' p).

Definition transferLiquidityToPool
    (this sender targetPool user : address) (amount : uint256) : M unit :=
  require (negb (sender =? 0)) "Invalid caller" ;;
  require (0 <? amount) "Amount must be > 0" ;;
  p <- sload this ;;
  require (amount <=? totalLiquidityStaked p) "Insufficient liquidity" ;;
  allPools <- getPools this ;;
  require (isValidPool_transfer allPools sender targetPool) "Unauthorized transfer" ;;
  ok <- stakingToken_transfer this targetPool amount ;;
  require ok "Transfer failed" ;;
  liquidity' <- lift (checked_sub (totalLiquidityStaked p) amount) ;;
  sstore this (set_totalLiquidityStaked liquidity' p) ;;
  call targetPool (receiveLiquidity targetPool this amount).

Definition contributeLiquidityForPayment
    (this sender targetPool user : address) (amount : uint256) : M unit :=
  require (negb (sender =? 0)) "Invalid caller" ;;
  require (0 <? amount) "Amount must be > 0" ;;
  p <- sload this ;;
  require (amount <=? totalLiquidityStaked p) "Insufficient liquidity" ;;
  let userStake := getStake p user in
  x <- lift (checked_mul (stakedAmount userStake) COLLATERAL_PERCENTAGE_BP) ;;
  userCollateral <- lift (checked_div x BASIS_POINTS) ;;
  require (amount <=? userCollateral) "Insufficient collateral" ;;
  allPools <- getPools this ;;
  require (isValidPool_transfer allPools sender targetPool) "Unauthorized contribution" ;;
  ok <- stakingToken_transfer this targetPool amount ;;
  require ok "Contribution transfer failed" ;;
  liquidity' <- lift (checked_sub (totalLiquidityStaked p) amount) ;;
  sstore this (set_totalLiquidityStaked liquidity' p) ;;
  call targetPool (receiveLiquidity targetPool this amount).

(** The views a pool calls on its peers. *)
Definition peer_getStake (peer _user : address) : M Stake :=
  p <- sload peer ;; ret (getStake p _user).

Definition peer_getCollateralAvailable (peer _user : address) : M uint256 :=
  p <- sload peer ;; lift (getCollateralAvailable p _user).

Definition peer_totalLiquidity (peer : address) : M uint256 :=
  p <- sload peer ;; ret (totalLiquidityStaked p).

Definition peer_getStakedAmount (peer _user : address) : M uint256 :=
  p <- sload peer ;; ret (getStakedAmount p _user).

(** *** Fallback payment *)

Fixpoint getTotalCollateral_loop
    (this user : address) (allPools : list address) (totalCollateral : uint256)
  : M uint256 :=
  match allPools with
  | [] => ret totalCollateral
  | a :: rest =>
      if a =? this then getTotalCollateral_loop this user rest totalCollateral
      else
        r <- try_call a (peer_getStake a user) ;;
        match r with
        | Some userStakeInPool =>
            t <- lift (checked_add totalCollateral (collateralAmount userStakeInPool)) ;;
            getTotalCollateral_loop this user rest t
        | None => getTotalCollateral_loop this user rest totalCollateral
        end
  end.

Definition getTotalCollateralAcrossPools (this user : address) : M uint256 :=
  p <- sload this ;;
  allPools <- getPools this ;;
  getTotalCollateral_loop this user allPools (collateralAmount (getStake p user)).

Fixpoint redistribute_loop
    (this user : address) (allPools : list address)
    (stillNeeded redistributedAmount : uint256) : M uint256 :=
  match allPools with
  | [] => ret redistributedAmount
  | poolAddress :: rest =>
      if stillNeeded =? 0 then ret redistributedAmount
      else if poolAddress =? this
      then redistribute_loop this user rest stillNeeded redistributedAmount
      else
        r1 <- try_call poolAddress (peer_getCollateralAvailable poolAddress user) ;;
        match r1 with
        | None => redistribute_loop this user rest stillNeeded redistributedAmount
        | Some poolCollateral =>
            r2 <- try_call poolAddress (peer_totalLiquidity poolAddress) ;;
            match r2 with
            | None => redistribute_loop this user rest stillNeeded redistributedAmount
            | Some poolLiquidity =>
                let canTakeFromPool :=
                  if stillNeeded <? poolCollateral then stillNeeded else poolCollateral in
                if (canTakeFromPool <=? poolLiquidity) && (0 <? canTakeFromPool)
                then
                  r3 <- try_call poolAddress
                          (transferLiquidityToPool poolAddress this this user canTakeFromPool) ;;
                  match r3 with
                  | Some _ =>
                      redistributed' <- lift (checked_add redistributedAmount canTakeFromPool) ;;
                      stillNeeded' <- lift (checked_sub stillNeeded canTakeFromPool) ;;
                      redistribute_loop this user rest stillNeeded' redistributed'
                  | None => redistribute_loop this user rest stillNeeded redistributedAmount
                  end
                else redistribute_loop this user rest stillNeeded redistributedAmount
            end
        end
  end.

Definition redistributeFundsFromPools
    (this user : address) (requiredAmount currentPoolAvailable : uint256) : M uint256 :=
  stillNeeded <- lift (checked_sub requiredAmount currentPoolAvailable) ;;
  allPools <- getPools this ;;
  redistribute_loop this user allPools stillNeeded currentPoolAvailable.

Fixpoint addLiquidity_loop
    (this user : address) (allPools : list address)
    (stillNeeded totalAvailable : uint256) : M uint256 :=
  match allPools with
  | [] => ret totalAvailable
  | poolAddress :: rest =>
      if stillNeeded =? 0 then ret totalAvailable
      else if poolAddress =? this
      then addLiquidity_loop this user rest stillNeeded totalAvailable
      else
        r1 <- try_call poolAddress (peer_getStakedAmount poolAddress user) ;;
        match r1 with
        | None => addLiquidity_loop this user rest stillNeeded totalAvailable
        | Some userStakeInPool =>
            x <- lift (checked_mul userStakeInPool COLLATERAL_PERCENTAGE_BP) ;;
            userCollateralInPool <- lift (checked_div x BASIS_POINTS) ;;
            let availableFromPool :=
              if stillNeeded <? userCollateralInPool then stillNeeded
              else userCollateralInPool in
            r2 <- try_call poolAddress (peer_totalLiquidity poolAddress) ;;
            match r2 with
            | None => addLiquidity_loop this user rest stillNeeded totalAvailable
            | Some poolLiquidity =>
                if (0 <? availableFromPool) && (availableFromPool <=? poolLiquidity)
                then
                  r3 <- try_call poolAddress
                          (contributeLiquidityForPayment poolAddress this this user
                             availableFromPool) ;;
                  match r3 with
                  | Some _ =>
                      total' <- lift (checked_add totalAvailable availableFromPool) ;;
                      stillNeeded' <- lift (checked_sub stillNeeded availableFromPool) ;;
                      addLiquidity_loop this user rest stillNeeded' total'
                  | None => addLiquidity_loop this user rest stillNeeded totalAvailable
                  end
                else addLiquidity_loop this user rest stillNeeded totalAvailable
            end
        end
  end.

Definition addLiquidityFromNewPools
    (this user : address) (requiredAmount currentAvailable : uint256) : M uint256 :=
  stillNeeded <- lift (checked_sub requiredAmount currentAvailable) ;;
  allPools <- getPools this ;;
  addLiquidity_loop this user allPools stillNeeded currentAvailable.

Definition executeOriginalFallbackPay
    (this sender : address) (now : uint256) (_merchantAddress : address) (_amount : uint256)
  : M unit :=
  p <- sload this ;;
  require (_amount <=? totalLiquidityStaked p) "Insufficient pool liquidity" ;;
  lpTokensToBurn <-
    (if LPERC20.totalSupply (lpToken p) =? 0
     then revert (ErrorString "No LP tokens to burn")
     else (x <- lift (checked_mul _amount (LPERC20.totalSupply (lpToken p))) ;;
           lift (checked_div x (totalLiquidityStaked p)))) ;;
  require (lpTokensToBurn <=? LPERC20.balanceOf (lpToken p) sender) "Insufficient LP tokens" ;;
  let userStake := getStake p sender in
  require (lpTokensToBurn <=? lpTokensMinted userStake) "Insufficient minted LP tokens" ;;
  minted' <- lift (checked_sub (lpTokensMinted userStake) lpTokensToBurn) ;;
  staked' <- lift (checked_sub (stakedAmount userStake) _amount) ;;
  y <- lift (checked_mul staked' COLLATERAL_PERCENTAGE_BP) ;;
  collateral' <- lift (checked_div y BASIS_POINTS) ;;
  liquidity' <- lift (checked_sub (totalLiquidityStaked p) _amount) ;;
  lp' <- lift (LPERC20.burn this sender lpTokensToBurn (lpToken p)) ;;
  let debts' :=
    (getUserDebts p sender ++ [mkDebt sender _merchantAddress _amount now false])%list in
  totalDebt' <- lift (checked_add (totalDebt p) _amount) ;;
  newTimelock <- lift (checked_add now UNSTAKE_TIME_LOCK_DURATION) ;;
  let p1 :=
    set_totalDebt totalDebt'
      (set_userDebts sender debts'
         (set_lpToken lp'
            (set_totalLiquidityStaked liquidity'
               (set_staker sender
                  (mkStake staked' collateral' minted' (stakeTimestamp userStake)) p)))) in
  sstore this
    (if getTimelock p sender <? newTimelock then set_timelock sender newTimelock p1 else p1) ;;
  ok <- stakingToken_transfer this _merchantAddress _amount ;;
  require ok "Payment transfer failed".

Definition fallbackPay
    (this sender : address) (now : uint256) (_merchantAddress : address) (_amount : uint256)
  : M unit :=
  whenActive this ;;
  require (0 <? _amount) "Amount must be > 0" ;;
  require (negb (_merchantAddress =? 0)) "Invalid merchant address" ;;
  totalCollateralAcrossPools <- getTotalCollateralAcrossPools this sender ;;
  p <- sload this ;;
  currentPoolCollateral <- lift (getCollateralAvailable p sender) ;;
  let currentPoolLiquidity := totalLiquidityStaked p in
  if (_amount <=? currentPoolCollateral) && (_amount <=? currentPoolLiquidity)
  then executeOriginalFallbackPay this sender now _merchantAddress _amount
  else
    availableAfterRedistribution <-
      (if currentPoolLiquidity <? _amount
       then redistributeFundsFromPools this sender _amount currentPoolCollateral
       else ret currentPoolCollateral) ;;
    finalAvailableAmount <-
      (if availableAfterRedistribution <? _amount
       then addLiquidityFromNewPools this sender _amount availableAfterRedistribution
       else ret availableAfterRedistribution) ;;
    require (_amount <=? finalAvailableAmount) "Insufficient liquidity" ;;
    require (_amount <=? totalCollateralAcrossPools) "Exceeds collateral limit" ;;
    executeOriginalFallbackPay this sender now _merchantAddress _amount.

(** *** Debt repayment *)

Definition repayDebt (this sender : address) (_debtIndex _amount : uint256) : M unit :=
  whenActive this ;;
  require (0 <? _amount) "Amount must be > 0" ;;
  p <- sload this ;;
  let debts := getUserDebts p sender in
  require (_debtIndex <? N.of_nat (length debts)) "Invalid debt index" ;;
  match debts !! N.to_nat _debtIndex with
  | None => revert (PanicCode 50)
  | Some debt =>
      require (negb (isRepaid debt)) "Debt already repaid" ;;
      require (_amount <=? amount debt) "Amount exceeds debt" ;;
      ok <- stakingToken_transferFrom this sender this _amount ;;
      require ok "Repayment transfer failed" ;;
      debt' <-
        (if _amount =? amount debt
         then ret (mkDebt (user debt) (merchantAddress debt) (amount debt)
                     (timestamp debt) true)
         else (rest <- lift (checked_sub (amount debt) _amount) ;;
               ret (mkDebt (user debt) (merchantAddress debt) rest
                      (timestamp debt) (isRepaid debt)))) ;;
      totalDebt' <- lift (checked_sub (totalDebt p) _amount) ;;
      let p1 :=
        set_totalDebt totalDebt'
          (set_userDebts sender (<[N.to_nat _debtIndex := debt']> debts) p) in
      activeDebt <- lift (getActiveDebtAmount p1 sender) ;;
      sstore this (if activeDebt =? 0 then set_timelock sender 0 p1 else p1)
  end.

(** *** The LP token of a pool, called from outside *)

Definition lpToken_call (pool : address) (o : LPERC20.op) : M unit :=
  p <- sload pool ;;
  lp' <- lift (LPERC20.call o (lpToken p)) ;;
  sstore pool (set_lpToken lp' p).

(** *** PoolFactory *)

Definition factory_onlyOwner (sender : address) : M unit :=
  fun w =>
    if sender =? PoolFactory.owner (factory w) then Ok (tt, w)
    else Reverted (ErrorString "PoolFactory: caller is not the owner").

(** [poolAddress] is the address the EVM gives to the contract deployed by
    [new LiquidityPool(..)]; a deployment at an address in use fails. *)
Definition createPool (sender : address) (_regionName : string) (poolAddress : address)
  : M unit :=
  factory_onlyOwner sender ;;
  require (negb (String.eqb _regionName "")) "PoolFactory: region name cannot be empty" ;;
  fun w =>
    if bool_decide (_regionName ∈ PoolFactory.regionExists (factory w))
    then Reverted (ErrorString "PoolFactory: region already exists")
    else if (poolAddress =? 0) || (poolAddress =? factoryAddress w)
            || bool_decide (is_Some (pools w !! poolAddress))
    then Reverted (CustomError "CreateCollision")
    else
      let newPool :=
        LiquidityPool_constructor poolAddress _regionName
          (PoolFactory.owner (factory w)) (factoryAddress w) in
      Ok (tt, set_factory (PoolFactory.register poolAddress _regionName (factory w))
                (set_pool poolAddress newPool w)).

Definition factory_poolFound (poolAddress : address) : M unit :=
  require (negb (poolAddress =? 0)) "PoolFactory: invalid pool address" ;;
  fun w =>
    match PoolFactory.poolToRegion (factory w) !! poolAddress with
    | Some r =>
        if String.eqb r "" then Reverted (ErrorString "PoolFactory: pool not found")
        else Ok (tt, w)
    | None => Reverted (ErrorString "PoolFactory: pool not found")
    end.

Definition togglePoolStatus (sender poolAddress : address) : M unit :=
  factory_onlyOwner sender ;;
  factory_poolFound poolAddress ;;
  fun w => call poolAddress (toggleStatus poolAddress (factoryAddress w)) w.

Definition addRewardsToPool (sender poolAddress : address) (amount : uint256) : M unit :=
  factory_onlyOwner sender ;;
  factory_poolFound poolAddress ;;
  require (0 <? amount) "PoolFactory: amount must be greater than 0" ;;
  fun w =>
    (_ <- stakingToken_transferFrom (factoryAddress w) sender poolAddress amount ;;
     call poolAddress (addRewardsToPot poolAddress (factoryAddress w) amount)) w.

Definition transferOwnership (sender newOwner : address) : M unit :=
  factory_onlyOwner sender ;;
  require (negb (newOwner =? 0)) "PoolFactory: new owner is the zero address" ;;
  fun w => Ok (tt, set_factory (PoolFactory.set_owner newOwner (factory w)) w).

(** ** Transactions *)

Inductive action :=
| CallStake (pool : address) (_amount : uint256)
| CallUnstake (pool : address) (_lpTokenAmount : uint256)
| CallFallbackPay (pool _merchantAddress : address) (_amount : uint256)
| CallRepayDebt (pool : address) (_debtIndex _amount : uint256)
| CallTransferLiquidityToPool (pool targetPool user : address) (amount : uint256)
| CallContributeLiquidityForPayment (pool targetPool user : address) (amount : uint256)
| CallReceiveLiquidity (pool : address) (amount : uint256)
| CallToggleStatus (pool : address)
| CallSetStatus (pool : address) (_newStatus : PoolStatusContract)
| CallSetApy (pool : address) (_newApyBasisPoints : uint256)
| CallAddRewardsToPot (pool : address) (amount : uint256)
| CallDistributeRewards (pool : address)
| CallEmergencyWithdraw (pool : address)
| CallLpMint (pool to : address) (amount : uint256)
| CallLpBurn (pool from : address) (amount : uint256)
| CallLpTransfer (pool to : address) (amount : uint256)
| CallLpTransferFrom (pool from to : address) (amount : uint256)
| CallLpApprove (pool spender : address) (amount : uint256)
| CallCreatePool (_regionName : string) (poolAddress : address)
| CallTogglePoolStatus (poolAddress : address)
| CallAddRewardsToPool (poolAddress : address) (amount : uint256)
| CallTransferOwnership (newOwner : address).

(** The call [a] made by [sender] in a block with timestamp [now].  A call
    to an address that holds no pool changes nothing; it is counted as
    failed. *)
Definition exec (sender : address) (now : uint256) (a : action) : M unit :=
  match a with
  | CallStake pool _amount => call pool (stake pool sender now _amount)
  | CallUnstake pool _lpTokenAmount => call pool (unstake pool sender _lpTokenAmount)
  | CallFallbackPay pool _merchantAddress _amount =>
      call pool (fallbackPay pool sender now _merchantAddress _amount)
  | CallRepayDebt pool _debtIndex _amount => call pool (repayDebt pool sender _debtIndex _amount)
  | CallTransferLiquidityToPool pool targetPool user amount =>
      call pool (transferLiquidityToPool pool sender targetPool user amount)
  | CallContributeLiquidityForPayment pool targetPool user amount =>
      call pool (contributeLiquidityForPayment pool sender targetPool user amount)
  | CallReceiveLiquidity pool amount => call pool (receiveLiquidity pool sender amount)
  | CallToggleStatus pool => call pool (toggleStatus pool sender)
  | CallSetStatus pool _newStatus => call pool (setStatus pool sender _newStatus)
  | CallSetApy pool _newApyBasisPoints => call pool (setApy pool sender _newApyBasisPoints)
  | CallAddRewardsToPot pool amount => call pool (addRewardsToPot pool sender amount)
  | CallDistributeRewards pool => call pool (distributeRewards pool sender)
  | CallEmergencyWithdraw pool => call pool (emergencyWithdraw pool sender)
  | CallLpMint pool to amount => lpToken_call pool (LPERC20.Mint sender to amount)
  | CallLpBurn pool from amount => lpToken_call pool (LPERC20.Burn sender from amount)
  | CallLpTransfer pool to amount => lpToken_call pool (LPERC20.Transfer sender to amount)
  | CallLpTransferFrom pool from to amount =>
      lpToken_call pool (LPERC20.TransferFrom sender from to amount)
  | CallLpApprove pool spender amount => lpToken_call pool (LPERC20.Approve sender spender amount)
  | CallCreatePool _regionName poolAddress => createPool sender _regionName poolAddress
  | CallTogglePoolStatus poolAddress => togglePoolStatus sender poolAddress
  | CallAddRewardsToPool poolAddress amount => addRewardsToPool sender poolAddress amount
  | CallTransferOwnership newOwner => transferOwnership sender newOwner
  end.

Inductive outcome :=
| Success
| Failure (f : failure).

(** A transaction either commits the world its call produced, or reverts and
    leaves the world it started from. *)
Definition transact (w : World) (sender : address) (now : uint256) (a : action)
  : World * outcome :=
  match exec sender now a w with
  | Ok (_, w') => (w', Success)
  | Reverted f => (w, Failure f)
  end.

(** Transactions are sent by externally owned accounts. *)
Definition is_account (w : World) (a : address) : Prop :=
  a <> 0 /\ a <> factoryAddress w /\ pools w !! a = None.

Definition is_accountb (w : World) (a : address) : bool :=
  negb (a =? 0) && negb (a =? factoryAddress w) && bool_decide (pools w !! a = None).

(** Run a list of transactions [(sender, timestamp, call)], keeping the world
    of each (a reverted one leaves it as it was). *)
Definition run (w : World) (txs : list (address * uint256 * action)) : World :=
  foldl (fun w tx => fst (transact w tx.1.1 tx.1.2 tx.2)) w txs.

Fixpoint sent_by_accounts (w : World) (txs : list (address * uint256 * action)) : bool :=
  match txs with
  | [] => true
  | tx :: rest =>
      is_accountb w tx.1.1 && sent_by_accounts (fst (transact w tx.1.1 tx.1.2 tx.2)) rest
  end.

Definition initial (t : token_state) (factoryAddr deployer : address) : World :=
  {| token := t; factoryAddress := factoryAddr;
     factory := PoolFactory.constructor deployer; pools := ∅ |}.

(** The worlds a deployment can be in: transactions on the pools, their LP
    tokens and the factory, and any activity on the staking token itself. *)
Inductive reachable : World -> Prop :=
| reachable_initial t factoryAddr deployer :
    factoryAddr <> 0 ->
    reachable (initial t factoryAddr deployer)
| reachable_transact w sender now a :
    reachable w ->
    is_account w sender ->
    reachable (fst (transact w sender now a))
| reachable_token w t :
    reachable w ->
    reachable (set_token t w).

End Contracts.

(** ** SimpleStakingToken: the staking token deployed with the pools

    The contract extends the OpenZeppelin [ERC20] and [Ownable] base
    contracts (release 5), which the repository imports; [_update],
    [_transfer], [_mint], [_burn], [_approve] and [_spendAllowance] below are
    those of the base contract, the rest is [SimpleStakingToken.sol]. *)

Module SimpleStakingToken.

Record state := mk {
  _totalSupply : uint256;
  _balances : gmap address uint256;
  _allowances : gmap (address * address) uint256;
  _decimals : N;
  hasReceivedInitialTokens : gset address;
  _owner : address
}.

Definition INITIAL_TOKEN_AMOUNT : uint256 := 10000 * 10 ^ 18.

Definition balanceOf (s : state) (account : address) : uint256 :=
  default 0 (_balances s !! account).

Definition allowance (s : state) (ownerAddr spender : address) : uint256 :=
  default 0 (_allowances s !! (ownerAddr, spender)).

Definition set_balance (account : address) (v : uint256) (s : state) : state :=
  mk (_totalSupply s) (<[account := v]> (_balances s)) (_allowances s) (_decimals s)
     (hasReceivedInitialTokens s) (_owner s).

Definition set_totalSupply (v : uint256) (s : state) : state :=
  mk v (_balances s) (_allowances s) (_decimals s) (hasReceivedInitialTokens s) (_owner s).

Definition set_allowance (ownerAddr spender : address) (v : uint256) (s : state) : state :=
  mk (_totalSupply s) (_balances s) (<[(ownerAddr, spender) := v]> (_allowances s))
     (_decimals s) (hasReceivedInitialTokens s) (_owner s).

Definition set_received (account : address) (s : state) : state :=
  mk (_totalSupply s) (_balances s) (_allowances s) (_decimals s)
     ({[ account ]} ∪ hasReceivedInitialTokens s) (_owner s).

Definition set_owner (newOwner : address) (s : state) : state :=
  mk (_totalSupply s) (_balances s) (_allowances s) (_decimals s)
     (hasReceivedInitialTokens s) newOwner.

(** [unchecked { a + b }] and [unchecked { a - b }] *)
Definition wrapping_add (a b : uint256) : uint256 := (a + b) mod 2 ^ 256.
Definition wrapping_sub (a b : uint256) : uint256 := (a + 2 ^ 256 - b) mod 2 ^ 256.

Definition _update (from to : address) (value : uint256) (s : state) : result state :=
  (s1 <-
     (if from =? 0
      then (t <- checked_add (_totalSupply s) value ;; Ok (set_totalSupply t s))
      else if balanceOf s from <? value
      then Reverted (CustomError "ERC20InsufficientBalance")
      else Ok (set_balance from (wrapping_sub (balanceOf s from) value) s)) ;;
   Ok (if to =? 0
       then set_totalSupply (wrapping_sub (_totalSupply s1) value) s1
       else set_balance to (wrapping_add (balanceOf s1 to) value) s1))%res.

Definition _transfer (from to : address) (value : uint256) (s : state) : result state :=
  if from =? 0 then Reverted (CustomError "ERC20InvalidSender")
  else if to =? 0 then Reverted (CustomError "ERC20InvalidReceiver")
  else _update from to value s.

Definition _mint (account : address) (value : uint256) (s : state) : result state :=
  if account =? 0 then Reverted (CustomError "ERC20InvalidReceiver")
  else _update 0 account value s.

Definition _burn (account : address) (value : uint256) (s : state) : result state :=
  if account =? 0 then Reverted (CustomError "ERC20InvalidSender")
  else _update account 0 value s.

Definition _approve (ownerAddr spender : address) (value : uint256) (s : state) : result state :=
  if ownerAddr =? 0 then Reverted (CustomError "ERC20InvalidApprover")
  else if spender =? 0 then Reverted (CustomError "ERC20InvalidSpender")
  else Ok (set_allowance ownerAddr spender value s).

Definition _spendAllowance (ownerAddr spender : address) (value : uint256) (s : state)
  : result state :=
  let currentAllowance := allowance s ownerAddr spender in
  if currentAllowance <? MAX_UINT256
  then if currentAllowance <? value
       then Reverted (CustomError "ERC20InsufficientAllowance")
       else _approve ownerAddr spender (wrapping_sub currentAllowance value) s
  else Ok s.

Definition constructor (sender : address) (decimals_ : N) (initialSupply : uint256)
  : result state :=
  (unit <- checked_pow 10 decimals_ ;;
   v <- checked_mul initialSupply unit ;;
   _mint sender v (mk 0 ∅ ∅ decimals_ ∅ sender))%res.

Definition onlyOwner (sender : address) (s : state) : result unit :=
  if sender =? _owner s then Ok tt else Reverted (CustomError "OwnableUnauthorizedAccount").

Definition mint (sender to : address) (amount : uint256) (s : state) : result state :=
  (onlyOwner sender s ;; _mint to amount s)%res.

Definition _mintInitialTokens (user : address) (s : state) : result state :=
  if bool_decide (user ∈ hasReceivedInitialTokens s) then Ok s
  else _mint user INITIAL_TOKEN_AMOUNT (set_received user s).

Definition burn (sender : address) (amount : uint256) (s : state) : result state :=
  (s1 <- _mintInitialTokens sender s ;; _burn sender amount s1)%res.

Definition burnFrom (sender from : address) (amount : uint256) (s : state) : result state :=
  (s1 <- _mintInitialTokens sender s ;;
   let currentAllowance := allowance s1 from sender in
   rrequire (amount <=? currentAllowance) "ERC20: burn amount exceeds allowance" ;;
   rest <- checked_sub currentAllowance amount ;;
   s2 <- _approve from sender rest s1 ;;
   _burn from amount s2)%res.

Definition approve (sender spender : address) (value : uint256) (s : state) : result state :=
  _approve sender spender value s.

Definition transfer (sender recipient : address) (amount : uint256) (s : state)
  : result (bool * state) :=
  (s1 <- _mintInitialTokens sender s ;;
   s2 <- _transfer sender recipient amount s1 ;;
   Ok (true, s2))%res.

Definition transferFrom (sender from recipient : address) (amount : uint256) (s : state)
  : result (bool * state) :=
  (s1 <- _mintInitialTokens sender s ;;
   s2 <- _spendAllowance from sender amount s1 ;;
   s3 <- _transfer from recipient amount s2 ;;
   Ok (true, s3))%res.

Definition transferOwnership (sender newOwner : address) (s : state) : result state :=
  (onlyOwner sender s ;;
   rrequire (negb (newOwner =? 0)) "Ownable: new owner is the zero address" ;;
   Ok (set_owner newOwner s))%res.

End SimpleStakingToken.

#[export] Instance SimpleStakingToken_IERC20 : IERC20 := {|
  token_state := SimpleStakingToken.state;
  token_balanceOf := SimpleStakingToken.balanceOf;
  token_transfer := SimpleStakingToken.transfer;
  token_transferFrom := SimpleStakingToken.transferFrom
|}.

Arguments ret {Token A} a.
Arguments bind {Token A B} m k.
Arguments lift {Token A} r.
Arguments revert {Token A} f.
Arguments call {Token A} target callee.
Arguments try_call {Token A} target callee.
Arguments run {Token} w txs.

(** ** A concrete deployment, used to run the contracts

    Addresses: the factory is [100], its owner [1]; pools are deployed at
    [201], [202], [203]; users are [11], [12]; the merchant is [50]. *)

Module Scenario.

Definition token0 : SimpleStakingToken.state :=
  match SimpleStakingToken.constructor 1 18 0 with
  | Ok s => s
  | Reverted _ => SimpleStakingToken.mk 0 ∅ ∅ 18 ∅ 1
  end.

Definition world0 : World := initial token0 100 1.

(** A direct call to the token by an account: [approve] and a first
    [transfer], which gives the caller its initial tokens. *)
Definition fund (u : address) (w : World) : World :=
  match SimpleStakingToken.transfer u u 0 (token w) with
  | Ok (_, t) => set_token t w
  | Reverted _ => w
  end.

Definition approve (u spender : address) (v : uint256) (w : World) : World :=
  match SimpleStakingToken.approve u spender v (token w) with
  | Ok t => set_token t w
  | Reverted _ => w
  end.

Definition A : address := 201.
Definition B : address := 202.
Definition C : address := 203.
Definition alice : address := 11.
Definition bob : address := 12.
Definition merchant : address := 50.

(** Three pools, and [alice] funded with an allowance for each. *)
Definition deployed : World :=
  approve alice C MAX_UINT256
    (approve alice B MAX_UINT256
       (approve alice A MAX_UINT256
          (fund alice
             (run world0
                [ (1, 1000, CallCreatePool "north" A);
                  (1, 1000, CallCreatePool "south" B);
                  (1, 1000, CallCreatePool "east" C) ])))).

Definition poolAt (w : World) (a : address) : LiquidityPool :=
  default (LiquidityPool_constructor a "" 0 0) (pools w !! a).

Definition has_pool (w : World) (a : address) : bool :=
  match pools w !! a with
  | Some _ => true
  | None => false
  end.

Definition succeeds {A} (r : result A) : bool :=
  match r with
  | Ok _ => true
  | Reverted _ => false
  end.

Definition liquidity (w : World) (a : address) : uint256 :=
  totalLiquidityStaked (poolAt w a).

(** [alice] stakes 1000 in pool A ... *)
Definition staked1000 : World := run deployed [ (alice, 2000, CallStake A 1000) ].

(** ... and makes a fallback payment of 150 at time 3000. *)
Definition indebted : World :=
  run staked1000 [ (alice, 3000, CallFallbackPay A merchant 150) ].

Definition staked3 : World := run deployed [ (alice, 2000, CallStake A 3) ].

Definition staked4twice : World :=
  run deployed [ (alice, 2000, CallStake A 4); (alice, 2001, CallStake A 4) ].

Definition two_pools : World :=
  run deployed [ (alice, 2000, CallStake A 100); (alice, 2000, CallStake B 400) ].

(** Stakes in three pools and an open debt of 60 in pool B. *)
Definition three_pools : World :=
  run deployed
    [ (alice, 2000, CallStake A 250);
      (alice, 2000, CallStake B 460);
      (alice, 2000, CallStake C 400);
      (alice, 2500, CallFallbackPay B merchant 60) ].

(** A payment of 100 from pool A, part of it drawn from the peers. *)
Definition overdrawn : World :=
  run three_pools [ (alice, 3000, CallFallbackPay A merchant 100) ].

End Scenario.

(** ** Notions used to state the properties *)

(** Total of the unrepaid entries of a debt list, as a number. *)
Fixpoint unrepaidTotal (debts : list Debt) : N :=
  match debts with
  | [] => 0
  | d :: rest => (if isRepaid d then 0 else amount d) + unrepaidTotal rest
  end.

(** The unrepaid debt of all the users of a pool. *)
Definition unrepaidOfPool (p : LiquidityPool) : N :=
  sum_values (unrepaidTotal <$> userDebts p).

(** The pool's [totalDebt] counter accounts for every unrepaid debt. *)
Definition debts_accounted (p : LiquidityPool) : Prop :=
  unrepaidOfPool p = totalDebt p /\ totalDebt p <= MAX_UINT256.

Section Sequences.
Context `{Token : IERC20}.

(** [repayDebt(_debtIndex, a)] called for each [a] of [amounts] in turn. *)
Fixpoint repayAll (this sender : address) (_debtIndex : uint256) (amounts : list uint256)
  : M unit :=
  match amounts with
  | [] => ret tt
  | a :: rest =>
      bind (repayDebt this sender _debtIndex a)
        (fun _ => repayAll this sender _debtIndex rest)
  end.

(** The staking token accepts the transfers [repayAll] asks for, one after
    the other: each [transferFrom(sender, this, a)] made by the pool
    returns [true]. *)
Fixpoint repaymentsAccepted (this sender : address) (amounts : list uint256)
    (t : token_state) : bool :=
  match amounts with
  | [] => true
  | a :: rest =>
      match token_transferFrom this sender this a t with
      | Ok (true, t') => repaymentsAccepted this sender rest t'
      | _ => false
      end
  end.

(** What [fallbackPay] does once Phase 1 is over (or was skipped), given the
    collateral total computed at entry and the amount available so far:
    Phase 2 if still short, the two final checks, the payment. *)
Definition fallbackPay_finish
    (this sender : address) (now : uint256) (_merchantAddress : address) (_amount : uint256)
    (totalCollateralAcrossPools availableAfterRedistribution : uint256) : M unit :=
  bind (if availableAfterRedistribution <? _amount
        then addLiquidityFromNewPools this sender _amount availableAfterRedistribution
        else ret availableAfterRedistribution)
    (fun finalAvailableAmount =>
       bind (require (_amount <=? finalAvailableAmount) "Insufficient liquidity") (fun _ =>
       bind (require (_amount <=? totalCollateralAcrossPools) "Exceeds collateral limit")
         (fun _ => executeOriginalFallbackPay this sender now _merchantAddress _amount))).

(** The fallback payment as the specification words it: Phase 1 runs
    whenever the fast path does not apply (the source runs it only when the
    pool's liquidity is short). *)
Definition fallbackPay_as_specified
    (this sender : address) (now : uint256) (_merchantAddress : address) (_amount : uint256)
  : M unit :=
  bind (whenActive this) (fun _ =>
  bind (require (0 <? _amount) "Amount must be > 0") (fun _ =>
  bind (require (negb (_merchantAddress =? 0)) "Invalid merchant address") (fun _ =>
  bind (getTotalCollateralAcrossPools this sender) (fun totalCollateralAcrossPools =>
  bind (sload this) (fun p =>
  bind (lift (getCollateralAvailable p sender)) (fun currentPoolCollateral =>
  if (_amount <=? currentPoolCollateral) && (_amount <=? totalLiquidityStaked p)
  then executeOriginalFallbackPay this sender now _merchantAddress _amount
  else
    bind (redistributeFundsFromPools this sender _amount currentPoolCollateral)
      (fun availableAfterRedistribution =>
         fallbackPay_finish this sender now _merchantAddress _amount
           totalCollateralAcrossPools availableAfterRedistribution))))))).

Definition every_pool (P : LiquidityPool -> Prop) (w : World) : Prop :=
  forall a p, pools w !! a = Some p -> P p.

(** The invariant of the debt bookkeeping, and code that keeps it: a run
    from a world with accounted debts ends, if it succeeds, in such a world,
    with a result satisfying [Q]. *)
Definition accounted (w : World) : Prop := every_pool debts_accounted w.

Definition keeps {A} (m : M A) (Q : A -> Prop) : Prop :=
  forall w a w', accounted w -> m w = Ok (a, w') -> accounted w' /\ Q a.

End Sequences.

(** ** Further notions: the registry's lookup, totals over the pools, and
    what every pool of a deployment satisfies *)

(** [PoolFactory.getPoolByRegion] *)
Definition getPoolByRegion (s : PoolFactory.state) (_regionName : string) : result address :=
  if bool_decide (_regionName ∈ PoolFactory.regionExists s)
  then Ok (default 0 (PoolFactory.regionToPool s !! _regionName))
  else Reverted (ErrorString "PoolFactory: region does not exist").

(** A ledger whose balances add up to a supply that fits a [uint256]. *)
Definition ledger_sound (s : LPERC20.state) : Prop :=
  LPERC20.conserved s /\ LPERC20._totalSupply s <= MAX_UINT256.

Definition op_sender (o : LPERC20.op) : address :=
  match o with
  | LPERC20.Mint sender _ _ => sender
  | LPERC20.Burn sender _ _ => sender
  | LPERC20.Transfer sender _ _ => sender
  | LPERC20.TransferFrom sender _ _ _ => sender
  | LPERC20.Approve sender _ _ => sender
  end.

(** The shares recorded as minted in the stake records of a pool. *)
Definition mintedOfPool (p : LiquidityPool) : N :=
  sum_values (lpTokensMinted <$> stakers p).

Section Deployment.
Context `{Token : IERC20}.

(** The liquidity recorded by all the pools together. *)
Definition totalLiquidityAll (w : World) : N :=
  sum_values (totalLiquidityStaked <$> pools w).

(** What holds of the pool at address [a] of a deployment whose factory,
    at address [fa], is in state [F]. *)
Definition pool_wf (fa : address) (F : PoolFactory.state) (a : address) (p : LiquidityPool)
  : Prop :=
  a <> 0 /\ a <> fa /\
  poolFactory p = fa /\
  factoryOwner p <> fa /\
  regionName p <> "" /\
  PoolFactory.poolToRegion F !! a = Some (regionName p) /\
  PoolFactory.regionToPool F !! regionName p = Some a /\
  regionName p ∈ PoolFactory.regionExists F /\
  LPERC20.owner (lpToken p) = a /\
  ledger_sound (lpToken p) /\
  LPERC20._totalSupply (lpToken p) = mintedOfPool p /\
  apyBasisPoints p <= 5000.

(** The registry lists the deployed pools, each once. *)
Definition registry_wf (w : World) : Prop :=
  NoDup (PoolFactory.pools (factory w)) /\
  forall a, a ∈ PoolFactory.pools (factory w) <-> is_Some (pools w !! a).

Definition world_wf (w : World) : Prop :=
  registry_wf w /\
  forall a p, pools w !! a = Some p -> pool_wf (factoryAddress w) (factory w) a p.

(** Worlds with the factory [F] at [fa] and pools at the addresses [D], all
    well formed; and code that stays within them. *)
Definition steady (fa : address) (F : PoolFactory.state) (D : gset address) (w : World)
  : Prop :=
  factoryAddress w = fa /\ factory w = F /\ dom (pools w) = D /\
  forall a p, pools w !! a = Some p -> pool_wf fa F a p.

Definition maintains (fa : address) (F : PoolFactory.state) (D : gset address)
    {A} (m : M A) (Q : A -> Prop) : Prop :=
  forall w a w', steady fa F D w -> m w = Ok (a, w') -> steady fa F D w' /\ Q a.

(** The liquidity recorded by the pool at [a] (none where no pool is). *)
Definition liquidityOf (w : World) (a : address) : N :=
  default 0 (totalLiquidityStaked <$> pools w !! a).

(** Nothing but liquidity counters (and the token) differs between two
    worlds ... *)
Definition same_but_liquidity (w w' : World) : Prop :=
  factoryAddress w' = factoryAddress w /\
  factory w' = factory w /\
  forall a, set_totalLiquidityStaked 0 <$> pools w' !! a
            = set_totalLiquidityStaked 0 <$> pools w !! a.

(** ... and the counters add up to the same total. *)
Definition liquidity_moved (w w' : World) : Prop :=
  same_but_liquidity w w' /\ totalLiquidityAll w' = totalLiquidityAll w.

(** The collateral a user has in the pool at [a], and in all pools. *)
Definition collateralIn (w : World) (user a : address) : N :=
  default 0 ((fun p => collateralAmount (getStake p user)) <$> pools w !! a).

Definition totalCollateralOf (w : World) (user : address) : N :=
  sum_values ((fun p => collateralAmount (getStake p user)) <$> pools w).

End Deployment.

(** Further worlds of the concrete deployment: pool A paused by the
    factory's owner; pool A drained by a call from an outsider. *)
Definition paused : World :=
  run Scenario.staked1000 [ (1, 2500, CallToggleStatus Scenario.A) ].

Definition drained : World :=
  run Scenario.staked1000
    [ (Scenario.bob, 2500,
       CallTransferLiquidityToPool Scenario.A Scenario.B Scenario.alice 1000) ].

(** Pool A with rewards in its pot; pool A retired by the factory's owner. *)
Definition rewarded : World :=
  run Scenario.staked1000 [ (1, 2500, CallAddRewardsToPot Scenario.A 7) ].

Definition retired : World :=
  run Scenario.staked1000 [ (1, 2500, CallSetStatus Scenario.A INACTIVE) ].

(** The LP ledger of pool A after [alice] allowed [bob] 50 of her shares. *)
Definition ledger_approved : LPERC20.state :=
  LPERC20.apply_op (lpToken (Scenario.poolAt Scenario.staked1000 Scenario.A))
    (LPERC20.Approve Scenario.alice Scenario.bob 50).

(** * Properties *)

(** ** Checked arithmetic *)

Lemma checked_add_Ok a b c : checked_add a b = Ok c -> c = a + b /\ a + b <= MAX_UINT256.
Proof.
  unfold checked_add. destruct (N.leb_spec (a + b) MAX_UINT256); intros E;
    inversion E; auto.
Qed.

Lemma checked_sub_Ok a b c : checked_sub a b = Ok c -> c = a - b /\ b <= a.
Proof.
  unfold checked_sub. destruct (N.leb_spec b a); intros E; inversion E; auto.
Qed.

Lemma checked_mul_Ok a b c : checked_mul a b = Ok c -> c = a * b /\ a * b <= MAX_UINT256.
Proof.
  unfold checked_mul. destruct (N.leb_spec (a * b) MAX_UINT256); intros E;
    inversion E; auto.
Qed.

Lemma checked_div_Ok a b c : checked_div a b = Ok c -> c = a / b /\ b <> 0.
Proof.
  unfold checked_div. destruct (N.eqb_spec b 0); intros E; inversion E; auto.
Qed.

Lemma checked_add_fits a b : a + b <= MAX_UINT256 -> checked_add a b = Ok (a + b).
Proof. intros Hle. unfold checked_add. apply N.leb_le in Hle. now rewrite Hle. Qed.

Lemma checked_sub_fits a b : b <= a -> checked_sub a b = Ok (a - b).
Proof. intros Hle. unfold checked_sub. apply N.leb_le in Hle. now rewrite Hle. Qed.

Lemma checked_mul_fits a b : a * b <= MAX_UINT256 -> checked_mul a b = Ok (a * b).
Proof. intros Hle. unfold checked_mul. apply N.leb_le in Hle. now rewrite Hle. Qed.

Lemma rbind_Ok {A B} (r : result A) (k : A -> result B) b :
  rbind r k = Ok b -> exists a, r = Ok a /\ k a = Ok b.
Proof. destruct r as [a|f]; simpl; intros E; [eauto | discriminate]. Qed.

Lemma rrequire_Ok cond msg : rrequire cond msg = Ok tt -> cond = true.
Proof. destruct cond; simpl; [auto | discriminate]. Qed.

(** Invert a successful run of a [result] computation, one bind at a time. *)
Ltac inv_res H :=
  repeat match type of H with
  | rbind _ _ = Ok _ =>
      let a := fresh "v" in
      let H1 := fresh "Hv" in
      apply rbind_Ok in H; destruct H as (a & H1 & H);
      try (destruct a; apply rrequire_Ok in H1)
  | (let _ := _ in _) = Ok _ => cbv zeta in H
  end.

(** ** Sums over a mapping *)

Lemma sum_values_empty : sum_values ∅ = 0.
Proof. unfold sum_values. apply map_fold_empty. Qed.

Lemma sum_values_insert_fresh (m : gmap address N) k v :
  m !! k = None -> sum_values (<[k := v]> m) = v + sum_values m.
Proof.
  intros Hk. unfold sum_values.
  rewrite map_fold_insert_L; [reflexivity | intros; cbv beta; lia | exact Hk].
Qed.

Lemma sum_values_delete (m : gmap address N) k v :
  m !! k = Some v -> sum_values m = v + sum_values (delete k m).
Proof.
  intros Hk. unfold sum_values.
  rewrite (map_fold_delete_L _ _ k v m); [reflexivity | intros; cbv beta; lia | exact Hk].
Qed.

Lemma sum_values_insert (m : gmap address N) k v :
  sum_values (<[k := v]> m) + default 0 (m !! k) = sum_values m + v.
Proof.
  destruct (m !! k) as [x|] eqn:Hk; simpl.
  - rewrite (sum_values_delete m k x Hk).
    rewrite <- (insert_delete_eq m k v).
    rewrite sum_values_insert_fresh by apply lookup_delete_eq. lia.
  - rewrite sum_values_insert_fresh by exact Hk. lia.
Qed.

Lemma sum_values_lookup_le (m : gmap address N) k : default 0 (m !! k) <= sum_values m.
Proof.
  destruct (m !! k) as [x|] eqn:Hk; simpl; [|lia].
  rewrite (sum_values_delete m k x Hk). lia.
Qed.

(** ** The share ledger conserves the supply *)

Lemma LPERC20_transfer_conserved from to amount s s' :
  LPERC20._transfer from to amount s = Ok s' ->
  LPERC20.conserved s -> LPERC20.conserved s'.
Proof.
  unfold LPERC20._transfer, LPERC20.conserved. intros H Hs. inv_res H.
  apply checked_sub_Ok in Hv2 as [-> Hle]. apply checked_add_Ok in Hv3 as [-> _].
  inversion H; subst s'; clear H. simpl.
  pose proof (sum_values_insert
    (<[from := LPERC20.balanceOf s from - amount]> (LPERC20._balances s)) to
    (LPERC20.balanceOf
       (LPERC20.set_balance from (LPERC20.balanceOf s from - amount) s) to + amount)) as E1.
  pose proof (sum_values_insert (LPERC20._balances s) from
    (LPERC20.balanceOf s from - amount)) as E2.
  unfold LPERC20.balanceOf in *. simpl in *. lia.
Qed.

Lemma LPERC20_approve_conserved ownerAddr spender amount s s' :
  LPERC20._approve ownerAddr spender amount s = Ok s' ->
  LPERC20.conserved s -> LPERC20.conserved s'.
Proof.
  unfold LPERC20._approve, LPERC20.conserved. intros H Hs. inv_res H.
  inversion H; subst s'. exact Hs.
Qed.

Lemma LPERC20_mint_conserved sender to amount s s' :
  LPERC20.mint sender to amount s = Ok s' ->
  LPERC20.conserved s -> LPERC20.conserved s'.
Proof.
  unfold LPERC20.mint, LPERC20.conserved. intros H Hs. inv_res H.
  apply checked_add_Ok in Hv1 as [-> _]. apply checked_add_Ok in Hv2 as [-> _].
  inversion H; subst s'; clear H. simpl.
  pose proof (sum_values_insert (LPERC20._balances s) to
    (LPERC20.balanceOf (LPERC20.set_totalSupply (LPERC20._totalSupply s + amount) s) to
     + amount)) as E.
  unfold LPERC20.balanceOf in *. simpl in *. lia.
Qed.

Lemma LPERC20_burn_conserved sender from amount s s' :
  LPERC20.burn sender from amount s = Ok s' ->
  LPERC20.conserved s -> LPERC20.conserved s'.
Proof.
  unfold LPERC20.burn, LPERC20.conserved. intros H Hs. inv_res H.
  apply checked_sub_Ok in Hv2 as [-> Hle]. apply checked_sub_Ok in Hv3 as [-> _].
  inversion H; subst s'; clear H. simpl.
  pose proof (sum_values_insert (LPERC20._balances s) from
    (LPERC20.balanceOf s from - amount)) as E.
  unfold LPERC20.balanceOf in *. simpl in *. lia.
Qed.

Lemma LPERC20_call_conserved o s s' :
  LPERC20.call o s = Ok s' -> LPERC20.conserved s -> LPERC20.conserved s'.
Proof.
  destruct o; simpl.
  - apply LPERC20_mint_conserved.
  - apply LPERC20_burn_conserved.
  - apply LPERC20_transfer_conserved.
  - unfold LPERC20.transferFrom. intros H Hs. inv_res H.
    eapply LPERC20_approve_conserved; [exact H|].
    eapply LPERC20_transfer_conserved; eauto.
  - apply LPERC20_approve_conserved.
Qed.

Lemma LPERC20_apply_op_conserved s o :
  LPERC20.conserved s -> LPERC20.conserved (LPERC20.apply_op s o).
Proof.
  intros Hs. unfold LPERC20.apply_op.
  destruct (LPERC20.call o s) eqn:E; [|exact Hs].
  eapply LPERC20_call_conserved; eauto.
Qed.

(** C9. Share conservation: starting from the ledger a pool deploys, after
    every sequence of [mint], [burn], [transfer], [transferFrom] and
    [approve] calls, by any callers and whether each call succeeds or
    reverts, the balances of all holders add up to [totalSupply()]. *)
Theorem LPERC20_share_conservation (_owner : address) (ops : list LPERC20.op) :
  sum_values (LPERC20._balances (LPERC20.run ops (LPERC20.constructor _owner)))
  = LPERC20.totalSupply (LPERC20.run ops (LPERC20.constructor _owner)).
Proof.
  change (LPERC20.conserved (LPERC20.run ops (LPERC20.constructor _owner))).
  assert (Hinit : LPERC20.conserved (LPERC20.constructor _owner)).
  { unfold LPERC20.conserved. simpl. apply sum_values_empty. }
  revert Hinit. generalize (LPERC20.constructor _owner) as s.
  unfold LPERC20.run.
  induction ops as [|o ops IH]; intros s Hs; simpl; [exact Hs|].
  apply IH. now apply LPERC20_apply_op_conserved.
Qed.

(** ** Running contract code *)

Section Facts.
Context `{Token : IERC20}.

Lemma bind_Ok {A B} (m : M A) (k : A -> M B) w b w' :
  bind m k w = Ok (b, w') -> exists a w1, m w = Ok (a, w1) /\ k a w1 = Ok (b, w').
Proof.
  unfold bind. destruct (m w) as [[a w1]|f]; intros E; [eauto | discriminate].
Qed.

Lemma ret_Ok {A} (a : A) w b w' : ret a w = Ok (b, w') -> b = a /\ w' = w.
Proof. unfold ret. intros E. inversion E. auto. Qed.

Lemma require_Ok cond msg w u w' :
  require cond msg w = Ok (u, w') -> cond = true /\ w' = w.
Proof. destruct cond; simpl; intros E; inversion E. auto. Qed.

Lemma lift_Ok {A} (r : result A) w a w' : lift r w = Ok (a, w') -> r = Ok a /\ w' = w.
Proof. unfold lift. destruct r; intros E; inversion E. auto. Qed.

Lemma sload_Ok this w p w' :
  sload this w = Ok (p, w') -> pools w !! this = Some p /\ w' = w.
Proof. unfold sload. destruct (pools w !! this); intros E; inversion E. auto. Qed.

Lemma sstore_Ok this p w u w' : sstore this p w = Ok (u, w') -> w' = set_pool this p w.
Proof. unfold sstore. intros E. inversion E. auto. Qed.

Lemma call_Ok {A} target (callee : M A) w a w' :
  call target callee w = Ok (a, w') ->
  is_Some (pools w !! target) /\ callee w = Ok (a, w').
Proof. unfold call. destruct (pools w !! target); intros E; [eauto | discriminate]. Qed.

Lemma try_call_Ok {A} target (callee : M A) w r w' :
  try_call target callee w = Ok (r, w') ->
  is_Some (pools w !! target) /\
  match r with
  | Some a => callee w = Ok (a, w')
  | None => w' = w /\ exists f, callee w = Reverted f
  end.
Proof.
  unfold try_call. destruct (pools w !! target); [|discriminate].
  destruct (callee w) as [[a w1]|f]; intros E; inversion E; subst; eauto.
Qed.

Lemma getPools_Ok this w l w' :
  getPools this w = Ok (l, w') ->
  w' = w /\ l = PoolFactory.getPools (factory w) /\ is_Some (pools w !! this).
Proof.
  unfold getPools. intros H. apply bind_Ok in H as (p & w1 & H1 & H).
  apply sload_Ok in H1 as [Hp ->].
  destruct (poolFactory p =? factoryAddress w); inversion H; subst. eauto.
Qed.

Lemma whenActive_Ok this w u w' :
  whenActive this w = Ok (u, w') ->
  w' = w /\ exists p, pools w !! this = Some p /\ status p = ACTIVE.
Proof.
  unfold whenActive. intros H. apply bind_Ok in H as (p & w1 & H1 & H).
  apply sload_Ok in H1 as [Hp ->]. apply require_Ok in H as [Hs ->].
  split; [reflexivity|]. exists p. split; [exact Hp|]. now destruct (status p).
Qed.

(** Invert a successful run of contract code, one bind at a time. *)
Ltac inv_step H :=
  lazymatch type of H with
  | require _ _ _ = Ok _ => apply require_Ok in H; destruct H as [H ?]; subst
  | lift _ _ = Ok _ => apply lift_Ok in H; destruct H as [H ?]; subst
  | sload _ _ = Ok _ => apply sload_Ok in H; destruct H as [H ?]; subst
  | sstore _ _ _ = Ok _ => apply sstore_Ok in H; subst
  | ret _ _ = Ok _ => apply ret_Ok in H; destruct H as [? ?]; subst
  | whenActive _ _ = Ok _ =>
      let p := fresh "p" in
      let Hp := fresh "Hp" in
      let Hact := fresh "Hactive" in
      apply whenActive_Ok in H; destruct H as [? (p & Hp & Hact)]; subst
  | getPools _ _ = Ok _ => apply getPools_Ok in H; destruct H as (? & ? & H); subst
  | _ => idtac
  end.

Ltac inv_M H :=
  lazymatch type of H with
  | bind _ _ _ = Ok _ =>
      let a := fresh "a" in
      let w1 := fresh "w" in
      let H1 := fresh "Hstep" in
      apply bind_Ok in H; destruct H as (a & w1 & H1 & H);
      inv_step H1; inv_M H
  | _ => inv_step H
  end.

(** ** Views *)

Lemma sumUnrepaid_ge debts acc r : sumUnrepaid debts acc = Ok r -> acc <= r.
Proof.
  revert acc. induction debts as [|d rest IH]; simpl; intros acc H.
  - inversion H. lia.
  - destruct (isRepaid d); [now apply IH|].
    apply rbind_Ok in H as (acc' & Hadd & H).
    apply checked_add_Ok in Hadd as [-> _]. apply IH in H. lia.
Qed.

Lemma getCollateralAvailable_le p u c :
  getCollateralAvailable p u = Ok c -> c <= collateralAmount (getStake p u).
Proof.
  unfold getCollateralAvailable. intros H. apply rbind_Ok in H as (d & _ & H).
  inversion H; subst c. destruct (N.ltb_spec d (collateralAmount (getStake p u))); lia.
Qed.

Lemma getTotalCollateral_loop_view this u allPools acc w t w' :
  getTotalCollateral_loop this u allPools acc w = Ok (t, w') -> w' = w /\ acc <= t.
Proof.
  revert acc. induction allPools as [|a rest IH]; simpl; intros acc H.
  - apply ret_Ok in H as [-> ->]. split; [reflexivity | lia].
  - destruct (a =? this); [now apply IH|].
    apply bind_Ok in H as (r & w1 & Hcall & H).
    apply try_call_Ok in Hcall as [_ Hcall]. destruct r as [st|].
    + unfold peer_getStake in Hcall. inv_M Hcall.
      apply bind_Ok in H as (t1 & w2 & Hadd & H). inv_step Hadd.
      apply checked_add_Ok in Hadd as [-> _]. apply IH in H as [-> Hle].
      split; [reflexivity | lia].
    + destruct Hcall as [-> _]. now apply IH.
Qed.

Lemma getTotalCollateralAcrossPools_view this u w t w' :
  getTotalCollateralAcrossPools this u w = Ok (t, w') ->
  w' = w /\ exists p, pools w !! this = Some p /\ collateralAmount (getStake p u) <= t.
Proof.
  unfold getTotalCollateralAcrossPools. intros H. inv_M H.
  apply getTotalCollateral_loop_view in H as [-> Hle]. eauto.
Qed.

(** ** Global solvency of fallback payments *)

Lemma fallbackPay_within_collateral this sender now merchant _amount w u w' :
  fallbackPay this sender now merchant _amount w = Ok (u, w') ->
  exists t, getTotalCollateralAcrossPools this sender w = Ok (t, w) /\ _amount <= t.
Proof.
  unfold fallbackPay. intros H.
  apply bind_Ok in H as (? & w1 & Hact & H). inv_step Hact.
  apply bind_Ok in H as (? & w1 & Hpos & H). inv_step Hpos.
  apply bind_Ok in H as (? & w1 & Hm & H). inv_step Hm.
  apply bind_Ok in H as (t & w1 & Htotal & H).
  pose proof Htotal as Hview.
  apply getTotalCollateralAcrossPools_view in Hview as [-> (p0 & Hp0 & Hle)].
  exists t. split; [exact Htotal|].
  apply bind_Ok in H as (p1 & w1 & Hload & H). inv_step Hload.
  assert (p1 = p0) by congruence. subst p1.
  apply bind_Ok in H as (c & w1 & Hc & H). inv_step Hc.
  apply getCollateralAvailable_le in Hc.
  destruct ((_amount <=? c) && (_amount <=? totalLiquidityStaked p0)) eqn:Hfast.
  - apply andb_prop in Hfast as [Hfast _]. apply N.leb_le in Hfast. lia.
  - apply bind_Ok in H as (r1 & w1 & _ & H).
    apply bind_Ok in H as (r2 & w2 & _ & H).
    apply bind_Ok in H as (? & w3 & _ & H).
    apply bind_Ok in H as (? & w4 & Hlimit & _).
    apply require_Ok in Hlimit as [Hlimit _]. now apply N.leb_le in Hlimit.
Qed.

Lemma transact_failure w sender now a w' f :
  transact w sender now a = (w', Failure f) -> w' = w.
Proof.
  unfold transact. destruct (exec sender now a w) as [[u w1]|f1]; intros E; inversion E.
  reflexivity.
Qed.

(** C3 (as amended). Global solvency: a [fallbackPay] whose amount exceeds
    the user's total collateral across the pools, as computed at call
    entry, never succeeds: the transaction fails, with the collateral-limit
    error or an earlier one, and every pool, the factory and the token are
    as before the call. *)
Theorem fallbackPay_exceeding_collateral_fails
    w pool sender now merchant _amount t w1 :
  getTotalCollateralAcrossPools pool sender w = Ok (t, w1) ->
  t < _amount ->
  exists f, transact w sender now (CallFallbackPay pool merchant _amount) = (w, Failure f).
Proof.
  intros Htotal Hlt. unfold transact. simpl.
  destruct (call pool (fallbackPay pool sender now merchant _amount) w)
    as [[u w2]|f] eqn:E; [|eauto].
  exfalso. apply call_Ok in E as [_ E].
  apply fallbackPay_within_collateral in E as (t' & Ht' & Hle).
  pose proof Htotal as Hview.
  apply getTotalCollateralAcrossPools_view in Hview as [-> _].
  rewrite Htotal in Ht'. inversion Ht'. lia.
Qed.

(** ** Atomicity of fallback payments *)

(** C2. Atomicity: when a [fallbackPay] transaction fails, at whatever
    phase, the world after it is the world before it: no pool's
    [totalLiquidityStaked], LP-token balances and supply, stake records or
    debt lists differ, and the transfers that peers made during the phases
    are undone with the rest. *)
Theorem fallbackPay_atomicity w sender now pool merchant _amount f :
  snd (transact w sender now (CallFallbackPay pool merchant _amount)) = Failure f ->
  fst (transact w sender now (CallFallbackPay pool merchant _amount)) = w /\
  forall a,
    pools (fst (transact w sender now (CallFallbackPay pool merchant _amount))) !! a
    = pools w !! a.
Proof.
  intros H.
  assert (E : fst (transact w sender now (CallFallbackPay pool merchant _amount)) = w).
  { apply (transact_failure w sender now (CallFallbackPay pool merchant _amount) _ f).
    rewrite <- H. now destruct (transact w sender now _). }
  rewrite E. auto.
Qed.

(** ** Running contract code forward *)

Lemma bind_eq {A B} (m : M A) (k : A -> M B) w a w1 :
  m w = Ok (a, w1) -> bind m k w = k a w1.
Proof. unfold bind. now intros ->. Qed.

Lemma bind_Reverted {A B} (m : M A) (k : A -> M B) w f :
  m w = Reverted f -> bind m k w = Reverted f.
Proof. unfold bind. now intros ->. Qed.

Lemma whenActive_eq this w p :
  pools w !! this = Some p -> status p = ACTIVE -> whenActive this w = Ok (tt, w).
Proof.
  intros Hp Hs. unfold whenActive, bind, sload. rewrite Hp, Hs. reflexivity.
Qed.

Lemma require_eq cond msg w : cond = true -> require cond msg w = Ok (tt, w).
Proof. now intros ->. Qed.

Lemma lift_eq {A} (r : result A) a w : r = Ok a -> lift r w = Ok (a, w).
Proof. now intros ->. Qed.

Lemma sload_eq this w p : pools w !! this = Some p -> sload this w = Ok (p, w).
Proof. unfold sload. now intros ->. Qed.

(** Run contract code forward through a bind whose first step is known. *)
Ltac run_step :=
  lazymatch goal with
  | |- bind (whenActive _) _ _ = _ =>
      erewrite bind_eq; [| eapply whenActive_eq; eassumption]
  | |- bind (require _ _) _ _ = _ =>
      erewrite bind_eq; [| apply require_eq; first [assumption | apply N.ltb_lt; assumption
                                                  | apply N.leb_le; assumption]]
  | |- bind (sload _) _ _ = _ =>
      erewrite bind_eq; [| apply sload_eq; eassumption]
  | |- bind (lift (checked_mul _ _)) _ _ = _ =>
      erewrite bind_eq; [| apply lift_eq, checked_mul_fits; assumption]
  | |- bind (lift (checked_sub _ _)) _ _ = _ =>
      erewrite bind_eq; [| apply lift_eq, checked_sub_fits; assumption]
  | |- bind (lift (checked_add _ _)) _ _ = _ =>
      erewrite bind_eq; [| apply lift_eq, checked_add_fits; assumption]
  | |- bind (lift (checked_div _ BASIS_POINTS)) _ _ = _ =>
      erewrite bind_eq; [| apply lift_eq; reflexivity]
  | |- bind (lift _) _ _ = _ =>
      erewrite bind_eq; [| apply lift_eq; eassumption]
  end.

Lemma div_mul_le_self a b c : b <= c -> a * b / c <= a.
Proof.
  intros Hbc. apply N.Div0.div_le_upper_bound. nia.
Qed.

(** ** Debts and their repayment *)

Lemma sumUnrepaid_Ok debts acc r :
  sumUnrepaid debts acc = Ok r -> r = acc + unrepaidTotal debts.
Proof.
  revert acc. induction debts as [|d rest IH]; simpl; intros acc H.
  - inversion H. lia.
  - destruct (isRepaid d).
    + apply IH in H. lia.
    + apply rbind_Ok in H as (acc' & Hadd & H).
      apply checked_add_Ok in Hadd as [-> _]. apply IH in H. lia.
Qed.

Lemma sumUnrepaid_fits debts acc :
  acc + unrepaidTotal debts <= MAX_UINT256 ->
  sumUnrepaid debts acc = Ok (acc + unrepaidTotal debts).
Proof.
  revert acc. induction debts as [|d rest IH]; simpl; intros acc Hle.
  - now rewrite N.add_0_r.
  - destruct (isRepaid d).
    + rewrite IH by lia. reflexivity.
    + rewrite checked_add_fits by lia. simpl. rewrite IH by lia. f_equal. lia.
Qed.

Lemma unrepaidTotal_insert (debts : list Debt) i d d' :
  debts !! i = Some d ->
  unrepaidTotal (<[i := d']> debts) + (if isRepaid d then 0 else amount d)
  = unrepaidTotal debts + (if isRepaid d' then 0 else amount d').
Proof.
  revert i. induction debts as [|x rest IH]; intros [|i] Hi; simpl in *;
    try discriminate.
  - inversion Hi; subst x. lia.
  - specialize (IH i Hi). lia.
Qed.

Lemma getUserDebts_set_userDebts u v p : getUserDebts (set_userDebts u v p) u = v.
Proof. unfold getUserDebts. simpl. now rewrite lookup_insert_eq. Qed.

(** What a successful [repayDebt] did. *)
Lemma repayDebt_Ok this sender idx a w u w' :
  repayDebt this sender idx a w = Ok (u, w') ->
  exists p d t' active,
    pools w !! this = Some p /\
    status p = ACTIVE /\
    0 < a /\
    getUserDebts p sender !! N.to_nat idx = Some d /\
    isRepaid d = false /\
    a <= amount d /\
    a <= totalDebt p /\
    token_transferFrom this sender this a (token w) = Ok (true, t') /\
    let d' :=
      if a =? amount d
      then mkDebt (user d) (merchantAddress d) (amount d) (timestamp d) true
      else mkDebt (user d) (merchantAddress d) (amount d - a) (timestamp d) false in
    let p1 :=
      set_totalDebt (totalDebt p - a)
        (set_userDebts sender (<[N.to_nat idx := d']> (getUserDebts p sender)) p) in
    getActiveDebtAmount p1 sender = Ok active /\
    w' = set_pool this (if active =? 0 then set_timelock sender 0 p1 else p1)
           (set_token t' w).
Proof.
  unfold repayDebt. intros H.
  apply bind_Ok in H as (? & w1 & Hact & H). inv_step Hact.
  apply bind_Ok in H as (? & w1 & Hpos & H). inv_step Hpos.
  apply bind_Ok in H as (p0 & w1 & Hload & H). inv_step Hload.
  assert (p0 = p) by congruence. subst p0.
  apply bind_Ok in H as (? & w1 & Hidx & H). inv_step Hidx.
  destruct (getUserDebts p sender !! N.to_nat idx) as [d|] eqn:Hd; [|discriminate].
  apply bind_Ok in H as (? & w1 & Hnot & H). inv_step Hnot.
  apply bind_Ok in H as (? & w1 & Hamt & H). inv_step Hamt.
  apply bind_Ok in H as (ok & w1 & Htok & H).
  unfold stakingToken_transferFrom in Htok.
  destruct (token_transferFrom this sender this a (token w)) as [[b t']|] eqn:Et;
    [|discriminate].
  inversion Htok; subst b w1; clear Htok.
  apply bind_Ok in H as (? & w2 & Hok & H). inv_step Hok.
  apply bind_Ok in H as (d' & w1 & Hd' & H).
  apply bind_Ok in H as (td & w2 & Htd & H). inv_step Htd.
  apply checked_sub_Ok in Htd as [-> Htd].
  apply bind_Ok in H as (active & w3 & Hsum & H). inv_step Hsum.
  inv_step H.
  assert (Hrep : isRepaid d = false) by (now destruct (isRepaid d)).
  exists p, d, t', active.
  apply N.ltb_lt in Hpos. apply N.leb_le in Hamt.
  repeat (split; [first [assumption | reflexivity]|]).
  assert (Ed : d' = (if a =? amount d
      then mkDebt (user d) (merchantAddress d) (amount d) (timestamp d) true
      else mkDebt (user d) (merchantAddress d) (amount d - a) (timestamp d) false)
      /\ w1 = set_token t' w).
  { revert Hd'. destruct (a =? amount d); intros Hd'.
    - apply ret_Ok in Hd' as [-> ->]. auto.
    - apply bind_Ok in Hd' as (r & w4 & Hr & Hd'). inv_step Hr.
      apply checked_sub_Ok in Hr as [-> _]. apply ret_Ok in Hd' as [-> ->].
      rewrite Hrep. auto. }
  destruct Ed as [-> ->]. simpl. split; [exact Hsum | reflexivity].
Qed.

(** ** The debt counter accounts for every unrepaid debt *)

Create HintDb keeps.

Lemma keeps_ret {A} (a : A) (Q : A -> Prop) : Q a -> keeps (ret a) Q.
Proof. intros HQ w b w' Hw H. apply ret_Ok in H as [-> ->]. auto. Qed.

Lemma keeps_bind {A B} (m : M A) (k : A -> M B) (Q : A -> Prop) (R : B -> Prop) :
  keeps m Q -> (forall a, Q a -> keeps (k a) R) -> keeps (bind m k) R.
Proof.
  intros Hm Hk w b w' Hw H. apply bind_Ok in H as (a & w1 & H1 & H2).
  destruct (Hm _ _ _ Hw H1) as [Hw1 Ha]. exact (Hk a Ha _ _ _ Hw1 H2).
Qed.

Lemma keeps_weaken {A} (m : M A) (Q Q' : A -> Prop) :
  keeps m Q -> (forall a, Q a -> Q' a) -> keeps m Q'.
Proof. intros Hm HQ w a w' Hw H. destruct (Hm _ _ _ Hw H). auto. Qed.

Lemma keeps_true {A} (m : M A) (Q : A -> Prop) : keeps m Q -> keeps m (fun _ => True).
Proof. intros Hm. eapply keeps_weaken; [exact Hm | auto]. Qed.

Lemma keeps_revert {A} f (Q : A -> Prop) : keeps (revert f) Q.
Proof. intros w a w' _ H. discriminate. Qed.

Lemma keeps_require cond msg : keeps (require cond msg) (fun _ => cond = true).
Proof. intros w a w' Hw H. apply require_Ok in H as [-> ->]. auto. Qed.

Lemma keeps_lift {A} (r : result A) : keeps (lift r) (fun a => r = Ok a).
Proof. intros w a w' Hw H. apply lift_Ok in H as [-> ->]. auto. Qed.

Lemma keeps_sload this : keeps (sload this) debts_accounted.
Proof. intros w p w' Hw H. apply sload_Ok in H as [Hp ->]. eauto. Qed.

Lemma accounted_set_pool this p w :
  accounted w -> debts_accounted p -> accounted (set_pool this p w).
Proof.
  intros Hw Hp a q. simpl. destruct (decide (this = a)) as [->|Hne].
  - rewrite lookup_insert_eq. intros E. inversion E. now subst.
  - rewrite lookup_insert_ne by exact Hne. apply Hw.
Qed.

Lemma keeps_sstore this p : debts_accounted p -> keeps (sstore this p) (fun _ => True).
Proof.
  intros Hp w a w' Hw H. apply sstore_Ok in H as ->.
  split; [now apply accounted_set_pool | exact I].
Qed.

Lemma keeps_call {A} target (callee : M A) Q : keeps callee Q -> keeps (call target callee) Q.
Proof. intros Hc w a w' Hw H. apply call_Ok in H as [_ H]. eapply Hc; eauto. Qed.

Lemma keeps_try_call {A} target (callee : M A) Q :
  keeps callee Q -> keeps (try_call target callee) (fun _ => True).
Proof.
  intros Hc w r w' Hw H. apply try_call_Ok in H as [_ H]. destruct r as [a|].
  - destruct (Hc _ _ _ Hw H). auto.
  - destruct H as [-> _]. auto.
Qed.

Lemma keeps_getPools this : keeps (getPools this) (fun _ => True).
Proof. intros w l w' Hw H. apply getPools_Ok in H as (-> & _). auto. Qed.

Lemma keeps_stakingToken_transfer this to v :
  keeps (stakingToken_transfer this to v) (fun _ => True).
Proof.
  intros w b w' Hw H. unfold stakingToken_transfer in H.
  destruct (token_transfer this to v (token w)) as [[b' t]|]; inversion H; subst.
  split; [exact Hw | exact I].
Qed.

Lemma keeps_stakingToken_transferFrom this from to v :
  keeps (stakingToken_transferFrom this from to v) (fun _ => True).
Proof.
  intros w b w' Hw H. unfold stakingToken_transferFrom in H.
  destruct (token_transferFrom this from to v (token w)) as [[b' t]|]; inversion H; subst.
  split; [exact Hw | exact I].
Qed.

Lemma keeps_stakingToken_balanceOf a : keeps (stakingToken_balanceOf a) (fun _ => True).
Proof. intros w b w' Hw H. inversion H; subst. auto. Qed.

(** Step through contract code, leaving the conditions on what is stored. *)
Ltac keep :=
  lazymatch goal with
  | |- keeps (bind _ _) _ =>
      eapply keeps_bind; [keep_head | let a := fresh "a" in
                                      let Ha := fresh "Ha" in intros a Ha; keep]
  | |- keeps (if ?b then _ else _) _ => destruct b; keep
  | |- keeps (match ?x with Some _ => _ | None => _ end) _ => destruct x; keep
  | |- keeps (match ?x with ACTIVE => _ | PAUSED => _ | INACTIVE => _ end) _ =>
      destruct x; keep
  | |- keeps (ret _) _ => apply keeps_ret; try exact I
  | |- keeps (revert _) _ => apply keeps_revert
  | |- keeps (sstore _ _) _ => apply keeps_sstore
  | |- keeps (require _ _) _ => eapply keeps_true; apply keeps_require
  | |- keeps (lift _) _ => eapply keeps_true; apply keeps_lift
  | |- keeps (call _ _) _ => apply keeps_call; keep
  | |- _ => solve [eauto with keeps] || idtac
  end
with keep_head :=
  lazymatch goal with
  | |- keeps (require _ _) _ => apply keeps_require
  | |- keeps (lift _) _ => apply keeps_lift
  | |- keeps (sload _) _ => apply keeps_sload
  | |- keeps (sstore _ _) _ => apply keeps_sstore
  | |- keeps (getPools _) _ => apply keeps_getPools
  | |- keeps (stakingToken_transfer _ _ _) _ => apply keeps_stakingToken_transfer
  | |- keeps (stakingToken_transferFrom _ _ _ _) _ => apply keeps_stakingToken_transferFrom
  | |- keeps (stakingToken_balanceOf _) _ => apply keeps_stakingToken_balanceOf
  | |- keeps (try_call _ _) _ => eapply keeps_try_call; keep
  | |- keeps (call _ _) _ => eapply keeps_call; keep
  | |- keeps (if ?b then _ else _) _ => eapply keeps_true; destruct b; keep
  | |- _ => solve [eauto with keeps] || (eapply keeps_true; keep)
  end.

Lemma keeps_whenActive this : keeps (whenActive this) (fun _ => True).
Proof. unfold whenActive. keep. Qed.

Lemma keeps_onlyFactoryOwner this sender : keeps (onlyFactoryOwner this sender) (fun _ => True).
Proof. unfold onlyFactoryOwner. keep. Qed.

#[local] Hint Resolve keeps_whenActive keeps_onlyFactoryOwner : keeps.

Lemma keeps_toggleStatus this sender : keeps (toggleStatus this sender) (fun _ => True).
Proof. unfold toggleStatus. keep; assumption. Qed.

Lemma keeps_setStatus this sender st : keeps (setStatus this sender st) (fun _ => True).
Proof. unfold setStatus. keep; assumption. Qed.

Lemma keeps_setApy this sender v : keeps (setApy this sender v) (fun _ => True).
Proof. unfold setApy. keep; assumption. Qed.

Lemma keeps_addRewardsToPot this sender v : keeps (addRewardsToPot this sender v) (fun _ => True).
Proof. unfold addRewardsToPot. keep; assumption. Qed.

Lemma keeps_distributeRewards this sender : keeps (distributeRewards this sender) (fun _ => True).
Proof. unfold distributeRewards. keep; assumption. Qed.

Lemma keeps_emergencyWithdraw this sender : keeps (emergencyWithdraw this sender) (fun _ => True).
Proof. unfold emergencyWithdraw. keep. Qed.

Lemma keeps_stake this sender now v : keeps (stake this sender now v) (fun _ => True).
Proof. unfold stake. keep; assumption. Qed.

Lemma keeps_unstake this sender v : keeps (unstake this sender v) (fun _ => True).
Proof. unfold unstake. keep; assumption. Qed.

Lemma keeps_receiveLiquidity this sender v : keeps (receiveLiquidity this sender v) (fun _ => True).
Proof. unfold receiveLiquidity. keep; assumption. Qed.

#[local] Hint Resolve keeps_receiveLiquidity : keeps.

Lemma keeps_transferLiquidityToPool this sender target u v :
  keeps (transferLiquidityToPool this sender target u v) (fun _ => True).
Proof. unfold transferLiquidityToPool. keep; assumption. Qed.

Lemma keeps_contributeLiquidityForPayment this sender target u v :
  keeps (contributeLiquidityForPayment this sender target u v) (fun _ => True).
Proof. unfold contributeLiquidityForPayment. keep; assumption. Qed.

#[local] Hint Resolve keeps_transferLiquidityToPool keeps_contributeLiquidityForPayment
  : keeps.

Lemma unrepaidTotal_app l1 l2 :
  unrepaidTotal (l1 ++ l2) = unrepaidTotal l1 + unrepaidTotal l2.
Proof. induction l1 as [|d l1 IH]; simpl; [reflexivity | rewrite IH; lia]. Qed.

Lemma unrepaidOfPool_set_userDebts u v p :
  unrepaidOfPool (set_userDebts u v p) + unrepaidTotal (getUserDebts p u)
  = unrepaidOfPool p + unrepaidTotal v.
Proof.
  unfold unrepaidOfPool, getUserDebts. simpl. rewrite fmap_insert.
  pose proof (sum_values_insert (unrepaidTotal <$> userDebts p) u (unrepaidTotal v)) as E.
  rewrite lookup_fmap in E. destruct (userDebts p !! u); simpl in *; lia.
Qed.

Lemma unrepaidTotal_le_pool p u : unrepaidTotal (getUserDebts p u) <= unrepaidOfPool p.
Proof.
  unfold unrepaidOfPool, getUserDebts.
  pose proof (sum_values_lookup_le (unrepaidTotal <$> userDebts p) u) as E.
  rewrite lookup_fmap in E. destruct (userDebts p !! u); simpl in *; lia.
Qed.

Lemma keeps_executeOriginalFallbackPay this sender now merchant v :
  keeps (executeOriginalFallbackPay this sender now merchant v) (fun _ => True).
Proof.
  unfold executeOriginalFallbackPay. keep. cbv beta in *.
  match goal with H : checked_add (totalDebt _) v = Ok _ |- _ =>
    apply checked_add_Ok in H as [-> Hfit] end.
  match goal with H : debts_accounted ?p |- _ => rename H into Hacc; rename p into p0 end.
  destruct Hacc as [Hsum Hmax].
  assert (Hnew : debts_accounted
    (set_totalDebt (totalDebt p0 + v)
       (set_userDebts sender
          (getUserDebts p0 sender ++ [mkDebt sender merchant v now false]) p0))).
  { split; [|exact Hfit].
    pose proof (unrepaidOfPool_set_userDebts sender
      (getUserDebts p0 sender ++ [mkDebt sender merchant v now false]) p0) as E.
    rewrite unrepaidTotal_app in E. simpl in E.
    change (unrepaidOfPool
              (set_userDebts sender
                 (getUserDebts p0 sender ++ [mkDebt sender merchant v now false]) p0)
            = totalDebt p0 + v).
    lia. }
  match goal with |- debts_accounted (if ?c then _ else _) => destruct c end;
    exact Hnew.
Qed.

#[local] Hint Resolve keeps_executeOriginalFallbackPay : keeps.

Lemma keeps_peer_getStake a u : keeps (peer_getStake a u) (fun _ => True).
Proof. unfold peer_getStake. keep. Qed.

Lemma keeps_peer_getCollateralAvailable a u :
  keeps (peer_getCollateralAvailable a u) (fun _ => True).
Proof. unfold peer_getCollateralAvailable. keep. Qed.

Lemma keeps_peer_totalLiquidity a : keeps (peer_totalLiquidity a) (fun _ => True).
Proof. unfold peer_totalLiquidity. keep. Qed.

Lemma keeps_peer_getStakedAmount a u : keeps (peer_getStakedAmount a u) (fun _ => True).
Proof. unfold peer_getStakedAmount. keep. Qed.

#[local] Hint Resolve keeps_peer_getStake keeps_peer_getCollateralAvailable
  keeps_peer_totalLiquidity keeps_peer_getStakedAmount : keeps.

Lemma keeps_getTotalCollateral_loop this u allPools acc :
  keeps (getTotalCollateral_loop this u allPools acc) (fun _ => True).
Proof.
  revert acc. induction allPools as [|a rest IH]; intros acc; simpl.
  - keep.
  - keep; apply IH.
Qed.

Lemma keeps_redistribute_loop this u allPools needed got :
  keeps (redistribute_loop this u allPools needed got) (fun _ => True).
Proof.
  revert needed got. induction allPools as [|a rest IH]; intros needed got; simpl.
  - keep.
  - keep; apply IH.
Qed.

Lemma keeps_addLiquidity_loop this u allPools needed got :
  keeps (addLiquidity_loop this u allPools needed got) (fun _ => True).
Proof.
  revert needed got. induction allPools as [|a rest IH]; intros needed got; simpl.
  - keep.
  - keep; apply IH.
Qed.

#[local] Hint Resolve keeps_getTotalCollateral_loop keeps_redistribute_loop
  keeps_addLiquidity_loop : keeps.

Lemma keeps_getTotalCollateralAcrossPools this u :
  keeps (getTotalCollateralAcrossPools this u) (fun _ => True).
Proof. unfold getTotalCollateralAcrossPools. keep. Qed.

Lemma keeps_redistributeFundsFromPools this u required available :
  keeps (redistributeFundsFromPools this u required available) (fun _ => True).
Proof. unfold redistributeFundsFromPools. keep. Qed.

Lemma keeps_addLiquidityFromNewPools this u required available :
  keeps (addLiquidityFromNewPools this u required available) (fun _ => True).
Proof. unfold addLiquidityFromNewPools. keep. Qed.

#[local] Hint Resolve keeps_getTotalCollateralAcrossPools keeps_redistributeFundsFromPools
  keeps_addLiquidityFromNewPools : keeps.

Lemma keeps_fallbackPay this sender now merchant v :
  keeps (fallbackPay this sender now merchant v) (fun _ => True).
Proof. unfold fallbackPay. keep. Qed.

Lemma keeps_repayDebt this sender idx v : keeps (repayDebt this sender idx v) (fun _ => True).
Proof.
  intros w u w' Hw H. split; [|exact I].
  apply repayDebt_Ok in H
    as (p & d & t' & active & Hp & _ & Hpos & Hd & Hrep & Hle & Htd & _ & _ & ->).
  apply accounted_set_pool; [exact Hw|].
  destruct (Hw _ _ Hp) as [Hsum Hmax].
  set (d' := if v =? amount d
             then mkDebt (user d) (merchantAddress d) (amount d) (timestamp d) true
             else mkDebt (user d) (merchantAddress d) (amount d - v) (timestamp d) false).
  assert (Hnew : debts_accounted
    (set_totalDebt (totalDebt p - v)
       (set_userDebts sender (<[N.to_nat idx := d']> (getUserDebts p sender)) p))).
  { split; [|simpl; lia].
    pose proof (unrepaidOfPool_set_userDebts sender
      (<[N.to_nat idx := d']> (getUserDebts p sender)) p) as E.
    pose proof (unrepaidTotal_insert _ _ _ d' Hd) as E'.
    rewrite Hrep in E'.
    assert (Hd' : (if isRepaid d' then 0 else amount d') = amount d - v).
    { subst d'. destruct (N.eqb_spec v (amount d)); simpl; lia. }
    rewrite Hd' in E'.
    change (unrepaidOfPool
              (set_userDebts sender (<[N.to_nat idx := d']> (getUserDebts p sender)) p)
            = totalDebt p - v).
    lia. }
  destruct (active =? 0); exact Hnew.
Qed.

Lemma keeps_lpToken_call pool o : keeps (lpToken_call pool o) (fun _ => True).
Proof. unfold lpToken_call. keep; assumption. Qed.

Lemma keeps_factory_onlyOwner sender : keeps (factory_onlyOwner sender) (fun _ => True).
Proof.
  intros w u w' Hw H. unfold factory_onlyOwner in H.
  destruct (sender =? PoolFactory.owner (factory w)); inversion H; subst. auto.
Qed.

Lemma keeps_factory_poolFound a : keeps (factory_poolFound a) (fun _ => True).
Proof.
  unfold factory_poolFound. eapply keeps_bind; [apply keeps_require|]. intros _ _.
  intros w u w' Hw H.
  destruct (PoolFactory.poolToRegion (factory w) !! a) as [r|]; [|discriminate].
  destruct (String.eqb r ""); inversion H; subst. auto.
Qed.

#[local] Hint Resolve keeps_factory_onlyOwner keeps_factory_poolFound keeps_toggleStatus
  keeps_addRewardsToPot : keeps.

Lemma debts_accounted_constructor this region fo pf :
  debts_accounted (LiquidityPool_constructor this region fo pf).
Proof.
  split.
  - unfold unrepaidOfPool. simpl. rewrite fmap_empty. apply sum_values_empty.
  - simpl. unfold MAX_UINT256. lia.
Qed.

Lemma keeps_createPool sender region a : keeps (createPool sender region a) (fun _ => True).
Proof.
  unfold createPool. eapply keeps_bind; [apply keeps_factory_onlyOwner|]. intros _ _.
  eapply keeps_bind; [apply keeps_require|]. intros _ _.
  intros w u w' Hw H.
  destruct (bool_decide (region ∈ PoolFactory.regionExists (factory w))); [discriminate|].
  destruct ((a =? 0) || (a =? factoryAddress w) || bool_decide (is_Some (pools w !! a)));
    [discriminate|].
  inversion H; subst. split; [|exact I].
  intros b q. simpl. destruct (decide (a = b)) as [->|Hne].
  - rewrite lookup_insert_eq. intros E. inversion E.
    apply debts_accounted_constructor.
  - rewrite lookup_insert_ne by exact Hne. apply Hw.
Qed.

Lemma keeps_togglePoolStatus sender a : keeps (togglePoolStatus sender a) (fun _ => True).
Proof.
  unfold togglePoolStatus. eapply keeps_bind; [apply keeps_factory_onlyOwner|]. intros _ _.
  eapply keeps_bind; [apply keeps_factory_poolFound|]. intros _ _.
  intros w u w' Hw H.
  exact (keeps_call a _ _ (keeps_toggleStatus a (factoryAddress w)) _ _ _ Hw H).
Qed.

Lemma keeps_addRewardsToPool sender a v : keeps (addRewardsToPool sender a v) (fun _ => True).
Proof.
  unfold addRewardsToPool. eapply keeps_bind; [apply keeps_factory_onlyOwner|]. intros _ _.
  eapply keeps_bind; [apply keeps_factory_poolFound|]. intros _ _.
  eapply keeps_bind; [apply keeps_require|]. intros _ _.
  intros w u w' Hw H. revert H.
  assert (K : keeps
    (bind (stakingToken_transferFrom (factoryAddress w) sender a v)
       (fun _ => call a (addRewardsToPot a (factoryAddress w) v))) (fun _ => True))
    by keep.
  intros H. exact (K _ _ _ Hw H).
Qed.

Lemma keeps_transferOwnership sender newOwner :
  keeps (transferOwnership sender newOwner) (fun _ => True).
Proof.
  unfold transferOwnership. eapply keeps_bind; [apply keeps_factory_onlyOwner|]. intros _ _.
  eapply keeps_bind; [apply keeps_require|]. intros _ _.
  intros w u w' Hw H. inversion H; subst. auto.
Qed.

Lemma keeps_exec sender now a : keeps (exec sender now a) (fun _ => True).
Proof.
  destruct a; simpl;
    first [ apply keeps_call | idtac ];
    eauto using keeps_stake, keeps_unstake, keeps_fallbackPay, keeps_repayDebt,
      keeps_transferLiquidityToPool, keeps_contributeLiquidityForPayment,
      keeps_receiveLiquidity, keeps_toggleStatus, keeps_setStatus, keeps_setApy,
      keeps_addRewardsToPot, keeps_distributeRewards, keeps_emergencyWithdraw,
      keeps_lpToken_call, keeps_createPool, keeps_togglePoolStatus,
      keeps_addRewardsToPool, keeps_transferOwnership.
Qed.

Lemma accounted_transact w sender now a :
  accounted w -> accounted (fst (transact w sender now a)).
Proof.
  intros Hw. unfold transact.
  destruct (exec sender now a w) as [[u w']|f] eqn:E; simpl; [|exact Hw].
  now destruct (keeps_exec _ _ _ _ _ _ Hw E).
Qed.

Lemma reachable_accounted w : reachable w -> accounted w.
Proof.
  induction 1 as [t fa dep _ | w sender now a _ IH _ | w t _ IH].
  - intros a p. simpl. rewrite lookup_empty. discriminate.
  - now apply accounted_transact.
  - exact IH.
Qed.

(** C10. In every reachable world, for every pool and user,
    [getCollateralAvailable] returns without reverting: the user's
    collateral minus the sum of the amounts of their unrepaid debts when
    the collateral is larger, and [0] otherwise (also when the active debt
    exceeds the collateral). *)
Theorem getCollateralAvailable_total w a p u :
  reachable w ->
  pools w !! a = Some p ->
  getCollateralAvailable p u
  = Ok (if unrepaidTotal (getUserDebts p u) <? collateralAmount (getStake p u)
        then collateralAmount (getStake p u) - unrepaidTotal (getUserDebts p u)
        else 0).
Proof.
  intros Hw Hp. apply reachable_accounted in Hw. destruct (Hw _ _ Hp) as [Hsum Hmax].
  pose proof (unrepaidTotal_le_pool p u) as Hle.
  unfold getCollateralAvailable.
  rewrite sumUnrepaid_fits by (rewrite N.add_0_l; lia).
  simpl. reflexivity.
Qed.

(** ** unstake *)

(** C7 (as amended). In a reachable world, for an [unstake] of [lp] shares
    on an active pool with [0 < lp <= lpTokensMinted], the proportion is
    taken in basis points, [prop = lp * 10000 / lpTokensMinted] (rounded
    down), and the user's active debt is the sum of the amounts of their
    unrepaid debts in this pool:
    - if the collateral left after removing [collateral * prop / 10000] is
      below that debt, the transaction fails with "Insufficient collateral"
      and the world is unchanged;
    - otherwise, when the shares can be burnt, the pool holds the liquidity
      and the token transfer goes through, the call succeeds: it pays the
      user [staked * prop / 10000], and takes that amount off the stake and
      the pool's liquidity, [collateral * prop / 10000] off the collateral
      and [lp] off the minted shares. *)
Theorem unstake_guard_and_effect w this sender now lp p :
  reachable w ->
  pools w !! this = Some p ->
  status p = ACTIVE ->
  0 < lp ->
  lp <= lpTokensMinted (getStake p sender) ->
  lp * BASIS_POINTS <= MAX_UINT256 ->
  stakedAmount (getStake p sender) * BASIS_POINTS <= MAX_UINT256 ->
  collateralAmount (getStake p sender) * BASIS_POINTS <= MAX_UINT256 ->
  let st := getStake p sender in
  let debt := unrepaidTotal (getUserDebts p sender) in
  let prop := lp * BASIS_POINTS / lpTokensMinted st in
  let toReturn := stakedAmount st * prop / BASIS_POINTS in
  let toReduce := collateralAmount st * prop / BASIS_POINTS in
  (collateralAmount st - toReduce < debt ->
   transact w sender now (CallUnstake this lp)
   = (w, Failure (ErrorString "Insufficient collateral"))) /\
  (debt <= collateralAmount st - toReduce ->
   forall lp' t',
     toReturn <= totalLiquidityStaked p ->
     LPERC20.burn this sender lp (lpToken p) = Ok lp' ->
     token_transfer this sender toReturn (token w) = Ok (true, t') ->
     transact w sender now (CallUnstake this lp)
     = (set_token t'
          (set_pool this
             (set_lpToken lp'
                (set_totalLiquidityStaked (totalLiquidityStaked p - toReturn)
                   (set_staker sender
                      (mkStake (stakedAmount st - toReturn)
                         (collateralAmount st - toReduce)
                         (lpTokensMinted st - lp)
                         (stakeTimestamp st)) p))) w),
        Success)).
Proof.
  intros Hw Hp Hact Hpos Hle Hlp Hst Hco st debt prop toReturn toReduce.
  assert (Hdebt : getActiveDebtAmount p sender = Ok debt).
  { destruct (reachable_accounted w Hw _ _ Hp) as [Hsum Hmax].
    pose proof (unrepaidTotal_le_pool p sender) as Hpool.
    unfold getActiveDebtAmount.
    rewrite sumUnrepaid_fits by (rewrite N.add_0_l; lia).
    now rewrite N.add_0_l. }
  assert (Hprop : prop <= BASIS_POINTS).
  { subst prop. rewrite N.mul_comm. apply div_mul_le_self. exact Hle. }
  assert (Hsp : stakedAmount st * prop <= MAX_UINT256).
  { subst st. nia. }
  assert (Hcp : collateralAmount st * prop <= MAX_UINT256).
  { subst st. nia. }
  assert (HtoReturn : toReturn <= stakedAmount st).
  { subst toReturn. apply div_mul_le_self. exact Hprop. }
  assert (HtoReduce : toReduce <= collateralAmount st).
  { subst toReduce. apply div_mul_le_self. exact Hprop. }
  assert (Hdiv : checked_div (lp * BASIS_POINTS) (lpTokensMinted st) = Ok prop).
  { unfold checked_div. destruct (N.eqb_spec (lpTokensMinted st) 0) as [E|_].
    - subst st. lia.
    - reflexivity. }
  assert (Hprefix :
    unstake this sender lp w
    = bind (require (debt <=? collateralAmount st - toReduce) "Insufficient collateral")
        (fun _ =>
           bind (lift (checked_sub (stakedAmount st) toReturn)) (fun staked' =>
           bind (lift (checked_sub (collateralAmount st) toReduce)) (fun collateral' =>
           bind (lift (checked_sub (lpTokensMinted st) lp)) (fun minted' =>
           bind (lift (checked_sub (totalLiquidityStaked p) toReturn)) (fun liquidity' =>
           bind (lift (LPERC20.burn this sender lp (lpToken p))) (fun lp' =>
           bind (sstore this
                   (set_lpToken lp'
                      (set_totalLiquidityStaked liquidity'
                         (set_staker sender
                            (mkStake staked' collateral' minted' (stakeTimestamp st)) p))))
             (fun _ =>
           bind (stakingToken_transfer this sender toReturn) (fun ok =>
           require ok "Token transfer failed")))))))) w).
  { unfold unstake. repeat run_step. reflexivity. }
  split.
  - intros Hlt. unfold transact. simpl. unfold call. rewrite Hp, Hprefix.
    assert (Hb : (debt <=? collateralAmount st - toReduce) = false)
      by (apply N.leb_gt; exact Hlt).
    rewrite Hb. reflexivity.
  - intros Hge lp' t' Hliq Hburn Htok.
    assert (E : unstake this sender lp w
                = Ok (tt, set_token t'
                        (set_pool this
                           (set_lpToken lp'
                              (set_totalLiquidityStaked (totalLiquidityStaked p - toReturn)
                                 (set_staker sender
                                    (mkStake (stakedAmount st - toReturn)
                                       (collateralAmount st - toReduce)
                                       (lpTokensMinted st - lp)
                                       (stakeTimestamp st)) p))) w))).
    { rewrite Hprefix. repeat run_step.
      unfold bind, sstore, stakingToken_transfer. simpl. rewrite Htok. reflexivity. }
    unfold transact. simpl. unfold call. rewrite Hp, E. reflexivity.
Qed.

(** ** Repaying a debt in instalments *)

Lemma unrepaid_entry_le (debts : list Debt) i d :
  debts !! i = Some d -> isRepaid d = false -> amount d <= unrepaidTotal debts.
Proof.
  revert i. induction debts as [|x rest IH]; intros [|i] Hi Hr; simpl in *;
    try discriminate.
  - inversion Hi; subst x. rewrite Hr. lia.
  - specialize (IH i Hi Hr). lia.
Qed.

(** A valid repayment goes through as soon as the token accepts the
    transfer. *)
Lemma repayDebt_succeeds this sender idx a w p d t' :
  accounted w ->
  pools w !! this = Some p ->
  status p = ACTIVE ->
  getUserDebts p sender !! N.to_nat idx = Some d ->
  isRepaid d = false ->
  0 < a ->
  a <= amount d ->
  token_transferFrom this sender this a (token w) = Ok (true, t') ->
  exists w', repayDebt this sender idx a w = Ok (tt, w').
Proof.
  intros Hw Hp Hact Hd Hrep Hpos Hle Htok.
  destruct (Hw _ _ Hp) as [Hsum Hmax].
  pose proof (unrepaidTotal_le_pool p sender) as Hpool.
  pose proof (unrepaid_entry_le _ _ _ Hd Hrep) as Hentry.
  assert (Hlen : idx < N.of_nat (length (getUserDebts p sender))).
  { apply lookup_lt_Some in Hd. lia. }
  assert (Htd : a <= totalDebt p) by lia.
  set (d' := if a =? amount d
             then mkDebt (user d) (merchantAddress d) (amount d) (timestamp d) true
             else mkDebt (user d) (merchantAddress d) (amount d - a) (timestamp d)
                    (isRepaid d)).
  set (p1 := set_totalDebt (totalDebt p - a)
               (set_userDebts sender (<[N.to_nat idx := d']> (getUserDebts p sender)) p)).
  assert (Hactive : getActiveDebtAmount p1 sender
                    = Ok (unrepaidTotal (getUserDebts p1 sender))).
  { unfold getActiveDebtAmount.
    pose proof (unrepaidTotal_insert _ _ _ d' Hd) as Hins.
    assert (Hp1 : getUserDebts p1 sender
                  = <[N.to_nat idx := d']> (getUserDebts p sender))
      by apply getUserDebts_set_userDebts.
    rewrite Hp1, sumUnrepaid_fits; [now rewrite N.add_0_l|].
    rewrite Hrep in Hins. rewrite N.add_0_l.
    assert ((if isRepaid d' then 0 else amount d') <= amount d).
    { subst d'. destruct (a =? amount d); simpl; [lia|]. rewrite Hrep. lia. }
    lia. }
  eexists. unfold repayDebt. run_step. run_step. run_step. cbv zeta. run_step.
  rewrite Hd.
  erewrite bind_eq; [|apply require_eq; rewrite Hrep; reflexivity].
  run_step.
  erewrite bind_eq; [|unfold stakingToken_transferFrom; rewrite Htok; reflexivity].
  erewrite bind_eq; [|reflexivity].
  erewrite (bind_eq _ _ _ d');
    [|subst d'; destruct (a =? amount d) eqn:Ea;
      [reflexivity
      |erewrite bind_eq; [reflexivity | apply lift_eq, checked_sub_fits; exact Hle]]].
  run_step. fold p1.
  erewrite bind_eq; [|apply lift_eq; exact Hactive].
  reflexivity.
Qed.

(** What a successful [repayDebt] did to the entry, the totals and the
    user's timelock. *)
Lemma repayDebt_effect this sender idx a w u w' p d :
  pools w !! this = Some p ->
  getUserDebts p sender !! N.to_nat idx = Some d ->
  repayDebt this sender idx a w = Ok (u, w') ->
  exists p1 d' t',
    token_transferFrom this sender this a (token w) = Ok (true, t') /\
    token w' = t' /\
    pools w' !! this = Some p1 /\
    status p1 = status p /\
    getUserDebts p1 sender !! N.to_nat idx = Some d' /\
    isRepaid d' = (a =? amount d) /\
    (a <> amount d -> amount d' = amount d - a) /\
    unrepaidTotal (getUserDebts p1 sender) + a = unrepaidTotal (getUserDebts p sender) /\
    totalDebt p1 + a = totalDebt p /\
    getTimelock p1 sender
    = (if unrepaidTotal (getUserDebts p1 sender) =? 0 then 0 else getTimelock p sender).
Proof.
  intros Hp Hd H.
  apply repayDebt_Ok in H
    as (p0 & d0 & t' & active & Hp0 & _ & Hpos & Hd0 & Hrep & Hle & Htd & Htok & Hsum & ->).
  assert (p0 = p) by congruence. subst p0.
  assert (d0 = d) by congruence. subst d0.
  set (d' := if a =? amount d
             then mkDebt (user d) (merchantAddress d) (amount d) (timestamp d) true
             else mkDebt (user d) (merchantAddress d) (amount d - a) (timestamp d) false)
    in *.
  set (p1 := set_totalDebt (totalDebt p - a)
               (set_userDebts sender (<[N.to_nat idx := d']> (getUserDebts p sender)) p))
    in *.
  assert (Hdebts : getUserDebts p1 sender
                   = <[N.to_nat idx := d']> (getUserDebts p sender))
    by apply getUserDebts_set_userDebts.
  assert (Hlen : (N.to_nat idx < length (getUserDebts p sender))%nat)
    by (eapply lookup_lt_Some; exact Hd).
  pose proof (unrepaidTotal_insert _ _ _ d' Hd) as Hins.
  rewrite <- Hdebts, Hrep in Hins.
  assert (Hd' : (if isRepaid d' then 0 else amount d') = amount d - a).
  { subst d'. destruct (N.eqb_spec a (amount d)); simpl; lia. }
  rewrite Hd' in Hins.
  unfold getActiveDebtAmount in Hsum. apply sumUnrepaid_Ok in Hsum.
  rewrite N.add_0_l in Hsum. subst active.
  exists (if unrepaidTotal (getUserDebts p1 sender) =? 0
          then set_timelock sender 0 p1 else p1), d', t'.
  split; [exact Htok|]. split; [reflexivity|].
  split; [simpl; apply lookup_insert_eq|].
  split; [now destruct (unrepaidTotal (getUserDebts p1 sender) =? 0)|].
  assert (Hsame : forall q, getUserDebts q sender = getUserDebts p1 sender ->
            getUserDebts q sender !! N.to_nat idx = Some d').
  { intros q ->. rewrite Hdebts. now apply list_lookup_insert_eq. }
  destruct (unrepaidTotal (getUserDebts p1 sender) =? 0) eqn:Ezero.
  - change (getUserDebts (set_timelock sender 0 p1) sender)
      with (getUserDebts p1 sender). rewrite Ezero.
    split; [apply Hsame; reflexivity|].
    split; [subst d'; now destruct (a =? amount d)|].
    split; [intros Hne; subst d'; destruct (N.eqb_spec a (amount d)); [contradiction|];
            reflexivity|].
    split; [lia|]. split; [simpl; lia|].
    unfold getTimelock. simpl. now rewrite lookup_insert_eq.
  - rewrite Ezero.
    split; [apply Hsame; reflexivity|].
    split; [subst d'; now destruct (a =? amount d)|].
    split; [intros Hne; subst d'; destruct (N.eqb_spec a (amount d)); [contradiction|];
            reflexivity|].
    split; [lia|]. split; [simpl; lia|]. reflexivity.
Qed.

Lemma repayAll_valid this sender idx rest :
  forall a w p d,
    accounted w ->
    pools w !! this = Some p ->
    status p = ACTIVE ->
    getUserDebts p sender !! N.to_nat idx = Some d ->
    isRepaid d = false ->
    Forall (fun x => 0 < x) (a :: rest) ->
    foldr N.add 0 (a :: rest) <= amount d ->
    repaymentsAccepted this sender (a :: rest) (token w) = true ->
    exists w' p' d',
      repayAll this sender idx (a :: rest) w = Ok (tt, w') /\
      pools w' !! this = Some p' /\
      getUserDebts p' sender !! N.to_nat idx = Some d' /\
      isRepaid d' = (foldr N.add 0 (a :: rest) =? amount d) /\
      (isRepaid d' = false -> amount d' = amount d - foldr N.add 0 (a :: rest)) /\
      unrepaidTotal (getUserDebts p' sender) + foldr N.add 0 (a :: rest)
      = unrepaidTotal (getUserDebts p sender) /\
      totalDebt p' + foldr N.add 0 (a :: rest) = totalDebt p /\
      getTimelock p' sender
      = (if unrepaidTotal (getUserDebts p' sender) =? 0 then 0 else getTimelock p sender).
Proof.
  induction rest as [|b rest IH]; intros a w p d Hw Hp Hact Hd Hrep Hall Hsum Hacc.
  - simpl in *. rewrite N.add_0_r in *.
    destruct (token_transferFrom this sender this a (token w)) as [[[] t']|] eqn:Etok;
      try discriminate.
    apply Forall_cons in Hall as [Ha _].
    destruct (repayDebt_succeeds _ _ _ _ _ _ _ _ Hw Hp Hact Hd Hrep Ha Hsum Etok)
      as [w' E].
    destruct (repayDebt_effect _ _ _ _ _ _ _ _ _ Hp Hd E)
      as (p1 & d1 & t1 & _ & _ & Hp1 & _ & Hd1 & Erep & Eamt & Hun & Htot & Hlock).
    exists w', p1, d1. unfold bind. rewrite E.
    split; [reflexivity|]. split; [exact Hp1|]. split; [exact Hd1|].
    split; [exact Erep|].
    split; [intros Hf; apply Eamt; intros ->; rewrite N.eqb_refl in Erep; congruence|].
    auto.
  - assert (Hrest : 0 < foldr N.add 0 (b :: rest)).
    { apply Forall_cons in Hall as [_ Hall]. apply Forall_cons in Hall as [Hb _].
      simpl. lia. }
    change (foldr N.add 0 (a :: b :: rest)) with (a + foldr N.add 0 (b :: rest)) in *.
    simpl in Hacc.
    destruct (token_transferFrom this sender this a (token w)) as [[[] t']|] eqn:Etok;
      try discriminate.
    pose proof Hall as Hall'. apply Forall_cons in Hall' as [Ha Hall'].
    assert (Hle : a <= amount d) by lia.
    destruct (repayDebt_succeeds _ _ _ _ _ _ _ _ Hw Hp Hact Hd Hrep Ha Hle Etok)
      as [w1 E].
    destruct (repayDebt_effect _ _ _ _ _ _ _ _ _ Hp Hd E)
      as (p1 & d1 & t1 & Etok1 & Et1 & Hp1 & Hst1 & Hd1 & Erep & Eamt & Hun & Htot & Hlock).
    assert (Et' : t1 = t') by congruence.
    assert (Hne : a <> amount d) by lia.
    assert (Erep1 : isRepaid d1 = false).
    { rewrite Erep. now apply N.eqb_neq. }
    specialize (Eamt Hne).
    destruct (keeps_repayDebt this sender idx a w tt w1 Hw E) as [Hw1 _].
    assert (Hact1 : status p1 = ACTIVE) by congruence.
    assert (Hsum1 : foldr N.add 0 (b :: rest) <= amount d1) by lia.
    assert (Hacc1 : repaymentsAccepted this sender (b :: rest) (token w1) = true).
    { rewrite Et1, Et'. exact Hacc. }
    destruct (IH b w1 p1 d1 Hw1 Hp1 Hact1 Hd1 Erep1 Hall' Hsum1 Hacc1)
      as (w' & p' & d' & Erun & Hp' & Hd' & Erep' & Eamt' & Hun' & Htot' & Hlock').
    exists w', p', d'.
    split.
    { change (repayAll this sender idx (a :: b :: rest))
        with (bind (repayDebt this sender idx a)
                (fun _ => repayAll this sender idx (b :: rest))).
      unfold bind at 1. rewrite E. exact Erun. }
    split; [exact Hp'|]. split; [exact Hd'|].
    split.
    { rewrite Erep'. rewrite Eamt.
      destruct (N.eqb_spec (foldr N.add 0 (b :: rest)) (amount d - a));
        destruct (N.eqb_spec (a + foldr N.add 0 (b :: rest)) (amount d)); lia || reflexivity. }
    split; [intros Hf; rewrite (Eamt' Hf), Eamt; lia|].
    split; [lia|]. split; [lia|].
    rewrite Hlock'.
    destruct (N.eqb_spec (unrepaidTotal (getUserDebts p' sender)) 0) as [_|_];
      [reflexivity|].
    rewrite Hlock.
    pose proof (unrepaid_entry_le _ _ _ Hd1 Erep1) as Hentry.
    destruct (N.eqb_spec (unrepaidTotal (getUserDebts p1 sender)) 0) as [Hz|_];
      [lia | reflexivity].
Qed.

(** C8. Debt round trip, in a reachable world with the pool active: when
    an unrepaid debt is repaid by successive [repayDebt] calls with
    positive amounts that add up to at most the debt, and the token
    accepts each transfer, every call succeeds; the pool's [totalDebt] and
    the user's active debt have gone down by the total repaid; the entry
    is marked [isRepaid] exactly when the total equals the debt, and
    otherwise stays open with the rest as its amount; and the user's
    unstake timelock is zero if no active debt of this user is left in
    the pool, and as it was before if some is left. *)
Theorem repayDebt_round_trip w this sender idx amounts p d :
  reachable w ->
  pools w !! this = Some p ->
  status p = ACTIVE ->
  getUserDebts p sender !! N.to_nat idx = Some d ->
  isRepaid d = false ->
  amounts <> [] ->
  Forall (fun a => 0 < a) amounts ->
  foldr N.add 0 amounts <= amount d ->
  repaymentsAccepted this sender amounts (token w) = true ->
  exists w' p' d',
    repayAll this sender idx amounts w = Ok (tt, w') /\
    pools w' !! this = Some p' /\
    getUserDebts p' sender !! N.to_nat idx = Some d' /\
    isRepaid d' = (foldr N.add 0 amounts =? amount d) /\
    (isRepaid d' = false -> amount d' = amount d - foldr N.add 0 amounts) /\
    unrepaidTotal (getUserDebts p' sender) + foldr N.add 0 amounts
    = unrepaidTotal (getUserDebts p sender) /\
    totalDebt p' + foldr N.add 0 amounts = totalDebt p /\
    getTimelock p' sender
    = (if unrepaidTotal (getUserDebts p' sender) =? 0 then 0 else getTimelock p sender).
Proof.
  intros Hw Hp Hact Hd Hrep Hne Hall Hsum Hacc.
  destruct amounts as [|a rest]; [contradiction|].
  apply repayAll_valid; auto. now apply reachable_accounted.
Qed.

(** ** The phases of a fallback payment *)

(** Phase 1 never gathers more than what is still needed. *)
Lemma redistribute_loop_bounds this u allPools needed got w r w' :
  redistribute_loop this u allPools needed got w = Ok (r, w') ->
  got <= r /\ r <= got + needed.
Proof.
  revert needed got w.
  induction allPools as [|a rest IH]; intros needed got w H; simpl in H.
  - apply ret_Ok in H as [-> _]. lia.
  - destruct (needed =? 0); [apply ret_Ok in H as [-> _]; lia|].
    destruct (a =? this); [now apply IH in H|].
    apply bind_Ok in H as ([pc|] & w1 & _ & H); [|now apply IH in H].
    apply bind_Ok in H as ([pl|] & w2 & _ & H); [|now apply IH in H].
    set (take := if needed <? pc then needed else pc) in *.
    assert (Htake : take <= needed).
    { subst take. destruct (N.ltb_spec needed pc); lia. }
    destruct ((take <=? pl) && (0 <? take)); [|now apply IH in H].
    apply bind_Ok in H as ([[]|] & w3 & _ & H); [|now apply IH in H].
    apply bind_Ok in H as (got' & w4 & Hadd & H). inv_step Hadd.
    apply bind_Ok in H as (needed' & w5 & Hsub & H). inv_step Hsub.
    apply checked_add_Ok in Hadd as [-> _]. apply checked_sub_Ok in Hsub as [-> _].
    apply IH in H. lia.
Qed.

(** One peer of Phase 1. *)
Lemma redistribute_loop_peer this u peer rest needed got w q pc :
  needed <> 0 ->
  peer <> this ->
  pools w !! peer = Some q ->
  getCollateralAvailable q u = Ok pc ->
  got + needed <= MAX_UINT256 ->
  redistribute_loop this u (peer :: rest) needed got w
  = if (0 <? N.min pc needed) && (N.min pc needed <=? totalLiquidityStaked q)
    then match transferLiquidityToPool peer this this u (N.min pc needed) w with
         | Ok (_, w1) =>
             redistribute_loop this u rest (needed - N.min pc needed)
               (got + N.min pc needed) w1
         | Reverted _ => redistribute_loop this u rest needed got w
         end
    else redistribute_loop this u rest needed got w.
Proof.
  intros Hneeded Hpeer Hq Hpc Hfit. cbn [redistribute_loop].
  destruct (N.eqb_spec needed 0) as [|_]; [contradiction|].
  destruct (N.eqb_spec peer this) as [|_]; [contradiction|].
  assert (Emin : (if needed <? pc then needed else pc) = N.min pc needed).
  { destruct (N.ltb_spec needed pc); lia. }
  assert (E1 : try_call peer (peer_getCollateralAvailable peer u) w = Ok (Some pc, w)).
  { unfold try_call, peer_getCollateralAvailable, bind, sload, lift.
    rewrite Hq, Hpc. reflexivity. }
  rewrite (bind_eq _ _ _ _ _ E1).
  assert (E2 : try_call peer (peer_totalLiquidity peer) w
               = Ok (Some (totalLiquidityStaked q), w)).
  { unfold try_call, peer_totalLiquidity, bind, sload, ret. rewrite Hq. reflexivity. }
  rewrite (bind_eq _ _ _ _ _ E2).
  cbv zeta. rewrite Emin.
  rewrite (andb_comm (0 <? N.min pc needed)).
  destruct ((N.min pc needed <=? totalLiquidityStaked q) && (0 <? N.min pc needed));
    [|reflexivity].
  unfold bind at 1. unfold try_call. rewrite Hq.
  destruct (transferLiquidityToPool peer this this u (N.min pc needed) w)
    as [[[] w1]|f]; [|reflexivity].
  assert (Hadd : got + N.min pc needed <= MAX_UINT256) by lia.
  assert (Hsub : N.min pc needed <= needed) by lia.
  rewrite (bind_eq _ _ _ _ _ (lift_eq _ _ w1 (checked_add_fits _ _ Hadd))).
  rewrite (bind_eq _ _ _ _ _ (lift_eq _ _ w1 (checked_sub_fits _ _ Hsub))).
  reflexivity.
Qed.

(** With more available collateral than the amount asked (and too little
    liquidity), the first subtraction of Phase 1 underflows. *)
Lemma redistributeFundsFromPools_underflow this u required available w :
  required < available ->
  redistributeFundsFromPools this u required available w = Reverted (PanicCode 17).
Proof.
  intros Hlt. unfold redistributeFundsFromPools, bind, lift, checked_sub.
  apply N.leb_gt in Hlt. now rewrite Hlt.
Qed.

Lemma fallbackPay_slow_path w this sender now merchant _amount p t c :
  pools w !! this = Some p ->
  status p = ACTIVE ->
  0 < _amount ->
  merchant <> 0 ->
  getTotalCollateralAcrossPools this sender w = Ok (t, w) ->
  getCollateralAvailable p sender = Ok c ->
  c < _amount ->
  fallbackPay this sender now merchant _amount w
  = bind (if totalLiquidityStaked p <? _amount
          then redistributeFundsFromPools this sender _amount c
          else ret c)
      (fun r => fallbackPay_finish this sender now merchant _amount t r) w.
Proof.
  intros Hp Hact Hpos Hm Ht Hc Hlt. unfold fallbackPay.
  assert (Hm' : negb (merchant =? 0) = true).
  { destruct (N.eqb_spec merchant 0); [contradiction | reflexivity]. }
  do 3 run_step.
  rewrite (bind_eq _ _ _ _ _ Ht). do 2 run_step.
  assert (Hfast : (_amount <=? c) = false) by (apply N.leb_gt; exact Hlt).
  rewrite Hfast. reflexivity.
Qed.

(** C6 (as amended). For a [fallbackPay] that misses the fast path for lack
    of local collateral ([c < _amount]):
    - if the pool's own liquidity is below the amount, Phase 1 runs before
      Phase 2: it walks the registry in order with [_amount - c] still
      needed, and hands what it gathered, between [c] and [_amount], to the
      rest of the call;
    - if the pool's own liquidity covers the amount, Phase 1 is skipped
      and Phase 2 is attempted directly;
    - in Phase 1, a peer reached with [needed > 0] is asked for the user's
      available collateral [pc] and for its liquidity, and
      [min(pc, needed)] is drawn from it when that is positive and at most
      the peer's liquidity; otherwise, or when the peer's transfer reverts,
      the peer is skipped and the walk goes on; the walk stops when nothing
      is needed any more, and passes over the pool itself. *)
Theorem fallbackPay_phase1 w this sender now merchant _amount p t c :
  pools w !! this = Some p ->
  status p = ACTIVE ->
  0 < _amount ->
  merchant <> 0 ->
  getTotalCollateralAcrossPools this sender w = Ok (t, w) ->
  getCollateralAvailable p sender = Ok c ->
  c < _amount ->
  (totalLiquidityStaked p < _amount ->
   fallbackPay this sender now merchant _amount w
   = bind (redistribute_loop this sender (PoolFactory.getPools (factory w)) (_amount - c) c)
       (fun r => fallbackPay_finish this sender now merchant _amount t r) w
   /\ forall r w1,
        redistribute_loop this sender (PoolFactory.getPools (factory w)) (_amount - c) c w
        = Ok (r, w1) ->
        c <= r /\ r <= _amount) /\
  (_amount <= totalLiquidityStaked p ->
   fallbackPay this sender now merchant _amount w
   = fallbackPay_finish this sender now merchant _amount t c w) /\
  (forall peer rest needed got w0 q pc,
     needed <> 0 ->
     peer <> this ->
     pools w0 !! peer = Some q ->
     getCollateralAvailable q sender = Ok pc ->
     got + needed <= MAX_UINT256 ->
     redistribute_loop this sender (peer :: rest) needed got w0
     = if (0 <? N.min pc needed) && (N.min pc needed <=? totalLiquidityStaked q)
       then match transferLiquidityToPool peer this this sender (N.min pc needed) w0 with
            | Ok (_, w1) =>
                redistribute_loop this sender rest (needed - N.min pc needed)
                  (got + N.min pc needed) w1
            | Reverted _ => redistribute_loop this sender rest needed got w0
            end
       else redistribute_loop this sender rest needed got w0) /\
  (forall peer rest got w0,
     redistribute_loop this sender (peer :: rest) 0 got w0 = Ok (got, w0)) /\
  (forall rest needed got w0,
     needed <> 0 ->
     redistribute_loop this sender (this :: rest) needed got w0
     = redistribute_loop this sender rest needed got w0).
Proof.
  intros Hp Hact Hpos Hm Ht Hc Hlt.
  pose proof (fallbackPay_slow_path _ _ _ now _ _ _ _ _ Hp Hact Hpos Hm Ht Hc Hlt) as Hslow.
  assert (Hpools : getPools this w = Ok (PoolFactory.getPools (factory w), w)).
  { pose proof Ht as Ht'. unfold getTotalCollateralAcrossPools in Ht'.
    apply bind_Ok in Ht' as (p0 & w1 & Hl & Ht'). inv_step Hl.
    apply bind_Ok in Ht' as (l & w1 & Hg & _).
    pose proof Hg as Hg'. apply getPools_Ok in Hg' as (-> & -> & _). exact Hg. }
  split; [|split; [|split; [|split]]].
  - intros Hliq. split.
    + rewrite Hslow.
      assert (E : (totalLiquidityStaked p <? _amount) = true) by (apply N.ltb_lt; exact Hliq).
      rewrite E. unfold redistributeFundsFromPools.
      assert (Hsub : c <= _amount) by lia.
      unfold bind at 1 2 3. unfold lift. rewrite (checked_sub_fits _ _ Hsub).
      rewrite Hpools. reflexivity.
    + intros r w1 Hloop. apply redistribute_loop_bounds in Hloop. lia.
  - intros Hliq. rewrite Hslow.
    assert (E : (totalLiquidityStaked p <? _amount) = false) by (apply N.ltb_ge; exact Hliq).
    rewrite E. reflexivity.
  - intros peer rest needed got w0 q pc. apply redistribute_loop_peer.
  - reflexivity.
  - intros rest needed got w0 Hneeded. cbn [redistribute_loop].
    destruct (N.eqb_spec needed 0) as [|_]; [contradiction|].
    now rewrite N.eqb_refl.
Qed.

(** ** Reachability of worlds built by running transactions *)

Lemma is_accountb_true w a : is_accountb w a = true -> is_account w a.
Proof.
  unfold is_accountb, is_account. intros H.
  apply andb_prop in H as [H H3]. apply andb_prop in H as [H1 H2].
  apply bool_decide_eq_true in H3.
  destruct (N.eqb_spec a 0); [discriminate|].
  destruct (N.eqb_spec a (factoryAddress w)); [discriminate|]. auto.
Qed.

Lemma reachable_run w txs :
  reachable w -> sent_by_accounts w txs = true -> reachable (run w txs).
Proof.
  revert w. induction txs as [|tx rest IH]; intros w Hw Hs; simpl in *.
  - exact Hw.
  - apply andb_prop in Hs as [Ha Hs]. apply IH; [|exact Hs].
    apply reachable_transact; [exact Hw | now apply is_accountb_true].
Qed.

(** ** The payment step of a fallback payment *)

(** The step every successful [fallbackPay] ends with appends the debt and
    raises the user's timelock to [now + 24 hours], never lowering it. *)
Lemma executeOriginalFallbackPay_timelock this sender now merchant v w u w' p :
  pools w !! this = Some p ->
  executeOriginalFallbackPay this sender now merchant v w = Ok (u, w') ->
  exists p',
    pools w' !! this = Some p' /\
    getTimelock p' sender
    = N.max (getTimelock p sender) (now + UNSTAKE_TIME_LOCK_DURATION) /\
    getUserDebts p' sender
    = (getUserDebts p sender ++ [mkDebt sender merchant v now false])%list.
Proof.
  intros Hp H. unfold executeOriginalFallbackPay in H.
  apply bind_Ok in H as (p0 & w1 & Hl & H). inv_step Hl.
  assert (p0 = p) by congruence. subst p0.
  apply bind_Ok in H as (? & w1 & Hq & H). inv_step Hq.
  apply bind_Ok in H as (burnt & w1 & Hb & H).
  assert (w1 = w).
  { destruct (LPERC20.totalSupply (lpToken p) =? 0); [discriminate|].
    apply bind_Ok in Hb as (? & w2 & Hb1 & Hb2). inv_step Hb1. inv_step Hb2.
    reflexivity. }
  subst w1. clear Hb.
  inv_M H.
  match goal with Hadd : checked_add now UNSTAKE_TIME_LOCK_DURATION = Ok _ |- _ =>
    apply checked_add_Ok in Hadd as [-> _] end.
  match goal with Htok : stakingToken_transfer _ _ _ _ = Ok _ |- _ =>
    unfold stakingToken_transfer in Htok;
    destruct (token_transfer this merchant v _) as [[b t]|]; [|discriminate];
    inversion Htok; subst; clear Htok end.
  simpl. rewrite lookup_insert_eq. eexists. split; [reflexivity|].
  destruct (N.ltb_spec (getTimelock p sender) (now + UNSTAKE_TIME_LOCK_DURATION));
    unfold getTimelock, getUserDebts in *; simpl; rewrite lookup_insert_eq; simpl.
  - rewrite lookup_insert_eq. simpl. split; [lia | reflexivity].
  - split; [lia | reflexivity].
Qed.

(** ** Reading results off a run *)

Lemma transact_failed w sender now a f :
  snd (transact w sender now a) = Failure f -> transact w sender now a = (w, Failure f).
Proof.
  unfold transact. destruct (exec sender now a w) as [[u w']|f']; simpl; intros E.
  - discriminate.
  - now inversion E.
Qed.

Lemma getTotalCollateralAcrossPools_value this u w t :
  match getTotalCollateralAcrossPools this u w with
  | Ok (t', _) => t' = t
  | Reverted _ => False
  end ->
  getTotalCollateralAcrossPools this u w = Ok (t, w).
Proof.
  destruct (getTotalCollateralAcrossPools this u w) as [[t' w']|f] eqn:E; [|contradiction].
  intros ->. apply getTotalCollateralAcrossPools_view in E as [-> _]. reflexivity.
Qed.

(** ** The share ledger: transfers, allowances, supply *)

Lemma sum_values_two_le (m : gmap N N) k1 k2 :
  k1 <> k2 -> default 0 (m !! k1) + default 0 (m !! k2) <= sum_values m.
Proof.
  intros Hne. destruct (m !! k1) as [x|] eqn:H1; simpl.
  - rewrite (sum_values_delete m k1 x H1).
    pose proof (sum_values_lookup_le (delete k1 m) k2) as H2.
    rewrite lookup_delete_ne in H2 by exact Hne. lia.
  - pose proof (sum_values_lookup_le m k2). lia.
Qed.

Lemma LPERC20_balanceOf_set_balance a b v s :
  LPERC20.balanceOf (LPERC20.set_balance a v s) b
  = if decide (a = b) then v else LPERC20.balanceOf s b.
Proof.
  unfold LPERC20.balanceOf. simpl. rewrite lookup_insert. now destruct (decide (a = b)).
Qed.

Lemma LPERC20_transfer_inv from to amount s s' :
  LPERC20._transfer from to amount s = Ok s' ->
  from <> 0 /\ to <> 0 /\ amount <= LPERC20.balanceOf s from /\
  LPERC20._totalSupply s' = LPERC20._totalSupply s /\
  LPERC20._allowances s' = LPERC20._allowances s /\
  LPERC20.owner s' = LPERC20.owner s /\
  forall a,
    LPERC20.balanceOf s' a
    = if decide (from = to) then LPERC20.balanceOf s a
      else if decide (a = from) then LPERC20.balanceOf s a - amount
      else if decide (a = to) then LPERC20.balanceOf s a + amount
      else LPERC20.balanceOf s a.
Proof.
  unfold LPERC20._transfer. intros H. inv_res H.
  apply checked_sub_Ok in Hv2 as [-> Hle]. apply checked_add_Ok in Hv3 as [-> _].
  inversion H; subst s'; clear H.
  destruct (N.eqb_spec from 0) as [|Hf]; [discriminate|].
  destruct (N.eqb_spec to 0) as [|Ht]; [discriminate|].
  repeat (split; [first [assumption | reflexivity]|]).
  intros a. rewrite !LPERC20_balanceOf_set_balance.
  destruct (decide (from = to)) as [->|Hft].
  - destruct (decide (to = a)) as [->|]; [|reflexivity].
    destruct (decide (a = a)); [lia | contradiction].
  - destruct (decide (to = a)) as [->|Hta].
    + destruct (decide (a = from)); [congruence|].
      destruct (decide (from = a)); [congruence|].
      destruct (decide (a = a)); [reflexivity | contradiction].
    + destruct (decide (from = a)) as [->|Hfa].
      * destruct (decide (a = a)); [reflexivity | contradiction].
      * destruct (decide (a = from)); [congruence|].
        destruct (decide (a = to)); [congruence | reflexivity].
Qed.

(** X1. A successful [transfer] takes [amount] from the caller's balance
    and adds it to the recipient's; a transfer to oneself changes no
    balance; no other balance, the supply, the allowances and the owner
    are touched. *)
Theorem LPERC20_transfer_effect sender to amount s s' :
  LPERC20.transfer sender to amount s = Ok s' ->
  sender <> 0 /\ to <> 0 /\ amount <= LPERC20.balanceOf s sender /\
  LPERC20.totalSupply s' = LPERC20.totalSupply s /\
  LPERC20._allowances s' = LPERC20._allowances s /\
  LPERC20.owner s' = LPERC20.owner s /\
  forall a,
    LPERC20.balanceOf s' a
    = if decide (sender = to) then LPERC20.balanceOf s a
      else if decide (a = sender) then LPERC20.balanceOf s a - amount
      else if decide (a = to) then LPERC20.balanceOf s a + amount
      else LPERC20.balanceOf s a.
Proof. unfold LPERC20.transfer. apply LPERC20_transfer_inv. Qed.

Lemma LPERC20_transferFrom_inv sender from to amount s s' :
  LPERC20.transferFrom sender from to amount s = Ok s' ->
  amount <= LPERC20.allowance s from sender /\
  LPERC20.allowance s' from sender = LPERC20.allowance s from sender - amount /\
  (forall o sp, (o, sp) <> (from, sender) ->
                LPERC20.allowance s' o sp = LPERC20.allowance s o sp) /\
  LPERC20._totalSupply s' = LPERC20._totalSupply s /\
  LPERC20.owner s' = LPERC20.owner s /\
  exists s1, LPERC20._transfer from to amount s = Ok s1 /\
             LPERC20._balances s' = LPERC20._balances s1.
Proof.
  intros H. unfold LPERC20.transferFrom in H. cbv zeta in H.
  apply rbind_Ok in H as ([] & Hreq & H). apply rrequire_Ok in Hreq.
  apply rbind_Ok in H as (s1 & Htr & H).
  apply rbind_Ok in H as (rest & Hsub & H).
  apply N.leb_le in Hreq. apply checked_sub_Ok in Hsub as [-> _].
  pose proof (LPERC20_transfer_inv _ _ _ _ _ Htr)
    as (_ & _ & _ & Hsup & Hall & Hown & _).
  unfold LPERC20._approve in H. inv_res H. inversion H; subst s'; clear H.
  split; [exact Hreq|]. unfold LPERC20.allowance in *. simpl. rewrite Hall.
  split; [now rewrite lookup_insert_eq|].
  split; [intros o sp Hne; rewrite lookup_insert_ne by congruence; reflexivity|].
  split; [exact Hsup|]. split; [exact Hown|]. exists s1. auto.
Qed.

(** X2. A successful [transferFrom] needs an allowance of at least
    [amount] from the holder to the caller and lowers exactly that
    allowance by [amount], leaving every other allowance and the supply
    as they were; the balances move as in a [_transfer] from the holder
    to the recipient. *)
Theorem LPERC20_transferFrom_allowance sender from to amount s s' :
  LPERC20.transferFrom sender from to amount s = Ok s' ->
  amount <= LPERC20.allowance s from sender /\
  LPERC20.allowance s' from sender = LPERC20.allowance s from sender - amount /\
  (forall o sp, (o, sp) <> (from, sender) ->
                LPERC20.allowance s' o sp = LPERC20.allowance s o sp) /\
  LPERC20.totalSupply s' = LPERC20.totalSupply s /\
  exists s1, LPERC20._transfer from to amount s = Ok s1 /\
             LPERC20._balances s' = LPERC20._balances s1.
Proof.
  intros H. apply LPERC20_transferFrom_inv in H as (H1 & H2 & H3 & H4 & _ & H5). auto.
Qed.

Lemma ledger_sound_call o s s' :
  LPERC20.call o s = Ok s' -> ledger_sound s -> ledger_sound s'.
Proof.
  intros H [Hc Hm]. split; [eapply LPERC20_call_conserved; eauto|].
  destruct o; simpl in H.
  - unfold LPERC20.mint in H. inv_res H. apply checked_add_Ok in Hv1 as [-> Hfit].
    apply checked_add_Ok in Hv2 as [-> _]. inversion H; subst. simpl. exact Hfit.
  - unfold LPERC20.burn in H. inv_res H. apply checked_sub_Ok in Hv2 as [-> _].
    apply checked_sub_Ok in Hv3 as [-> _]. inversion H; subst. simpl in *. lia.
  - apply LPERC20_transfer_inv in H as (_ & _ & _ & -> & _). exact Hm.
  - apply LPERC20_transferFrom_inv in H as (_ & _ & _ & -> & _). exact Hm.
  - unfold LPERC20.approve, LPERC20._approve in H. inv_res H. inversion H; subst.
    exact Hm.
Qed.

Lemma ledger_sound_run ops s : ledger_sound s -> ledger_sound (LPERC20.run ops s).
Proof.
  revert s. unfold LPERC20.run.
  induction ops as [|o ops IH]; intros s Hs; simpl; [exact Hs|].
  apply IH. unfold LPERC20.apply_op. destruct (LPERC20.call o s) eqn:E; [|exact Hs].
  eapply ledger_sound_call; eauto.
Qed.

Lemma ledger_sound_constructor o : ledger_sound (LPERC20.constructor o).
Proof.
  split; [unfold LPERC20.conserved; simpl; apply sum_values_empty|].
  simpl. unfold MAX_UINT256. lia.
Qed.

Lemma ledger_sound_bounds s a b :
  ledger_sound s ->
  LPERC20.balanceOf s a <= LPERC20._totalSupply s /\
  (a <> b -> LPERC20.balanceOf s a + LPERC20.balanceOf s b <= LPERC20._totalSupply s) /\
  LPERC20._totalSupply s <= MAX_UINT256.
Proof.
  intros [Hc Hm]. unfold LPERC20.conserved in Hc. rewrite <- Hc.
  split; [apply sum_values_lookup_le|].
  split; [intros Hne; now apply sum_values_two_le | rewrite Hc; exact Hm].
Qed.

Lemma ledger_sound_transfer s from to amount :
  ledger_sound s ->
  from <> 0 -> to <> 0 -> amount <= LPERC20.balanceOf s from ->
  exists s', LPERC20._transfer from to amount s = Ok s'.
Proof.
  intros Hsound Hs Ht Hle.
  pose proof (ledger_sound_bounds s from to Hsound) as (H1 & H2 & H3).
  unfold LPERC20._transfer.
  destruct (N.eqb_spec from 0) as [|_]; [contradiction|].
  destruct (N.eqb_spec to 0) as [|_]; [contradiction|].
  apply N.leb_le in Hle as Hle'. rewrite Hle'. simpl.
  rewrite (checked_sub_fits _ _ Hle). simpl.
  rewrite checked_add_fits; [simpl; eauto|].
  rewrite LPERC20_balanceOf_set_balance.
  destruct (decide (from = to)) as [->|Hne]; [lia|].
  specialize (H2 Hne). lia.
Qed.

(** X3. In a ledger reached from the constructor, the balances of any two
    holders together (and so each balance alone) never exceed the supply,
    and the supply fits a [uint256]. *)
Theorem LPERC20_balances_within_supply _owner ops a b :
  LPERC20.balanceOf (LPERC20.run ops (LPERC20.constructor _owner)) a
  + (if decide (a = b) then 0
     else LPERC20.balanceOf (LPERC20.run ops (LPERC20.constructor _owner)) b)
  <= LPERC20.totalSupply (LPERC20.run ops (LPERC20.constructor _owner)) /\
  LPERC20.totalSupply (LPERC20.run ops (LPERC20.constructor _owner)) <= MAX_UINT256.
Proof.
  pose proof (ledger_sound_bounds (LPERC20.run ops (LPERC20.constructor _owner)) a b
                (ledger_sound_run _ _ (ledger_sound_constructor _))) as (H1 & H2 & H3).
  unfold LPERC20.totalSupply. split; [|exact H3].
  destruct (decide (a = b)) as [_|Hne]; [lia | exact (H2 Hne)].
Qed.

(** X4. In a ledger reached from the constructor, [transfer] cannot fail
    on arithmetic: it succeeds whenever sender and recipient are not the
    zero address and the sender's balance covers the amount. *)
Theorem LPERC20_transfer_succeeds _owner ops sender to amount :
  sender <> 0 ->
  to <> 0 ->
  amount <= LPERC20.balanceOf (LPERC20.run ops (LPERC20.constructor _owner)) sender ->
  exists s',
    LPERC20.transfer sender to amount (LPERC20.run ops (LPERC20.constructor _owner))
    = Ok s'.
Proof.
  intros Hs Ht Hle. unfold LPERC20.transfer.
  apply ledger_sound_transfer; auto.
  apply ledger_sound_run, ledger_sound_constructor.
Qed.

(** X5. Minting and then burning the same amount for the same holder
    gives back every balance and the supply. *)
Theorem LPERC20_mint_burn_round_trip sender to amount s s1 :
  LPERC20.mint sender to amount s = Ok s1 ->
  exists s2,
    LPERC20.burn sender to amount s1 = Ok s2 /\
    LPERC20._totalSupply s2 = LPERC20._totalSupply s /\
    (forall a, LPERC20.balanceOf s2 a = LPERC20.balanceOf s a) /\
    LPERC20._allowances s2 = LPERC20._allowances s.
Proof.
  unfold LPERC20.mint. intros H. inv_res H.
  apply checked_add_Ok in Hv1 as [-> _]. apply checked_add_Ok in Hv2 as [-> _].
  inversion H; subst s1; clear H.
  unfold LPERC20.burn, LPERC20.onlyOwner. simpl.
  unfold LPERC20.onlyOwner in Hv. simpl in Hv. rewrite Hv, Hv0. simpl.
  rewrite !LPERC20_balanceOf_set_balance.
  destruct (decide (to = to)); [|contradiction].
  set (b := LPERC20.balanceOf
              (LPERC20.set_totalSupply (LPERC20._totalSupply s + amount) s) to).
  assert (Hb : (amount <=? b + amount) = true) by (apply N.leb_le; lia).
  rewrite Hb. simpl. rewrite checked_sub_fits by lia. simpl.
  rewrite checked_sub_fits by lia. simpl. eexists. split; [reflexivity|].
  simpl. split; [lia|]. split; [|reflexivity].
  intros a. unfold LPERC20.balanceOf. simpl. rewrite lookup_insert.
  destruct (decide (to = a)) as [->|Hne].
  - subst b. unfold LPERC20.balanceOf. simpl. lia.
  - rewrite lookup_insert_ne by exact Hne. reflexivity.
Qed.

Lemma LPERC20_call_outsider o s s' :
  op_sender o <> LPERC20.owner s ->
  LPERC20.call o s = Ok s' ->
  LPERC20._totalSupply s' = LPERC20._totalSupply s /\ LPERC20.owner s' = LPERC20.owner s.
Proof.
  intros Hne E. destruct o; simpl in *.
  - unfold LPERC20.mint, LPERC20.onlyOwner in E.
    destruct (N.eqb_spec sender (LPERC20.owner s)); [contradiction | discriminate].
  - unfold LPERC20.burn, LPERC20.onlyOwner in E.
    destruct (N.eqb_spec sender (LPERC20.owner s)); [contradiction | discriminate].
  - now apply LPERC20_transfer_inv in E as (_ & _ & _ & -> & _ & -> & _).
  - now apply LPERC20_transferFrom_inv in E as (_ & _ & _ & -> & -> & _).
  - unfold LPERC20.approve, LPERC20._approve in E. inv_res E. now inversion E.
Qed.

(** X6. Only the owner (the pool) changes the supply: whatever call an
    address other than the owner makes, and whether it succeeds or
    reverts, [totalSupply] stays as it was. *)
Theorem LPERC20_supply_owner_only o s :
  op_sender o <> LPERC20.owner s ->
  LPERC20.totalSupply (LPERC20.apply_op s o) = LPERC20.totalSupply s.
Proof.
  intros Hne. unfold LPERC20.apply_op.
  destruct (LPERC20.call o s) as [s'|] eqn:E; [|reflexivity].
  unfold LPERC20.totalSupply. now apply LPERC20_call_outsider in E as [-> _].
Qed.

(** ** What every pool of a deployment satisfies *)

(** ** Shares minted and burnt by a pool *)

Lemma mintedOfPool_set_staker u st p :
  mintedOfPool (set_staker u st p) + lpTokensMinted (getStake p u)
  = mintedOfPool p + lpTokensMinted st.
Proof.
  unfold mintedOfPool, getStake. simpl. rewrite fmap_insert.
  pose proof (sum_values_insert (lpTokensMinted <$> stakers p) u (lpTokensMinted st)) as E.
  rewrite lookup_fmap in E. destruct (stakers p !! u); simpl in *; lia.
Qed.

Lemma LPERC20_mint_inv sender to amt s s' :
  LPERC20.mint sender to amt s = Ok s' ->
  sender = LPERC20.owner s /\ to <> 0 /\
  LPERC20.owner s' = LPERC20.owner s /\
  LPERC20._totalSupply s' = LPERC20._totalSupply s + amt /\
  LPERC20._allowances s' = LPERC20._allowances s /\
  forall a, LPERC20.balanceOf s' a
            = if decide (a = to) then LPERC20.balanceOf s a + amt else LPERC20.balanceOf s a.
Proof.
  unfold LPERC20.mint, LPERC20.onlyOwner. intros H. inv_res H.
  apply checked_add_Ok in Hv1 as [-> _]. apply checked_add_Ok in Hv2 as [-> _].
  inversion H; subst s'; clear H.
  destruct (N.eqb_spec sender (LPERC20.owner s)); [|discriminate].
  destruct (N.eqb_spec to 0); [discriminate|].
  repeat (split; [first [assumption | reflexivity]|]).
  intros a. rewrite LPERC20_balanceOf_set_balance.
  destruct (decide (to = a)) as [->|Hne].
  - destruct (decide (a = a)); [reflexivity | contradiction].
  - destruct (decide (a = to)); [congruence | reflexivity].
Qed.

Lemma LPERC20_burn_inv sender from amt s s' :
  LPERC20.burn sender from amt s = Ok s' ->
  sender = LPERC20.owner s /\ from <> 0 /\
  amt <= LPERC20.balanceOf s from /\ amt <= LPERC20._totalSupply s /\
  LPERC20.owner s' = LPERC20.owner s /\
  LPERC20._totalSupply s' = LPERC20._totalSupply s - amt /\
  LPERC20._allowances s' = LPERC20._allowances s /\
  forall a, LPERC20.balanceOf s' a
            = if decide (a = from) then LPERC20.balanceOf s a - amt else LPERC20.balanceOf s a.
Proof.
  unfold LPERC20.burn, LPERC20.onlyOwner. intros H. inv_res H.
  apply checked_sub_Ok in Hv2 as [-> Hle]. apply checked_sub_Ok in Hv3 as [-> Hle'].
  inversion H; subst s'; clear H.
  destruct (N.eqb_spec sender (LPERC20.owner s)); [|discriminate].
  destruct (N.eqb_spec from 0); [discriminate|].
  repeat (split; [first [assumption | reflexivity]|]).
  intros a. unfold LPERC20.balanceOf. simpl. rewrite lookup_insert.
  destruct (decide (from = a)) as [->|Hne].
  - destruct (decide (a = a)); [reflexivity | contradiction].
  - destruct (decide (a = from)); [congruence | reflexivity].
Qed.

Lemma pool_wf_update fa F a p p' :
  pool_wf fa F a p ->
  poolFactory p' = poolFactory p ->
  factoryOwner p' = factoryOwner p ->
  regionName p' = regionName p ->
  LPERC20.owner (lpToken p') = LPERC20.owner (lpToken p) ->
  ledger_sound (lpToken p') ->
  LPERC20._totalSupply (lpToken p') = mintedOfPool p' ->
  apyBasisPoints p' <= 5000 ->
  pool_wf fa F a p'.
Proof.
  intros (H1 & H2 & H3 & H4 & H5 & H6 & H7 & H8 & H9 & H10 & H11 & H12) E1 E2 E3 E4 Hs Hm Ha.
  unfold pool_wf. rewrite E1, E2, E3, E4. auto 20.
Qed.

Lemma pool_wf_minted fa F a p : pool_wf fa F a p ->
  LPERC20.owner (lpToken p) = a /\ ledger_sound (lpToken p) /\
  LPERC20._totalSupply (lpToken p) = mintedOfPool p /\ apyBasisPoints p <= 5000.
Proof. intros (_ & _ & _ & _ & _ & _ & _ & _ & H9 & H10 & H11 & H12). auto. Qed.

Create HintDb maintains.

Section Maintained.
Variable fa : N.
Variable F : PoolFactory.state.
Variable D : gset N.

Lemma maintains_ret {A} (a : A) (Q : A -> Prop) : Q a -> maintains fa F D (ret a) Q.
Proof. intros HQ w b w' Hw H. apply ret_Ok in H as [-> ->]. auto. Qed.

Lemma maintains_bind {A B} (m : M A) (k : A -> M B) (Q : A -> Prop) (R : B -> Prop) :
  maintains fa F D m Q -> (forall a, Q a -> maintains fa F D (k a) R) ->
  maintains fa F D (bind m k) R.
Proof.
  intros Hm Hk w b w' Hw H. apply bind_Ok in H as (a & w1 & H1 & H2).
  destruct (Hm _ _ _ Hw H1) as [Hw1 Ha]. exact (Hk a Ha _ _ _ Hw1 H2).
Qed.

Lemma maintains_true {A} (m : M A) (Q : A -> Prop) :
  maintains fa F D m Q -> maintains fa F D m (fun _ => True).
Proof. intros Hm w a w' Hw H. destruct (Hm _ _ _ Hw H). auto. Qed.

Lemma maintains_revert {A} f (Q : A -> Prop) : maintains fa F D (revert f) Q.
Proof. intros w a w' _ H. discriminate. Qed.

Lemma maintains_require cond msg : maintains fa F D (require cond msg) (fun _ => cond = true).
Proof. intros w a w' Hw H. apply require_Ok in H as [-> ->]. auto. Qed.

Lemma maintains_lift {A} (r : result A) : maintains fa F D (lift r) (fun a => r = Ok a).
Proof. intros w a w' Hw H. apply lift_Ok in H as [-> ->]. auto. Qed.

Lemma maintains_sload this :
  maintains fa F D (sload this) (fun p => pool_wf fa F this p /\ this ∈ D).
Proof.
  intros w p w' Hw H. apply sload_Ok in H as [Hp ->]. split; [exact Hw|].
  destruct Hw as (_ & _ & Hdom & Hall). split; [now apply Hall|].
  rewrite <- Hdom. apply elem_of_dom. eauto.
Qed.

Lemma maintains_sstore this p :
  pool_wf fa F this p /\ this ∈ D -> maintains fa F D (sstore this p) (fun _ => True).
Proof.
  intros [Hp Hin] w a w' (Hfa & HF & Hdom & Hall) H. apply sstore_Ok in H as ->.
  split; [|exact I]. split; [exact Hfa|]. split; [exact HF|]. split.
  - simpl. rewrite dom_insert_L, Hdom. apply elem_of_subseteq_singleton in Hin.
    apply subseteq_union_1_L, Hin.
  - intros b q. simpl. destruct (decide (this = b)) as [->|Hne].
    + rewrite lookup_insert_eq. intros E. inversion E. now subst.
    + rewrite lookup_insert_ne by exact Hne. apply Hall.
Qed.

Lemma maintains_call {A} target (callee : M A) Q :
  maintains fa F D callee Q -> maintains fa F D (call target callee) Q.
Proof. intros Hc w a w' Hw H. apply call_Ok in H as [_ H]. eapply Hc; eauto. Qed.

Lemma maintains_try_call {A} target (callee : M A) Q :
  maintains fa F D callee Q -> maintains fa F D (try_call target callee) (fun _ => True).
Proof.
  intros Hc w r w' Hw H. apply try_call_Ok in H as [_ H]. destruct r as [a|].
  - destruct (Hc _ _ _ Hw H). auto.
  - destruct H as [-> _]. auto.
Qed.

Lemma maintains_getPools this : maintains fa F D (getPools this) (fun _ => True).
Proof. intros w l w' Hw H. apply getPools_Ok in H as (-> & _). auto. Qed.

Lemma steady_set_token t w : steady fa F D w -> steady fa F D (set_token t w).
Proof. intros (H1 & H2 & H3 & H4). exact (conj H1 (conj H2 (conj H3 H4))). Qed.

Lemma maintains_stakingToken_transfer this to v :
  maintains fa F D (stakingToken_transfer this to v) (fun _ => True).
Proof.
  intros w b w' Hw H. unfold stakingToken_transfer in H.
  destruct (token_transfer this to v (token w)) as [[b' t]|]; inversion H; subst.
  split; [now apply steady_set_token | exact I].
Qed.

Lemma maintains_stakingToken_transferFrom this from to v :
  maintains fa F D (stakingToken_transferFrom this from to v) (fun _ => True).
Proof.
  intros w b w' Hw H. unfold stakingToken_transferFrom in H.
  destruct (token_transferFrom this from to v (token w)) as [[b' t]|]; inversion H; subst.
  split; [now apply steady_set_token | exact I].
Qed.

Lemma maintains_stakingToken_balanceOf a :
  maintains fa F D (stakingToken_balanceOf a) (fun _ => True).
Proof. intros w b w' Hw H. inversion H; subst. auto. Qed.

(** Step through contract code, leaving the conditions on what is stored. *)
Ltac hold :=
  lazymatch goal with
  | |- maintains _ _ _ (bind _ _) _ =>
      eapply maintains_bind; [hold_head | let a := fresh "a" in
                                          let Ha := fresh "Ha" in intros a Ha; hold]
  | |- maintains _ _ _ (if ?b then _ else _) _ => destruct b; hold
  | |- maintains _ _ _ (match ?x with Some _ => _ | None => _ end) _ => destruct x; hold
  | |- maintains _ _ _ (match ?x with ACTIVE => _ | PAUSED => _ | INACTIVE => _ end) _ =>
      destruct x; hold
  | |- maintains _ _ _ (ret _) _ => apply maintains_ret; try exact I
  | |- maintains _ _ _ (revert _) _ => apply maintains_revert
  | |- maintains _ _ _ (sstore _ _) _ => apply maintains_sstore
  | |- maintains _ _ _ (require _ _) _ => eapply maintains_true; apply maintains_require
  | |- maintains _ _ _ (lift _) _ => eapply maintains_true; apply maintains_lift
  | |- maintains _ _ _ (call _ _) _ => apply maintains_call; hold
  | |- _ => solve [eauto with maintains] || idtac
  end
with hold_head :=
  lazymatch goal with
  | |- maintains _ _ _ (require _ _) _ => apply maintains_require
  | |- maintains _ _ _ (lift _) _ => apply maintains_lift
  | |- maintains _ _ _ (sload _) _ => apply maintains_sload
  | |- maintains _ _ _ (sstore _ _) _ => apply maintains_sstore
  | |- maintains _ _ _ (getPools _) _ => apply maintains_getPools
  | |- maintains _ _ _ (stakingToken_transfer _ _ _) _ =>
      apply maintains_stakingToken_transfer
  | |- maintains _ _ _ (stakingToken_transferFrom _ _ _ _) _ =>
      apply maintains_stakingToken_transferFrom
  | |- maintains _ _ _ (stakingToken_balanceOf _) _ =>
      apply maintains_stakingToken_balanceOf
  | |- maintains _ _ _ (try_call _ _) _ => eapply maintains_try_call; hold
  | |- maintains _ _ _ (call _ _) _ => eapply maintains_call; hold
  | |- maintains _ _ _ (if ?b then _ else _) _ =>
      eapply (maintains_true _ (fun _ => True)); destruct b; hold
  | |- _ => solve [eauto with maintains] || (eapply (maintains_true _ (fun _ => True)); hold)
  end.

Lemma maintains_whenActive this : maintains fa F D (whenActive this) (fun _ => True).
Proof. unfold whenActive. hold. Qed.

Lemma maintains_onlyFactoryOwner this sender :
  maintains fa F D (onlyFactoryOwner this sender) (fun _ => True).
Proof. unfold onlyFactoryOwner. hold. Qed.

Hint Resolve maintains_whenActive maintains_onlyFactoryOwner : maintains.

Lemma maintains_toggleStatus this sender :
  maintains fa F D (toggleStatus this sender) (fun _ => True).
Proof. unfold toggleStatus. hold; assumption. Qed.

Lemma maintains_setStatus this sender st :
  maintains fa F D (setStatus this sender st) (fun _ => True).
Proof. unfold setStatus. hold; assumption. Qed.

Lemma maintains_addRewardsToPot this sender v :
  maintains fa F D (addRewardsToPot this sender v) (fun _ => True).
Proof. unfold addRewardsToPot. hold; assumption. Qed.

Lemma maintains_distributeRewards this sender :
  maintains fa F D (distributeRewards this sender) (fun _ => True).
Proof. unfold distributeRewards. hold; assumption. Qed.

Lemma maintains_emergencyWithdraw this sender :
  maintains fa F D (emergencyWithdraw this sender) (fun _ => True).
Proof. unfold emergencyWithdraw. hold. Qed.

Lemma maintains_receiveLiquidity this sender v :
  maintains fa F D (receiveLiquidity this sender v) (fun _ => True).
Proof. unfold receiveLiquidity. hold; assumption. Qed.

Hint Resolve maintains_receiveLiquidity : maintains.

Lemma maintains_transferLiquidityToPool this sender target u v :
  maintains fa F D (transferLiquidityToPool this sender target u v) (fun _ => True).
Proof. unfold transferLiquidityToPool. hold; assumption. Qed.

Lemma maintains_contributeLiquidityForPayment this sender target u v :
  maintains fa F D (contributeLiquidityForPayment this sender target u v) (fun _ => True).
Proof. unfold contributeLiquidityForPayment. hold; assumption. Qed.

Lemma maintains_repayDebt this sender idx v :
  maintains fa F D (repayDebt this sender idx v) (fun _ => True).
Proof.
  unfold repayDebt. hold.
  match goal with |- context [if ?c then _ else _] => destruct c end; assumption.
Qed.

Lemma maintains_setApy this sender v :
  maintains fa F D (setApy this sender v) (fun _ => True).
Proof.
  unfold setApy. hold. cbv beta in *.
  match goal with H : pool_wf _ _ _ ?p /\ _ |- _ => destruct H as [Hwf Hin] end.
  split; [|exact Hin].
  destruct (pool_wf_minted _ _ _ _ Hwf) as (_ & Hs & Hm & _).
  eapply pool_wf_update; [exact Hwf | reflexivity.. | exact Hs | exact Hm |].
  simpl. match goal with H : (v <=? 5000) = true |- _ => now apply N.leb_le in H end.
Qed.

Lemma maintains_stake this sender now v :
  maintains fa F D (stake this sender now v) (fun _ => True).
Proof.
  unfold stake. hold. cbv beta in *.
  match goal with H : pool_wf _ _ _ ?p /\ _ |- _ => destruct H as [Hwf Hin] end.
  split; [|exact Hin].
  destruct (pool_wf_minted _ _ _ _ Hwf) as (Hown & Hs & Hm & Hapy).
  match goal with H : LPERC20.mint _ _ _ _ = Ok _ |- _ => rename H into Hmint end.
  pose proof (ledger_sound_call (LPERC20.Mint _ _ _) _ _ Hmint Hs) as Hs'.
  apply LPERC20_mint_inv in Hmint as (_ & _ & Hown' & Hsup & _).
  match goal with H : checked_add (lpTokensMinted _) _ = Ok _ |- _ =>
    apply checked_add_Ok in H as [-> _] end.
  eapply pool_wf_update; [exact Hwf | reflexivity.. | exact Hown' | exact Hs' | | exact Hapy].
  simpl. rewrite Hsup, Hm.
  match goal with |- context [set_staker ?u ?st ?p] =>
    pose proof (mintedOfPool_set_staker u st p) as E end.
  unfold mintedOfPool in *; simpl in *. lia.
Qed.

Lemma maintains_unstake this sender v :
  maintains fa F D (unstake this sender v) (fun _ => True).
Proof.
  unfold unstake. hold. cbv beta in *.
  match goal with H : pool_wf _ _ _ ?p /\ _ |- _ => destruct H as [Hwf Hin] end.
  split; [|exact Hin].
  destruct (pool_wf_minted _ _ _ _ Hwf) as (Hown & Hs & Hm & Hapy).
  match goal with H : LPERC20.burn _ _ _ _ = Ok _ |- _ => rename H into Hburn end.
  pose proof (ledger_sound_call (LPERC20.Burn _ _ _) _ _ Hburn Hs) as Hs'.
  apply LPERC20_burn_inv in Hburn as (_ & _ & _ & Hle & Hown' & Hsup & _).
  match goal with H : checked_sub (lpTokensMinted _) _ = Ok _ |- _ =>
    apply checked_sub_Ok in H as [-> Hle'] end.
  eapply pool_wf_update; [exact Hwf | reflexivity.. | exact Hown' | exact Hs' | | exact Hapy].
  simpl. rewrite Hsup, Hm.
  match goal with |- context [set_staker ?u ?st ?p] =>
    pose proof (mintedOfPool_set_staker u st p) as E end.
  unfold mintedOfPool in *; simpl in *. lia.
Qed.

Lemma maintains_executeOriginalFallbackPay this sender now merchant v :
  maintains fa F D (executeOriginalFallbackPay this sender now merchant v) (fun _ => True).
Proof.
  unfold executeOriginalFallbackPay. hold. cbv beta in *.
  match goal with H : pool_wf _ _ _ ?p /\ _ |- _ => destruct H as [Hwf Hin] end.
  split; [|exact Hin].
  destruct (pool_wf_minted _ _ _ _ Hwf) as (Hown & Hs & Hm & Hapy).
  match goal with H : LPERC20.burn _ _ _ _ = Ok _ |- _ => rename H into Hburn end.
  pose proof (ledger_sound_call (LPERC20.Burn _ _ _) _ _ Hburn Hs) as Hs'.
  apply LPERC20_burn_inv in Hburn as (_ & _ & _ & Hle & Hown' & Hsup & _).
  match goal with H : checked_sub (lpTokensMinted _) _ = Ok _ |- _ =>
    apply checked_sub_Ok in H as [-> Hle'] end.
  match goal with |- pool_wf _ _ _ (if ?c then _ else _) => destruct c end;
    (eapply pool_wf_update;
     [exact Hwf | reflexivity.. | exact Hown' | exact Hs' | | exact Hapy];
     simpl; rewrite Hsup, Hm;
     match goal with |- context [set_staker ?u ?st ?p] =>
       pose proof (mintedOfPool_set_staker u st p) as E end;
     unfold mintedOfPool in *; simpl in *; lia).
Qed.

Hint Resolve maintains_executeOriginalFallbackPay : maintains.

Lemma maintains_peer_getStake a u : maintains fa F D (peer_getStake a u) (fun _ => True).
Proof. unfold peer_getStake. hold. Qed.

Lemma maintains_peer_getCollateralAvailable a u :
  maintains fa F D (peer_getCollateralAvailable a u) (fun _ => True).
Proof. unfold peer_getCollateralAvailable. hold. Qed.

Lemma maintains_peer_totalLiquidity a :
  maintains fa F D (peer_totalLiquidity a) (fun _ => True).
Proof. unfold peer_totalLiquidity. hold. Qed.

Lemma maintains_peer_getStakedAmount a u :
  maintains fa F D (peer_getStakedAmount a u) (fun _ => True).
Proof. unfold peer_getStakedAmount. hold. Qed.

Hint Resolve maintains_peer_getStake maintains_peer_getCollateralAvailable
  maintains_peer_totalLiquidity maintains_peer_getStakedAmount
  maintains_transferLiquidityToPool maintains_contributeLiquidityForPayment : maintains.

Lemma maintains_getTotalCollateral_loop this u allPools acc :
  maintains fa F D (getTotalCollateral_loop this u allPools acc) (fun _ => True).
Proof.
  revert acc. induction allPools as [|a rest IH]; intros acc; simpl.
  - hold.
  - hold; apply IH.
Qed.

Lemma maintains_redistribute_loop this u allPools needed got :
  maintains fa F D (redistribute_loop this u allPools needed got) (fun _ => True).
Proof.
  revert needed got. induction allPools as [|a rest IH]; intros needed got; simpl.
  - hold.
  - hold; apply IH.
Qed.

Lemma maintains_addLiquidity_loop this u allPools needed got :
  maintains fa F D (addLiquidity_loop this u allPools needed got) (fun _ => True).
Proof.
  revert needed got. induction allPools as [|a rest IH]; intros needed got; simpl.
  - hold.
  - hold; apply IH.
Qed.

Hint Resolve maintains_getTotalCollateral_loop maintains_redistribute_loop
  maintains_addLiquidity_loop : maintains.

Lemma maintains_getTotalCollateralAcrossPools this u :
  maintains fa F D (getTotalCollateralAcrossPools this u) (fun _ => True).
Proof. unfold getTotalCollateralAcrossPools. hold. Qed.

Lemma maintains_redistributeFundsFromPools this u required available :
  maintains fa F D (redistributeFundsFromPools this u required available) (fun _ => True).
Proof. unfold redistributeFundsFromPools. hold. Qed.

Lemma maintains_addLiquidityFromNewPools this u required available :
  maintains fa F D (addLiquidityFromNewPools this u required available) (fun _ => True).
Proof. unfold addLiquidityFromNewPools. hold. Qed.

Hint Resolve maintains_getTotalCollateralAcrossPools maintains_redistributeFundsFromPools
  maintains_addLiquidityFromNewPools : maintains.

Lemma maintains_fallbackPay this sender now merchant v :
  maintains fa F D (fallbackPay this sender now merchant v) (fun _ => True).
Proof. unfold fallbackPay. hold. Qed.

Lemma maintains_lpToken_call pool o :
  op_sender o ∉ D -> maintains fa F D (lpToken_call pool o) (fun _ => True).
Proof.
  intros Hout. unfold lpToken_call. hold. cbv beta in *.
  match goal with H : pool_wf _ _ _ ?p /\ _ |- _ => destruct H as [Hwf Hin] end.
  split; [|exact Hin].
  destruct (pool_wf_minted _ _ _ _ Hwf) as (Hown & Hs & Hm & Hapy).
  match goal with H : LPERC20.call _ _ = Ok _ |- _ => rename H into Hcall end.
  pose proof (ledger_sound_call _ _ _ Hcall Hs) as Hs'.
  apply LPERC20_call_outsider in Hcall as [Hsup Hown']; [|rewrite Hown; congruence].
  eapply pool_wf_update; [exact Hwf | reflexivity.. | exact Hown' | exact Hs' | | exact Hapy].
  simpl. rewrite Hsup. exact Hm.
Qed.

Lemma maintains_factory_onlyOwner sender :
  maintains fa F D (factory_onlyOwner sender) (fun _ => True).
Proof.
  intros w a w' Hw H. unfold factory_onlyOwner in H.
  destruct (sender =? _); inversion H; subst. auto.
Qed.

Lemma maintains_factory_poolFound a :
  maintains fa F D (factory_poolFound a) (fun _ => True).
Proof.
  unfold factory_poolFound. eapply maintains_bind; [apply maintains_require|].
  intros _ _ w r w' Hw H.
  destruct (PoolFactory.poolToRegion (factory w) !! a) as [r0|]; [|discriminate].
  destruct (String.eqb r0 ""); inversion H; subst. auto.
Qed.

Lemma maintains_togglePoolStatus sender a :
  maintains fa F D (togglePoolStatus sender a) (fun _ => True).
Proof.
  unfold togglePoolStatus.
  eapply maintains_bind; [apply maintains_factory_onlyOwner|]. intros _ _.
  eapply maintains_bind; [apply maintains_factory_poolFound|]. intros _ _.
  intros w r w' Hw H.
  exact (maintains_call a _ _ (maintains_toggleStatus a (factoryAddress w)) w r w' Hw H).
Qed.

Lemma maintains_addRewardsToPool sender a amount :
  maintains fa F D (addRewardsToPool sender a amount) (fun _ => True).
Proof.
  unfold addRewardsToPool.
  eapply maintains_bind; [apply maintains_factory_onlyOwner|]. intros _ _.
  eapply maintains_bind; [apply maintains_factory_poolFound|]. intros _ _.
  eapply maintains_bind; [apply maintains_require|]. intros _ _.
  intros w r w' Hw H. apply bind_Ok in H as (ok & w1 & H1 & H2).
  destruct (maintains_stakingToken_transferFrom _ _ _ _ _ _ _ Hw H1) as [Hw1 _].
  exact (maintains_call a _ _ (maintains_addRewardsToPot a (factoryAddress w) amount)
           w1 r w' Hw1 H2).
Qed.

(** Every call other than the two that change the factory's storage. *)
Lemma maintains_exec sender now a :
  sender ∉ D ->
  match a with CallCreatePool _ _ | CallTransferOwnership _ => False | _ => True end ->
  maintains fa F D (exec sender now a) (fun _ => True).
Proof.
  intros Hout Ha. destruct a; simpl; try contradiction;
    first [ apply maintains_lpToken_call; exact Hout
          | apply maintains_togglePoolStatus
          | apply maintains_addRewardsToPool
          | apply maintains_call ];
    auto using maintains_stake, maintains_unstake, maintains_fallbackPay, maintains_repayDebt,
      maintains_transferLiquidityToPool, maintains_contributeLiquidityForPayment,
      maintains_receiveLiquidity, maintains_toggleStatus, maintains_setStatus,
      maintains_setApy, maintains_addRewardsToPot, maintains_distributeRewards,
      maintains_emergencyWithdraw.
Qed.

End Maintained.

(** ** Every reachable world is well formed *)

Lemma world_wf_steady w :
  world_wf w -> steady (factoryAddress w) (factory w) (dom (pools w)) w.
Proof. intros [_ H]. split; [reflexivity|]. split; [reflexivity|]. split; [reflexivity|exact H]. Qed.

Lemma steady_world_wf w w' :
  registry_wf w ->
  steady (factoryAddress w) (factory w) (dom (pools w)) w' ->
  world_wf w'.
Proof.
  intros [Hnd Hreg] (Hfa & HF & HD & Hp). split.
  - unfold registry_wf. rewrite HF. split; [exact Hnd|]. intros a. rewrite Hreg.
    rewrite <- !elem_of_dom, HD. reflexivity.
  - rewrite Hfa, HF. exact Hp.
Qed.

Lemma pool_wf_register fa F a r b p :
  pool_wf fa F b p -> b <> a -> r ∉ PoolFactory.regionExists F ->
  pool_wf fa (PoolFactory.register a r F) b p.
Proof.
  intros (H1 & H2 & H3 & H4 & H5 & H6 & H7 & H8 & H9 & H10 & H11 & H12) Hne Hr.
  assert (regionName p <> r) by (intros E; rewrite E in H8; contradiction).
  unfold pool_wf. simpl.
  rewrite lookup_insert_ne by congruence. rewrite lookup_insert_ne by congruence.
  repeat (split; [assumption|]). split; [|auto].
  apply elem_of_union_r. exact H8.
Qed.

Lemma pool_wf_constructor fa F a r :
  a <> 0 -> a <> fa -> PoolFactory.owner F <> fa -> r <> "" ->
  pool_wf fa (PoolFactory.register a r F) a
    (LiquidityPool_constructor a r (PoolFactory.owner F) fa).
Proof.
  intros H1 H2 H3 H4. unfold pool_wf. simpl.
  rewrite !lookup_insert_eq.
  repeat (split; [first [assumption | reflexivity]|]).
  split; [apply elem_of_union_l, elem_of_singleton; reflexivity|].
  split; [reflexivity|]. split; [apply ledger_sound_constructor|].
  split; [|lia]. unfold mintedOfPool. simpl. rewrite fmap_empty.
  symmetry. apply sum_values_empty.
Qed.

Lemma world_wf_createPool sender r a w w' :
  world_wf w -> is_account w sender ->
  createPool sender r a w = Ok (tt, w') ->
  world_wf w'.
Proof.
  intros [[Hnd Hreg] Hp] (_ & Hsf & _) H. unfold createPool in H.
  apply bind_Ok in H as ([] & w1 & Hown & H).
  unfold factory_onlyOwner in Hown.
  destruct (N.eqb_spec sender (PoolFactory.owner (factory w))) as [Es|]; [|discriminate].
  inversion Hown; subst w1; clear Hown.
  apply bind_Ok in H as ([] & w1 & Hreq & H). apply require_Ok in Hreq as [Hr ->].
  destruct (bool_decide_reflect (r ∈ PoolFactory.regionExists (factory w))) as [|Hnew];
    [discriminate|].
  destruct (N.eqb_spec a 0) as [|Ha0]; [discriminate|].
  destruct (N.eqb_spec a (factoryAddress w)) as [|Haf]; [discriminate|].
  destruct (bool_decide_reflect (is_Some (pools w !! a))) as [|Hfree]; [discriminate|].
  simpl in H. inversion H; subst w'; clear H.
  assert (Hr' : r <> "").
  { intros ->. discriminate. }
  assert (Hnone : pools w !! a = None).
  { destruct (pools w !! a) eqn:E; [exfalso; apply Hfree; eauto | reflexivity]. }
  split.
  - split; simpl.
    + apply NoDup_app. split; [exact Hnd|]. split; [|apply NoDup_singleton].
      intros x Hx Hx'. apply list_elem_of_singleton in Hx'. subst x.
      apply Hreg in Hx. apply Hfree, Hx.
    + intros b. rewrite elem_of_app, list_elem_of_singleton, Hreg.
      destruct (decide (b = a)) as [->|Hne].
      * rewrite lookup_insert_eq. split; eauto.
      * rewrite lookup_insert_ne by congruence. split; [intros [?|?]; [auto | contradiction] | auto].
  - simpl. intros b p Hb. destruct (decide (b = a)) as [->|Hne].
    + rewrite lookup_insert_eq in Hb. inversion Hb; subst p.
      apply pool_wf_constructor; auto. congruence.
    + rewrite lookup_insert_ne in Hb by congruence.
      apply pool_wf_register; auto.
Qed.

Lemma world_wf_transferOwnership sender newOwner w w' :
  world_wf w ->
  transferOwnership sender newOwner w = Ok (tt, w') ->
  world_wf w'.
Proof.
  intros [Hreg Hp] H. unfold transferOwnership in H.
  apply bind_Ok in H as ([] & w1 & Hown & H).
  unfold factory_onlyOwner in Hown. destruct (sender =? _); [|discriminate].
  inversion Hown; subst w1; clear Hown.
  apply bind_Ok in H as ([] & w1 & Hreq & H). apply require_Ok in Hreq as [_ ->].
  inversion H; subst w'; clear H. split; [exact Hreg|]. exact Hp.
Qed.

Lemma world_wf_transact w sender now a :
  world_wf w -> is_account w sender -> world_wf (fst (transact w sender now a)).
Proof.
  intros Hw Hs. unfold transact.
  destruct (exec sender now a w) as [[[] w']|f] eqn:E; [simpl | exact Hw].
  destruct a;
    try (eapply steady_world_wf; [exact (proj1 Hw)|];
         match type of E with exec _ _ ?act _ = _ =>
           refine (proj1 (maintains_exec _ _ _ sender now act _ I w tt w'
                            (world_wf_steady w Hw) E))
         end;
         destruct Hs as (_ & _ & Hnone); now apply not_elem_of_dom).
  - exact (world_wf_createPool _ _ _ _ _ Hw Hs E).
  - exact (world_wf_transferOwnership _ _ _ _ Hw E).
Qed.

Lemma reachable_world_wf w : reachable w -> world_wf w.
Proof.
  induction 1 as [t fa dep _ | w sender now a _ IH Hs | w t _ IH].
  - split.
    + split; simpl; [apply NoDup_nil_2|]. intros a. rewrite lookup_empty.
      split; [intros H; now apply elem_of_nil in H | intros [? ?]; discriminate].
    + intros a p. simpl. rewrite lookup_empty. discriminate.
  - now apply world_wf_transact.
  - exact IH.
Qed.

Lemma onlyFactoryOwner_Ok this sender w u w' :
  onlyFactoryOwner this sender w = Ok (u, w') ->
  w' = w /\ exists p, pools w !! this = Some p /\ sender = factoryOwner p.
Proof.
  unfold onlyFactoryOwner. intros H. inv_M H.
  split; [reflexivity|]. eexists. split; [eassumption|]. now apply N.eqb_eq.
Qed.

Lemma factory_poolFound_Ok a w u w' :
  factory_poolFound a w = Ok (u, w') -> w' = w /\ a <> 0.
Proof.
  unfold factory_poolFound. intros H.
  apply bind_Ok in H as ([] & w1 & Hreq & H). apply require_Ok in Hreq as [Ha ->].
  destruct (PoolFactory.poolToRegion (factory w) !! a) as [r|]; [|discriminate].
  destruct (String.eqb r ""); inversion H; subst.
  split; [reflexivity|]. intros ->. discriminate.
Qed.

Lemma factory_onlyOwner_Ok sender w u w' :
  factory_onlyOwner sender w = Ok (u, w') -> w' = w /\ sender = PoolFactory.owner (factory w).
Proof.
  unfold factory_onlyOwner. intros H.
  destruct (N.eqb_spec sender (PoolFactory.owner (factory w))); inversion H; subst; auto.
Qed.

(** ** The registry of the factory *)

Lemma registry_length (l : list address) (m : gmap address LiquidityPool) :
  NoDup l -> (forall a, a ∈ l <-> is_Some (m !! a)) -> length l = size m.
Proof.
  intros Hnd Hl. rewrite <- size_dom, <- (size_list_to_set (C := gset address) l Hnd).
  f_equal. apply set_eq. intros a. rewrite elem_of_list_to_set, elem_of_dom. apply Hl.
Qed.

(** X7. In every reachable world the factory's registry lists exactly the
    deployed pools, each once, [getPoolCount] is their number, and every
    pool's [poolFactory] is the factory. *)
Theorem registry_lists_pools w :
  reachable w ->
  NoDup (PoolFactory.getPools (factory w)) /\
  (forall a, a ∈ PoolFactory.getPools (factory w) <-> is_Some (pools w !! a)) /\
  PoolFactory.getPoolCount (factory w) = N.of_nat (size (pools w)) /\
  (forall a p, pools w !! a = Some p -> poolFactory p = factoryAddress w).
Proof.
  intros Hw. destruct (reachable_world_wf w Hw) as [[Hnd Hreg] Hwf].
  split; [exact Hnd|]. split; [exact Hreg|]. split.
  - unfold PoolFactory.getPoolCount. f_equal. now apply registry_length.
  - intros a p Hp. now destruct (Hwf a p Hp) as (_ & _ & Hf & _).
Qed.

(** X8. Looking a pool up by its region gives back the pool: in every
    reachable world, each deployed pool has a non-empty region name, the
    factory records that name for the pool's address, and
    [getPoolByRegion] of that name returns the address. *)
Theorem getPoolByRegion_round_trip w a p :
  reachable w ->
  pools w !! a = Some p ->
  regionName p <> "" /\
  PoolFactory.poolToRegion (factory w) !! a = Some (regionName p) /\
  getPoolByRegion (factory w) (regionName p) = Ok a.
Proof.
  intros Hw Hp. destruct (reachable_world_wf w Hw) as [_ Hwf].
  destruct (Hwf a p Hp) as (_ & _ & _ & _ & Hr & Hpr & Hrp & Hex & _).
  split; [exact Hr|]. split; [exact Hpr|].
  unfold getPoolByRegion. rewrite bool_decide_eq_true_2 by exact Hex.
  now rewrite Hrp.
Qed.

(** X9. No two pools of a reachable world serve the same region. *)
Theorem region_names_unique w a b p q :
  reachable w ->
  pools w !! a = Some p ->
  pools w !! b = Some q ->
  a <> b ->
  regionName p <> regionName q.
Proof.
  intros Hw Hp Hq Hne E. destruct (reachable_world_wf w Hw) as [_ Hwf].
  destruct (Hwf a p Hp) as (_ & _ & _ & _ & _ & _ & Hrp & _).
  destruct (Hwf b q Hq) as (_ & _ & _ & _ & _ & _ & Hrq & _).
  rewrite E in Hrp. congruence.
Qed.

Lemma minted_le_pool p u : lpTokensMinted (getStake p u) <= mintedOfPool p.
Proof.
  unfold mintedOfPool, getStake.
  pose proof (sum_values_lookup_le (lpTokensMinted <$> stakers p) u) as H.
  rewrite lookup_fmap in H. destruct (stakers p !! u); simpl in *; [exact H | lia].
Qed.

(** X10. In every reachable world the LP token of a pool is owned by the
    pool, and its supply is the sum of the [lpTokensMinted] of the pool's
    stake records; so no record holds more shares than the supply. *)
Theorem lpToken_supply_recorded w a p :
  reachable w ->
  pools w !! a = Some p ->
  LPERC20.owner (lpToken p) = a /\
  LPERC20.totalSupply (lpToken p) = mintedOfPool p /\
  LPERC20.totalSupply (lpToken p) <= MAX_UINT256 /\
  forall u, lpTokensMinted (getStake p u) <= LPERC20.totalSupply (lpToken p).
Proof.
  intros Hw Hp. destruct (reachable_world_wf w Hw) as [_ Hwf].
  destruct (pool_wf_minted _ _ _ _ (Hwf a p Hp)) as (Hown & [_ Hmax] & Hm & _).
  unfold LPERC20.totalSupply. split; [exact Hown|]. split; [exact Hm|].
  split; [exact Hmax|]. intros u. rewrite Hm. apply minted_le_pool.
Qed.

(** X11. The yield rate of a pool never exceeds 50%% in a reachable world. *)
Theorem apy_bounded w a p :
  reachable w -> pools w !! a = Some p -> apyBasisPoints p <= 5000.
Proof.
  intros Hw Hp. destruct (reachable_world_wf w Hw) as [_ Hwf].
  now destruct (pool_wf_minted _ _ _ _ (Hwf a p Hp)) as (_ & _ & _ & H).
Qed.

(** X12. The factory's [togglePoolStatus] and [addRewardsToPool] never
    succeed in a reachable world: the pool sees the factory as the caller,
    and its [factoryOwner] is the account that owned the factory when the
    pool was created.  Called by the owner on a deployed pool,
    [togglePoolStatus] reverts with the pool's own message. *)
Theorem factory_pool_admin_fails w sender a amount :
  reachable w ->
  (forall r, togglePoolStatus sender a w <> Ok r) /\
  (forall r, addRewardsToPool sender a amount w <> Ok r) /\
  (sender = PoolFactory.owner (factory w) -> is_Some (pools w !! a) ->
   togglePoolStatus sender a w = Reverted (ErrorString "Not factory owner")).
Proof.
  intros Hw. destruct (reachable_world_wf w Hw) as [_ Hwf].
  assert (Hno : forall w1 r, pools w1 = pools w ->
            onlyFactoryOwner a (factoryAddress w) w1 <> Ok r).
  { intros w1 [u w2] Hpools H. apply onlyFactoryOwner_Ok in H as (_ & p & Hp & Hfo).
    rewrite Hpools in Hp. destruct (Hwf a p Hp) as (_ & _ & _ & Hne & _). congruence. }
  split; [|split].
  - intros [[] w'] H. unfold togglePoolStatus in H.
    apply bind_Ok in H as ([] & w1 & H1 & H). apply factory_onlyOwner_Ok in H1 as [-> _].
    apply bind_Ok in H as ([] & w1 & H1 & H). apply factory_poolFound_Ok in H1 as [-> _].
    apply call_Ok in H as [_ H]. unfold toggleStatus in H.
    apply bind_Ok in H as ([] & w1 & H1 & _). now apply (Hno w _ eq_refl) in H1.
  - intros [[] w'] H. unfold addRewardsToPool in H.
    apply bind_Ok in H as ([] & w1 & H1 & H). apply factory_onlyOwner_Ok in H1 as [-> _].
    apply bind_Ok in H as ([] & w1 & H1 & H). apply factory_poolFound_Ok in H1 as [-> _].
    apply bind_Ok in H as ([] & w1 & H1 & H). apply require_Ok in H1 as [_ ->].
    apply bind_Ok in H as (ok & w1 & H1 & H).
    unfold stakingToken_transferFrom in H1.
    destruct (token_transferFrom _ _ _ _ _) as [[b t]|]; [|discriminate].
    inversion H1; subst; clear H1.
    apply call_Ok in H as [_ H]. unfold addRewardsToPot in H.
    apply bind_Ok in H as ([] & w1 & H1 & _). exact (Hno (set_token t w) _ eq_refl H1).
  - intros -> [p Hp].
    destruct (Hwf a p Hp) as (Ha0 & _ & _ & Hne & Hr & Hpr & _).
    unfold togglePoolStatus, bind, factory_onlyOwner. rewrite N.eqb_refl.
    unfold factory_poolFound, bind, require, ret.
    destruct (N.eqb_spec a 0) as [|_]; [contradiction|]. simpl.
    rewrite Hpr. destruct (String.eqb_spec (regionName p) "") as [|_]; [contradiction|].
    unfold call. rewrite Hp.
    unfold toggleStatus, onlyFactoryOwner, bind, sload. rewrite Hp.
    destruct (N.eqb_spec (factoryAddress w) (factoryOwner p)) as [E|_]; [congruence|].
    reflexivity.
Qed.

(** ** Liquidity moving between pools *)

Lemma same_but_liquidity_refl w : same_but_liquidity w w.
Proof. split; [reflexivity|]. split; [reflexivity|]. reflexivity. Qed.

Lemma same_but_liquidity_trans w1 w2 w3 :
  same_but_liquidity w1 w2 -> same_but_liquidity w2 w3 -> same_but_liquidity w1 w3.
Proof.
  intros (A1 & B1 & C1) (A2 & B2 & C2).
  split; [congruence|]. split; [congruence|]. intros a. now rewrite C2, C1.
Qed.

Lemma liquidity_moved_refl w : liquidity_moved w w.
Proof. split; [apply same_but_liquidity_refl | reflexivity]. Qed.

Lemma liquidity_moved_trans w1 w2 w3 :
  liquidity_moved w1 w2 -> liquidity_moved w2 w3 -> liquidity_moved w1 w3.
Proof.
  intros [S1 T1] [S2 T2].
  split; [eapply same_but_liquidity_trans; eauto | congruence].
Qed.

Lemma set_totalLiquidityStaked_twice v v' p :
  set_totalLiquidityStaked v (set_totalLiquidityStaked v' p) = set_totalLiquidityStaked v p.
Proof. reflexivity. Qed.

(** Writing one pool's liquidity counter. *)
Lemma liquidity_set a p v t w :
  pools w !! a = Some p ->
  let w' := set_pool a (set_totalLiquidityStaked v p) (set_token t w) in
  same_but_liquidity w w' /\
  totalLiquidityAll w' + totalLiquidityStaked p = totalLiquidityAll w + v /\
  forall b, liquidityOf w' b = if decide (b = a) then v else liquidityOf w b.
Proof.
  intros Hp w'. split; [|split].
  - split; [reflexivity|]. split; [reflexivity|]. intros b. subst w'. simpl.
    destruct (decide (a = b)) as [->|Hne].
    + rewrite lookup_insert_eq, Hp. reflexivity.
    + rewrite lookup_insert_ne by exact Hne. reflexivity.
  - unfold totalLiquidityAll. subst w'. simpl. rewrite fmap_insert.
    pose proof (sum_values_insert (totalLiquidityStaked <$> pools w) a v) as E.
    rewrite lookup_fmap, Hp in E. simpl in *. lia.
  - intros b. unfold liquidityOf. subst w'. simpl.
    destruct (decide (b = a)) as [->|Hne].
    + rewrite lookup_insert_eq. reflexivity.
    + rewrite lookup_insert_ne by congruence. reflexivity.
Qed.

Lemma receiveLiquidity_Ok this sender amount w u w' :
  receiveLiquidity this sender amount w = Ok (u, w') ->
  exists p, pools w !! this = Some p /\
            sender <> 0 /\
            isValidPool_receive (PoolFactory.getPools (factory w)) sender = true /\
            totalLiquidityStaked p + amount <= MAX_UINT256 /\
            w' = set_pool this
                   (set_totalLiquidityStaked (totalLiquidityStaked p + amount) p) w.
Proof.
  unfold receiveLiquidity. intros H. inv_M H.
  match goal with H : checked_add _ _ = Ok _ |- _ => apply checked_add_Ok in H as [-> Hfit] end.
  eexists. split; [eassumption|].
  split; [intros ->; discriminate|]. split; [assumption|]. split; [exact Hfit | reflexivity].
Qed.

(** What [transferLiquidityToPool] and [contributeLiquidityForPayment] end
    with: pay the target, lower the own counter, have the target raise its
    own. *)
Lemma liquidity_handover this target amount p msg w u w' :
  pools w !! this = Some p ->
  bind (stakingToken_transfer this target amount) (fun ok =>
  bind (require ok msg) (fun _ =>
  bind (lift (checked_sub (totalLiquidityStaked p) amount)) (fun liquidity' =>
  bind (sstore this (set_totalLiquidityStaked liquidity' p)) (fun _ =>
  call target (receiveLiquidity target this amount))))) w = Ok (u, w') ->
  amount <= totalLiquidityStaked p /\
  isValidPool_receive (PoolFactory.getPools (factory w)) this = true /\
  liquidity_moved w w' /\
  forall a, liquidityOf w' a
            = (if decide (a = target) then amount else 0)
              + (liquidityOf w a - (if decide (a = this) then amount else 0)).
Proof.
  intros Hp H.
  apply bind_Ok in H as (ok & w1 & Htok & H).
  unfold stakingToken_transfer in Htok.
  destruct (token_transfer this target amount (token w)) as [[b t]|]; [|discriminate].
  inversion Htok; subst b w1; clear Htok.
  inv_M H.
  match goal with H : checked_sub _ _ = Ok _ |- _ => apply checked_sub_Ok in H as [-> Hle] end.
  match goal with H : call _ _ _ = Ok _ |- _ => apply call_Ok in H as [_ H];
    apply receiveLiquidity_Ok in H as (q & Hq & _ & Hvalid & Hfit & ->) end.
  destruct (liquidity_set this p (totalLiquidityStaked p - amount) t w Hp) as (S1 & T1 & L1).
  set (w1 := set_pool this (set_totalLiquidityStaked (totalLiquidityStaked p - amount) p)
               (set_token t w)) in *.
  destruct (liquidity_set target q (totalLiquidityStaked q + amount) (token w1) w1 Hq)
    as (S2 & T2 & L2).
  change (set_token (token w1) w1) with w1 in *.
  split; [exact Hle|]. split; [exact Hvalid|]. split; [split|].
  - eapply same_but_liquidity_trans; eauto.
  - lia.
  - intros x. rewrite L2, L1.
    assert (Hq' : liquidityOf w1 target = totalLiquidityStaked q).
    { unfold liquidityOf. now rewrite Hq. }
    assert (Hp' : liquidityOf w this = totalLiquidityStaked p).
    { unfold liquidityOf. now rewrite Hp. }
    rewrite L1 in Hq'.
    destruct (decide (x = target)) as [->|Ht]; destruct (decide (target = this)) as [->|Hne];
      repeat match goal with
             | |- context [decide (?x = ?y)] => destruct (decide (x = y)); try congruence
             | H : context [decide (?x = ?y)] |- _ => destruct (decide (x = y)); try congruence
             end; subst; lia.
Qed.

Lemma transferLiquidityToPool_Ok this sender target user amount w u w' :
  transferLiquidityToPool this sender target user amount w = Ok (u, w') ->
  0 < amount /\ amount <= liquidityOf w this /\
  isValidPool_transfer (PoolFactory.getPools (factory w)) sender target = true /\
  isValidPool_receive (PoolFactory.getPools (factory w)) this = true /\
  liquidity_moved w w' /\
  forall a, liquidityOf w' a
            = (if decide (a = target) then amount else 0)
              + (liquidityOf w a - (if decide (a = this) then amount else 0)).
Proof.
  unfold transferLiquidityToPool. intros H.
  do 6 (let Hs := fresh "Hs" in apply bind_Ok in H as (? & ? & Hs & H); inv_step Hs).
  eapply liquidity_handover in H as (Hle & Hv & Hm & HL); [|eassumption].
  split; [now apply N.ltb_lt|]. split.
  { unfold liquidityOf. match goal with H : pools _ !! this = Some _ |- _ => rewrite H end.
    exact Hle. }
  auto.
Qed.

Lemma contributeLiquidityForPayment_Ok this sender target user amount w u w' :
  contributeLiquidityForPayment this sender target user amount w = Ok (u, w') ->
  0 < amount /\ amount <= liquidityOf w this /\
  (exists p, pools w !! this = Some p /\
             amount <= stakedAmount (getStake p user) * COLLATERAL_PERCENTAGE_BP
                       / BASIS_POINTS) /\
  isValidPool_transfer (PoolFactory.getPools (factory w)) sender target = true /\
  isValidPool_receive (PoolFactory.getPools (factory w)) this = true /\
  liquidity_moved w w' /\
  forall a, liquidityOf w' a
            = (if decide (a = target) then amount else 0)
              + (liquidityOf w a - (if decide (a = this) then amount else 0)).
Proof.
  unfold contributeLiquidityForPayment. intros H. cbv zeta in H.
  do 9 (let Hs := fresh "Hs" in apply bind_Ok in H as (? & ? & Hs & H); inv_step Hs).
  eapply liquidity_handover in H as (Hle & Hv & Hm & HL); [|eassumption].
  split; [now apply N.ltb_lt|]. split.
  { unfold liquidityOf. match goal with H : pools _ !! this = Some _ |- _ => rewrite H end.
    exact Hle. }
  split.
  { eexists. split; [eassumption|].
    repeat match goal with
    | H : checked_mul _ _ = Ok _ |- _ => apply checked_mul_Ok in H as [-> _]
    | H : checked_div _ _ = Ok _ |- _ => apply checked_div_Ok in H as [-> _]
    end. now apply N.leb_le. }
  auto.
Qed.

Lemma peer_getCollateralAvailable_Ok a u w c w' :
  peer_getCollateralAvailable a u w = Ok (c, w') -> w' = w.
Proof. unfold peer_getCollateralAvailable. intros H. inv_M H. reflexivity. Qed.

Lemma peer_totalLiquidity_Ok a w c w' : peer_totalLiquidity a w = Ok (c, w') -> w' = w.
Proof. unfold peer_totalLiquidity. intros H. inv_M H. reflexivity. Qed.

Lemma peer_getStakedAmount_Ok a u w c w' :
  peer_getStakedAmount a u w = Ok (c, w') -> w' = w.
Proof. unfold peer_getStakedAmount. intros H. inv_M H. reflexivity. Qed.

Lemma try_view_Ok {A} a (view : M A) w r w' :
  (forall x w1, view w = Ok (x, w1) -> w1 = w) ->
  try_call a view w = Ok (r, w') -> w' = w.
Proof.
  intros Hv H. apply try_call_Ok in H as [_ H]. destruct r; [eauto | tauto].
Qed.

(** Phase 2 never gathers more than what is still needed. *)
Lemma addLiquidity_loop_bounds this u allPools needed got w r w' :
  addLiquidity_loop this u allPools needed got w = Ok (r, w') ->
  got <= r /\ r <= got + needed.
Proof.
  revert needed got w.
  induction allPools as [|a rest IH]; intros needed got w H; simpl in H.
  - apply ret_Ok in H as [-> _]. lia.
  - destruct (needed =? 0); [apply ret_Ok in H as [-> _]; lia|].
    destruct (a =? this); [now apply IH in H|].
    apply bind_Ok in H as ([st|] & w1 & _ & H); [|now apply IH in H].
    apply bind_Ok in H as (x & w2 & _ & H).
    apply bind_Ok in H as (uc & w3 & _ & H). cbv zeta in H.
    apply bind_Ok in H as ([pl|] & w4 & _ & H); [|now apply IH in H].
    set (take := if needed <? uc then needed else uc) in *.
    assert (Htake : take <= needed).
    { subst take. destruct (N.ltb_spec needed uc); lia. }
    destruct ((0 <? take) && (take <=? pl)); [|now apply IH in H].
    apply bind_Ok in H as ([[]|] & w5 & _ & H); [|now apply IH in H].
    apply bind_Ok in H as (got' & w6 & Hadd & H). inv_step Hadd.
    apply bind_Ok in H as (needed' & w7 & Hsub & H). inv_step Hsub.
    apply checked_add_Ok in Hadd as [-> _]. apply checked_sub_Ok in Hsub as [-> _].
    apply IH in H. lia.
Qed.

(** Phase 1 moves liquidity to the paying pool and nothing else: what it
    reports as gathered is what the pool's counter grew by. *)
Lemma redistribute_loop_liquidity this u allPools needed got w r w' :
  redistribute_loop this u allPools needed got w = Ok (r, w') ->
  liquidity_moved w w' /\ liquidityOf w' this = liquidityOf w this + (r - got) /\
  forall b, b <> this -> liquidityOf w' b <= liquidityOf w b.
Proof.
  revert needed got w.
  induction allPools as [|a rest IH]; intros needed got w H; simpl in H.
  - apply ret_Ok in H as [-> ->].
    split; [apply liquidity_moved_refl|]. split; [lia | reflexivity].
  - destruct (needed =? 0);
      [apply ret_Ok in H as [-> ->];
       split; [apply liquidity_moved_refl|]; split; [lia | reflexivity]|].
    destruct (N.eqb_spec a this) as [|Hne]; [now apply IH in H|].
    apply bind_Ok in H as ([pc|] & w1 & H1 & H);
      apply try_view_Ok in H1; try (intros; eapply peer_getCollateralAvailable_Ok; eauto);
      subst w1; [|now apply IH in H].
    apply bind_Ok in H as ([pl|] & w1 & H1 & H);
      apply try_view_Ok in H1; try (intros; eapply peer_totalLiquidity_Ok; eauto);
      subst w1; [|now apply IH in H].
    set (take := if needed <? pc then needed else pc) in *.
    destruct ((take <=? pl) && (0 <? take)); [|now apply IH in H].
    apply bind_Ok in H as ([[]|] & w3 & H3 & H).
    + apply try_call_Ok in H3 as [_ H3].
      apply transferLiquidityToPool_Ok in H3 as (_ & _ & _ & _ & Hm & HL).
      apply bind_Ok in H as (got' & w4 & Hadd & H). inv_step Hadd.
      apply bind_Ok in H as (needed' & w5 & Hsub & H). inv_step Hsub.
      apply checked_add_Ok in Hadd as [-> _]. apply checked_sub_Ok in Hsub as [-> _].
      pose proof (redistribute_loop_bounds _ _ _ _ _ _ _ _ H) as [Hge _].
      apply IH in H as (Hm' & HL' & Hpeers). split; [eapply liquidity_moved_trans; eauto|].
      split.
      * rewrite HL', HL.
        destruct (decide (this = this)); [|contradiction].
        destruct (decide (this = a)); [congruence|]. lia.
      * intros b Hb. etransitivity; [apply Hpeers, Hb|]. rewrite HL.
        destruct (decide (b = this)); [contradiction|]. lia.
    + apply try_call_Ok in H3 as [_ [-> _]]. now apply IH in H.
Qed.

Lemma addLiquidity_loop_liquidity this u allPools needed got w r w' :
  addLiquidity_loop this u allPools needed got w = Ok (r, w') ->
  liquidity_moved w w' /\ liquidityOf w' this = liquidityOf w this + (r - got) /\
  forall b, b <> this -> liquidityOf w' b <= liquidityOf w b.
Proof.
  revert needed got w.
  induction allPools as [|a rest IH]; intros needed got w H; simpl in H.
  - apply ret_Ok in H as [-> ->].
    split; [apply liquidity_moved_refl|]. split; [lia | reflexivity].
  - destruct (needed =? 0);
      [apply ret_Ok in H as [-> ->];
       split; [apply liquidity_moved_refl|]; split; [lia | reflexivity]|].
    destruct (N.eqb_spec a this) as [|Hne]; [now apply IH in H|].
    apply bind_Ok in H as ([st|] & w1 & H1 & H);
      apply try_view_Ok in H1; try (intros; eapply peer_getStakedAmount_Ok; eauto);
      subst w1; [|now apply IH in H].
    apply bind_Ok in H as (x & w1 & Hx & H). inv_step Hx.
    apply bind_Ok in H as (uc & w1 & Huc & H). inv_step Huc. cbv zeta in H.
    apply bind_Ok in H as ([pl|] & w1 & H1 & H);
      apply try_view_Ok in H1; try (intros; eapply peer_totalLiquidity_Ok; eauto);
      subst w1; [|now apply IH in H].
    set (take := if needed <? uc then needed else uc) in *.
    destruct ((0 <? take) && (take <=? pl)); [|now apply IH in H].
    apply bind_Ok in H as ([[]|] & w3 & H3 & H).
    + apply try_call_Ok in H3 as [_ H3].
      apply contributeLiquidityForPayment_Ok in H3 as (_ & _ & _ & _ & _ & Hm & HL).
      apply bind_Ok in H as (got' & w4 & Hadd & H). inv_step Hadd.
      apply bind_Ok in H as (needed' & w5 & Hsub & H). inv_step Hsub.
      apply checked_add_Ok in Hadd as [-> _]. apply checked_sub_Ok in Hsub as [-> _].
      pose proof (addLiquidity_loop_bounds _ _ _ _ _ _ _ _ H) as [Hge _].
      apply IH in H as (Hm' & HL' & Hpeers). split; [eapply liquidity_moved_trans; eauto|].
      split.
      * rewrite HL', HL.
        destruct (decide (this = this)); [|contradiction].
        destruct (decide (this = a)); [congruence|]. lia.
      * intros b Hb. etransitivity; [apply Hpeers, Hb|]. rewrite HL.
        destruct (decide (b = this)); [contradiction|]. lia.
    + apply try_call_Ok in H3 as [_ [-> _]]. now apply IH in H.
Qed.

Lemma redistributeFundsFromPools_Ok this u required available w r w' :
  redistributeFundsFromPools this u required available w = Ok (r, w') ->
  available <= r /\ r <= required /\
  liquidity_moved w w' /\
  liquidityOf w' this = liquidityOf w this + (r - available) /\
  forall b, b <> this -> liquidityOf w' b <= liquidityOf w b.
Proof.
  unfold redistributeFundsFromPools. intros H.
  apply bind_Ok in H as (needed & w1 & Hsub & H). inv_step Hsub.
  apply checked_sub_Ok in Hsub as [-> Hle].
  apply bind_Ok in H as (l & w1 & Hl & H). inv_step Hl.
  pose proof (redistribute_loop_bounds _ _ _ _ _ _ _ _ H) as [H1 H2].
  apply redistribute_loop_liquidity in H as (Hm & HL & Hpeers).
  split; [exact H1|]. split; [lia|]. auto.
Qed.

Lemma addLiquidityFromNewPools_Ok this u required available w r w' :
  addLiquidityFromNewPools this u required available w = Ok (r, w') ->
  available <= r /\ r <= required /\
  liquidity_moved w w' /\
  liquidityOf w' this = liquidityOf w this + (r - available) /\
  forall b, b <> this -> liquidityOf w' b <= liquidityOf w b.
Proof.
  unfold addLiquidityFromNewPools. intros H.
  apply bind_Ok in H as (needed & w1 & Hsub & H). inv_step Hsub.
  apply checked_sub_Ok in Hsub as [-> Hle].
  apply bind_Ok in H as (l & w1 & Hl & H). inv_step Hl.
  pose proof (addLiquidity_loop_bounds _ _ _ _ _ _ _ _ H) as [H1 H2].
  apply addLiquidity_loop_liquidity in H as (Hm & HL & Hpeers).
  split; [exact H1|]. split; [lia|]. auto.
Qed.

(** The payment itself: the pool's counter goes down by the amount, which
    is booked as a debt of the caller. *)
Lemma executeOriginalFallbackPay_Ok this sender now merchant v w u w' p :
  pools w !! this = Some p ->
  executeOriginalFallbackPay this sender now merchant v w = Ok (u, w') ->
  v <= totalLiquidityStaked p /\ v <= stakedAmount (getStake p sender) /\
  factoryAddress w' = factoryAddress w /\ factory w' = factory w /\
  exists p',
    pools w' = <[this := p']> (pools w) /\
    totalLiquidityStaked p' = totalLiquidityStaked p - v /\
    totalDebt p' = totalDebt p + v /\
    stakedAmount (getStake p' sender) = stakedAmount (getStake p sender) - v /\
    getUserDebts p' sender
    = (getUserDebts p sender ++ [mkDebt sender merchant v now false])%list.
Proof.
  intros Hp H. unfold executeOriginalFallbackPay in H.
  apply bind_Ok in H as (p0 & w1 & Hl & H). inv_step Hl.
  assert (p0 = p) by congruence. subst p0.
  apply bind_Ok in H as (? & w1 & Hq & H). inv_step Hq.
  apply bind_Ok in H as (burnt & w1 & Hb & H).
  assert (w1 = w).
  { destruct (LPERC20.totalSupply (lpToken p) =? 0); [discriminate|].
    apply bind_Ok in Hb as (? & w2 & Hb1 & Hb2). inv_step Hb1. inv_step Hb2.
    reflexivity. }
  subst w1. clear Hb.
  inv_M H.
  repeat match goal with
  | Hc : checked_add _ _ = Ok _ |- _ => apply checked_add_Ok in Hc as [-> ?]
  | Hc : checked_sub _ _ = Ok _ |- _ => apply checked_sub_Ok in Hc as [-> ?]
  end.
  match goal with Htok : stakingToken_transfer _ _ _ _ = Ok _ |- _ =>
    unfold stakingToken_transfer in Htok;
    destruct (token_transfer this merchant v _) as [[b t]|]; [|discriminate];
    inversion Htok; subst; clear Htok end.
  split; [now apply N.leb_le|]. split; [assumption|].
  split; [reflexivity|]. split; [reflexivity|].
  eexists. split; [reflexivity|].
  destruct (getTimelock p sender <? now + UNSTAKE_TIME_LOCK_DURATION);
    (split; [reflexivity|]; split; [reflexivity|]; split;
     [unfold getStake; simpl; rewrite lookup_insert_eq; reflexivity
     |unfold getUserDebts; simpl; rewrite lookup_insert_eq; reflexivity]).
Qed.

Lemma totalLiquidityAll_insert a p p' w w' :
  pools w !! a = Some p ->
  pools w' = <[a := p']> (pools w) ->
  totalLiquidityAll w' + totalLiquidityStaked p = totalLiquidityAll w + totalLiquidityStaked p'.
Proof.
  intros Hp Hw'. unfold totalLiquidityAll. rewrite Hw', fmap_insert.
  pose proof (sum_values_insert (totalLiquidityStaked <$> pools w) a
                (totalLiquidityStaked p')) as E.
  rewrite lookup_fmap, Hp in E. exact E.
Qed.

Lemma same_but_liquidity_lookup w w' a p :
  same_but_liquidity w w' -> pools w !! a = Some p ->
  exists p', pools w' !! a = Some p' /\
             set_totalLiquidityStaked 0 p' = set_totalLiquidityStaked 0 p.
Proof.
  intros (_ & _ & Hs) Hp. specialize (Hs a). rewrite Hp in Hs.
  destruct (pools w' !! a) as [p'|]; [|discriminate].
  exists p'. split; [reflexivity|]. simpl in Hs. congruence.
Qed.

(** X17. A successful fallback payment lowers the liquidity recorded by the
    pools by exactly the amount paid, in total, whichever pools Phase 1
    and Phase 2 drew on; no peer's liquidity grows; and the paying pool
    books the amount as a new debt of the caller. *)
Theorem fallbackPay_takes_amount this sender now merchant v w u w' :
  fallbackPay this sender now merchant v w = Ok (u, w') ->
  totalLiquidityAll w' + v = totalLiquidityAll w /\
  (forall b, b <> this -> liquidityOf w' b <= liquidityOf w b) /\
  exists p p',
    pools w !! this = Some p /\ pools w' !! this = Some p' /\
    totalDebt p' = totalDebt p + v /\
    getUserDebts p' sender
    = (getUserDebts p sender ++ [mkDebt sender merchant v now false])%list.
Proof.
  unfold fallbackPay. intros H.
  apply bind_Ok in H as ([] & w1 & Hact & H). inv_step Hact.
  apply bind_Ok in H as ([] & w1 & Hr & H). inv_step Hr.
  apply bind_Ok in H as ([] & w1 & Hr' & H). inv_step Hr'.
  apply bind_Ok in H as (total & w1 & Ht & H).
  apply getTotalCollateralAcrossPools_view in Ht as [-> _].
  apply bind_Ok in H as (p0 & w1 & Hl & H). inv_step Hl.
  assert (p0 = p) by congruence. subst p0.
  apply bind_Ok in H as (c & w1 & Hc & H). inv_step Hc. cbv zeta in H.
  assert (Hfinish : forall w2 x,
            liquidity_moved w w2 ->
            (forall b, b <> this -> liquidityOf w2 b <= liquidityOf w b) ->
            executeOriginalFallbackPay this sender now merchant v w2 = Ok (x, w') ->
            totalLiquidityAll w' + v = totalLiquidityAll w /\
            (forall b, b <> this -> liquidityOf w' b <= liquidityOf w b) /\
            exists p1 p', pools w !! this = Some p1 /\ pools w' !! this = Some p' /\
              totalDebt p' = totalDebt p1 + v /\
              getUserDebts p' sender
              = (getUserDebts p1 sender ++ [mkDebt sender merchant v now false])%list).
  { intros w2 x [Hs Ht] Hpeers Hx.
    destruct (same_but_liquidity_lookup _ _ _ _ Hs Hp) as (p2 & Hp2 & E2).
    destruct (executeOriginalFallbackPay_Ok _ _ _ _ _ _ _ _ _ Hp2 Hx)
      as (Hle & _ & _ & _ & p' & Hw' & Htl & Htd & _ & Hd).
    pose proof (totalLiquidityAll_insert _ _ _ _ _ Hp2 Hw') as Hsum.
    split; [lia|]. split.
    - intros b Hb. etransitivity; [|apply Hpeers, Hb].
      unfold liquidityOf. rewrite Hw', lookup_insert_ne by congruence. reflexivity.
    - exists p, p'. split; [exact Hp|]. rewrite Hw', lookup_insert_eq.
      split; [reflexivity|].
      assert (Etd : totalDebt p2 = totalDebt p)
        by exact (f_equal totalDebt E2).
      assert (Eud : getUserDebts p2 sender = getUserDebts p sender)
        by exact (f_equal (fun q => getUserDebts q sender) E2).
      rewrite Htd, Hd, Etd, Eud. auto. }
  destruct ((v <=? c) && (v <=? totalLiquidityStaked p)).
  - eapply Hfinish; [apply liquidity_moved_refl | reflexivity | exact H].
  - apply bind_Ok in H as (r1 & w1 & H1 & H).
    assert (Hph1 : liquidity_moved w w1 /\
                   forall b, b <> this -> liquidityOf w1 b <= liquidityOf w b).
    { destruct (totalLiquidityStaked p <? v).
      - apply redistributeFundsFromPools_Ok in H1 as (_ & _ & Hm & _ & Hpe). auto.
      - apply ret_Ok in H1 as [_ ->]. split; [apply liquidity_moved_refl | reflexivity]. }
    destruct Hph1 as [Hm1 Hpe1]. clear H1.
    apply bind_Ok in H as (r2 & w2 & H2 & H).
    assert (Hph2 : liquidity_moved w1 w2 /\
                   forall b, b <> this -> liquidityOf w2 b <= liquidityOf w1 b).
    { destruct (r1 <? v).
      - apply addLiquidityFromNewPools_Ok in H2 as (_ & _ & Hm & _ & Hpe). auto.
      - apply ret_Ok in H2 as [_ ->]. split; [apply liquidity_moved_refl | reflexivity]. }
    destruct Hph2 as [Hm2 Hpe2]. clear H2.
    apply bind_Ok in H as ([] & w3 & Hr1 & H). inv_step Hr1.
    apply bind_Ok in H as ([] & w3 & Hr2 & H). inv_step Hr2.
    eapply Hfinish; [eapply liquidity_moved_trans; eauto | | exact H].
    intros b Hb. etransitivity; [apply Hpe2, Hb | apply Hpe1, Hb].
Qed.

(** X13. A successful [transferLiquidityToPool] moves [amount] from this
    pool's liquidity counter to the target's and changes nothing else in
    the pools or the factory: the total of the counters is unchanged, and
    a transfer to the pool itself changes no counter.  The pool itself
    must be in the registry, as the target checks its caller. *)
Theorem transferLiquidityToPool_conserves this sender target user amount w u w' :
  transferLiquidityToPool this sender target user amount w = Ok (u, w') ->
  0 < amount /\ amount <= liquidityOf w this /\
  isValidPool_receive (PoolFactory.getPools (factory w)) this = true /\
  liquidity_moved w w' /\
  forall a, liquidityOf w' a
            = (if decide (a = target) then amount else 0)
              + (liquidityOf w a - (if decide (a = this) then amount else 0)).
Proof.
  intros H. apply transferLiquidityToPool_Ok in H as (H1 & H2 & _ & H3 & H4 & H5). auto.
Qed.

(** X14. A successful [contributeLiquidityForPayment] does the same, and
    the amount is within the collateral share of what the user staked in
    this pool. *)
Theorem contributeLiquidityForPayment_conserves this sender target user amount w u w' :
  contributeLiquidityForPayment this sender target user amount w = Ok (u, w') ->
  (exists p, pools w !! this = Some p /\
             amount <= stakedAmount (getStake p user) * COLLATERAL_PERCENTAGE_BP
                       / BASIS_POINTS) /\
  amount <= liquidityOf w this /\
  liquidity_moved w w' /\
  forall a, liquidityOf w' a
            = (if decide (a = target) then amount else 0)
              + (liquidityOf w a - (if decide (a = this) then amount else 0)).
Proof.
  intros H.
  apply contributeLiquidityForPayment_Ok in H as (_ & H2 & H3 & _ & _ & H4 & H5). auto.
Qed.

(** X15. Phase 1 only moves liquidity: when [redistributeFundsFromPools]
    returns [r], the pools' counters still add up to the same total, the
    paying pool's counter has grown by exactly [r - currentPoolAvailable],
    no peer's counter has grown, and [r] lies between
    [currentPoolAvailable] and [requiredAmount]. *)
Theorem redistributeFundsFromPools_conserves this u required available w r w' :
  redistributeFundsFromPools this u required available w = Ok (r, w') ->
  available <= r /\ r <= required /\
  liquidity_moved w w' /\
  liquidityOf w' this = liquidityOf w this + (r - available) /\
  forall b, b <> this -> liquidityOf w' b <= liquidityOf w b.
Proof. apply redistributeFundsFromPools_Ok. Qed.

(** X16. Phase 2 likewise: [addLiquidityFromNewPools] conserves the total
    of the counters and raises the paying pool's by what it reports. *)
Theorem addLiquidityFromNewPools_conserves this u required available w r w' :
  addLiquidityFromNewPools this u required available w = Ok (r, w') ->
  available <= r /\ r <= required /\
  liquidity_moved w w' /\
  liquidityOf w' this = liquidityOf w this + (r - available) /\
  forall b, b <> this -> liquidityOf w' b <= liquidityOf w b.
Proof. apply addLiquidityFromNewPools_Ok. Qed.

(** ** Edge cases of the pool's own functions *)

(** X18. Staking into a pool whose liquidity counter is 0 while LP tokens
    are outstanding fails with a division by zero (panic 0x12), after
    the token transfer went through. *)
Theorem stake_drained_pool_panics this sender now v w p t' :
  pools w !! this = Some p ->
  status p = ACTIVE ->
  0 < v ->
  token_transferFrom this sender this v (token w) = Ok (true, t') ->
  v * COLLATERAL_PERCENTAGE_BP <= MAX_UINT256 ->
  LPERC20.totalSupply (lpToken p) <> 0 ->
  v * LPERC20.totalSupply (lpToken p) <= MAX_UINT256 ->
  totalLiquidityStaked p = 0 ->
  stake this sender now v w = Reverted (PanicCode 18).
Proof.
  intros Hp Hs Hv Htok Hfit Hsup Hfit' Hliq.
  unfold stake. run_step. run_step.
  erewrite bind_eq;
    [|unfold stakingToken_transferFrom; rewrite Htok; reflexivity].
  erewrite bind_eq; [|reflexivity].
  run_step. run_step.
  erewrite bind_eq; [|apply sload_eq; exact Hp].
  apply bind_Reverted.
  destruct (N.eqb_spec (LPERC20.totalSupply (lpToken p)) 0) as [|_]; [contradiction|].
  erewrite bind_eq; [|apply lift_eq, checked_mul_fits; exact Hfit'].
  rewrite Hliq. reflexivity.
Qed.

Lemma whenActive_Reverted this w p :
  pools w !! this = Some p -> status p <> ACTIVE ->
  whenActive this w = Reverted (ErrorString "Pool not active").
Proof.
  intros Hp Hs. unfold whenActive, bind, sload. rewrite Hp.
  destruct (status p); [contradiction | reflexivity | reflexivity].
Qed.

(** X19. A pool that is not ACTIVE rejects [stake], [unstake],
    [fallbackPay] and [repayDebt] with "Pool not active", whatever the
    arguments, before anything else is looked at. *)
Theorem inactive_pool_rejects this sender now w p :
  pools w !! this = Some p ->
  status p <> ACTIVE ->
  (forall v, stake this sender now v w = Reverted (ErrorString "Pool not active")) /\
  (forall lp, unstake this sender lp w = Reverted (ErrorString "Pool not active")) /\
  (forall merchant v,
     fallbackPay this sender now merchant v w = Reverted (ErrorString "Pool not active")) /\
  (forall idx v, repayDebt this sender idx v w = Reverted (ErrorString "Pool not active")).
Proof.
  intros Hp Hs. pose proof (whenActive_Reverted this w p Hp Hs) as E.
  repeat split; intros; apply bind_Reverted; exact E.
Qed.

Lemma set_status_same p : set_status (status p) p = p.
Proof. now destruct p. Qed.

Lemma set_pool_same a p w : pools w !! a = Some p -> set_pool a p w = w.
Proof. intros Hp. destruct w. unfold set_pool. simpl in *. f_equal. now apply insert_id. Qed.

Lemma set_pool_twice a p q w : set_pool a p (set_pool a q w) = set_pool a p w.
Proof. unfold set_pool. simpl. f_equal. apply insert_insert_eq. Qed.

(** X20. [toggleStatus] is its own inverse: a second call by the factory
    owner gives back the world the first one started from (an INACTIVE
    pool is left as it is by both). *)
Theorem toggleStatus_twice this sender w u w1 :
  toggleStatus this sender w = Ok (u, w1) ->
  toggleStatus this sender w1 = Ok (tt, w).
Proof.
  unfold toggleStatus. intros H.
  apply bind_Ok in H as ([] & w0 & Hown & H).
  apply onlyFactoryOwner_Ok in Hown as (-> & p & Hp & ->).
  apply bind_Ok in H as (p0 & w0 & Hl & H). inv_step Hl.
  assert (p0 = p) by congruence. subst p0.
  assert (Hown : forall q, factoryOwner q = factoryOwner p ->
            onlyFactoryOwner this (factoryOwner p) (set_pool this q w)
            = Ok (tt, set_pool this q w)).
  { intros q Hq. unfold onlyFactoryOwner, bind, sload. simpl.
    rewrite lookup_insert_eq, Hq, N.eqb_refl. reflexivity. }
  destruct (status p) eqn:Est.
  - inv_step H. erewrite bind_eq; [|apply Hown; reflexivity].
    erewrite bind_eq; [|apply sload_eq; simpl; apply lookup_insert_eq]. simpl.
    unfold sstore. rewrite set_pool_twice.
    change (set_status ACTIVE (set_status PAUSED p)) with (set_status ACTIVE p).
    rewrite <- Est, set_status_same, set_pool_same by exact Hp. reflexivity.
  - inv_step H. erewrite bind_eq; [|apply Hown; reflexivity].
    erewrite bind_eq; [|apply sload_eq; simpl; apply lookup_insert_eq]. simpl.
    unfold sstore. rewrite set_pool_twice.
    change (set_status PAUSED (set_status ACTIVE p)) with (set_status PAUSED p).
    rewrite <- Est, set_status_same, set_pool_same by exact Hp. reflexivity.
  - inv_step H.
    erewrite bind_eq;
      [|unfold onlyFactoryOwner, bind, sload; rewrite Hp, N.eqb_refl; reflexivity].
    erewrite bind_eq; [|apply sload_eq; exact Hp]. rewrite Est. reflexivity.
Qed.

(** X21. [distributeRewards] pays nobody: when it succeeds, the caller is
    the factory owner, the pool is ACTIVE with a non-empty pot and LP
    tokens outstanding, and the only change is that the pot is set to 0;
    the staking token, the stakes and the liquidity are as before. *)
Theorem distributeRewards_pays_nothing this sender w u w' :
  distributeRewards this sender w = Ok (u, w') ->
  exists p,
    pools w !! this = Some p /\
    sender = factoryOwner p /\ status p = ACTIVE /\
    0 < rewardsPot p /\ 0 < LPERC20.totalSupply (lpToken p) /\
    token w' = token w /\
    w' = set_pool this (set_rewardsPot 0 p) w.
Proof.
  unfold distributeRewards. intros H.
  apply bind_Ok in H as ([] & w0 & Hown & H).
  apply onlyFactoryOwner_Ok in Hown as (-> & p & Hp & ->).
  inv_M H.
  repeat match goal with
  | Hq : pools w !! this = Some ?q |- _ =>
      lazymatch q with p => fail | _ => assert (q = p) by congruence; subst q end
  end.
  exists p. repeat (split; [first [assumption | reflexivity | now apply N.ltb_lt]|]).
  reflexivity.
Qed.

(** X22. [emergencyWithdraw] touches no pool storage: when it succeeds the
    caller is the factory owner and the pool is INACTIVE, and the pools
    (their liquidity counters, stakes and debts) and the factory are as
    before; only the token can have changed, and it has not when the
    pool's balance was 0. *)
Theorem emergencyWithdraw_leaves_accounting this sender w u w' :
  emergencyWithdraw this sender w = Ok (u, w') ->
  pools w' = pools w /\ factory w' = factory w /\
  (exists p, pools w !! this = Some p /\ sender = factoryOwner p /\ status p = INACTIVE) /\
  (token_balanceOf (token w) this = 0 -> w' = w).
Proof.
  unfold emergencyWithdraw. intros H.
  apply bind_Ok in H as ([] & w0 & Hown & H).
  apply onlyFactoryOwner_Ok in Hown as (-> & p & Hp & ->).
  apply bind_Ok in H as (p0 & w0 & Hl & H). inv_step Hl.
  assert (p0 = p) by congruence. subst p0.
  apply bind_Ok in H as ([] & w0 & Hr & H). inv_step Hr.
  apply bind_Ok in H as (bal & w0 & Hb & H).
  unfold stakingToken_balanceOf in Hb. inversion Hb; subst bal w0; clear Hb.
  assert (Hst : status p = INACTIVE) by (destruct (status p); [discriminate.. | reflexivity]).
  destruct (N.ltb_spec 0 (token_balanceOf (token w) this)) as [Hpos|Hzero].
  - apply bind_Ok in H as (ok & w0 & Htok & H). inv_step H.
    unfold stakingToken_transfer in Htok.
    destruct (token_transfer _ _ _ _) as [[b t]|]; [|discriminate].
    inversion Htok; subst; clear Htok. simpl.
    split; [reflexivity|]. split; [reflexivity|]. split; [eauto|]. lia.
  - inv_step H. split; [reflexivity|]. split; [reflexivity|]. split; [eauto|]. reflexivity.
Qed.

(** ** The collateral total as a sum over the pools *)

Lemma foldr_sum_values (f : address -> N) (l : list address) (m : gmap address N) :
  NoDup l ->
  (forall a, a ∈ l <-> is_Some (m !! a)) ->
  (forall a, a ∈ l -> f a = default 0 (m !! a)) ->
  foldr (fun a s => f a + s) 0 l = sum_values m.
Proof.
  revert m. induction l as [|a l IH]; intros m Hnd Hl Hf; simpl.
  - assert (m = ∅) as ->; [|now rewrite sum_values_empty].
    apply map_empty. intros i. destruct (m !! i) eqn:E; [|reflexivity].
    exfalso. eapply (not_elem_of_nil i). apply Hl. eauto.
  - apply NoDup_cons in Hnd as [Ha Hnd].
    destruct (proj1 (Hl a) (list_elem_of_here a l)) as [x Hx].
    rewrite (sum_values_delete m a x Hx).
    rewrite (Hf a (list_elem_of_here a l)), Hx. simpl. f_equal.
    apply IH; [exact Hnd | |].
    + intros b. destruct (decide (b = a)) as [->|Hne].
      * rewrite lookup_delete_eq. split; [contradiction | intros [? ?]; discriminate].
      * rewrite lookup_delete_ne by congruence. rewrite <- Hl.
        rewrite elem_of_cons. split; [auto | intros [?|?]; [contradiction | assumption]].
    + intros b Hb. assert (b <> a) by (intros ->; contradiction).
      rewrite lookup_delete_ne by congruence. apply Hf. now apply list_elem_of_further.
Qed.

Lemma foldr_skip (f : address -> N) this (l : list address) :
  NoDup l ->
  foldr (fun a s => f a + s) 0 l
  = (if decide (this ∈ l) then f this else 0)
    + foldr (fun a s => (if decide (a = this) then 0 else f a) + s) 0 l.
Proof.
  induction l as [|a l IH]; intros Hnd; simpl.
  - destruct (decide (this ∈ [])) as [Hin|_]; [now apply not_elem_of_nil in Hin | reflexivity].
  - apply NoDup_cons in Hnd as [Ha Hnd]. rewrite (IH Hnd).
    destruct (decide (a = this)) as [->|Hne].
    + destruct (decide (this ∈ l)); [contradiction|].
      destruct (decide (this ∈ this :: l)) as [_|Hn]; [lia|].
      exfalso. apply Hn, list_elem_of_here.
    + destruct (decide (this ∈ l)) as [Hin|Hn];
        destruct (decide (this ∈ a :: l)) as [Hin'|Hn']; try lia.
      * exfalso. apply Hn'. now apply list_elem_of_further.
      * apply elem_of_cons in Hin' as [?|?]; [congruence | contradiction].
Qed.

Lemma getTotalCollateral_loop_sum this u l acc w t w' :
  getTotalCollateral_loop this u l acc w = Ok (t, w') ->
  t = acc + foldr (fun a s => (if decide (a = this) then 0 else collateralIn w u a) + s) 0 l.
Proof.
  revert acc. induction l as [|a rest IH]; simpl; intros acc H.
  - apply ret_Ok in H as [-> _]. lia.
  - destruct (N.eqb_spec a this) as [->|Hne].
    + destruct (decide (this = this)); [|contradiction]. now apply IH in H.
    + destruct (decide (a = this)); [contradiction|].
      apply bind_Ok in H as (r & w1 & Hcall & H).
      apply try_call_Ok in Hcall as [[q Hq] Hcall]. destruct r as [st|].
      * unfold peer_getStake in Hcall. inv_M Hcall.
        apply bind_Ok in H as (t1 & w2 & Hadd & H). inv_step Hadd.
        apply checked_add_Ok in Hadd as [-> _]. apply IH in H. rewrite H.
        unfold collateralIn at 2.
        match goal with Hp : pools w !! a = Some _ |- _ => rewrite Hp end. simpl. lia.
      * destruct Hcall as [_ [f Hf]]. unfold peer_getStake, bind, sload in Hf.
        rewrite Hq in Hf. discriminate.
Qed.

(** X23. In a reachable world [getTotalCollateralAcrossPools], when it
    returns, returns the sum of the user's [collateralAmount] over all the
    deployed pools, the calling pool counted once. *)
Theorem getTotalCollateralAcrossPools_sum w this u t w' :
  reachable w ->
  getTotalCollateralAcrossPools this u w = Ok (t, w') ->
  w' = w /\ t = totalCollateralOf w u.
Proof.
  intros Hw H. destruct (reachable_world_wf w Hw) as [[Hnd Hreg] _].
  pose proof (getTotalCollateralAcrossPools_view _ _ _ _ _ H) as [-> _].
  split; [reflexivity|].
  unfold getTotalCollateralAcrossPools in H.
  apply bind_Ok in H as (p & w1 & Hl & H). inv_step Hl.
  apply bind_Ok in H as (l & w1 & Hg & H). inv_step Hg.
  apply getTotalCollateral_loop_sum in H. rewrite H.
  unfold totalCollateralOf, PoolFactory.getPools in *.
  rewrite <- (foldr_sum_values (collateralIn w u) (PoolFactory.pools (factory w)));
    [|exact Hnd| |].
  - rewrite (foldr_skip (collateralIn w u) this _ Hnd).
    destruct (decide (this ∈ PoolFactory.pools (factory w))) as [_|Hn].
    + f_equal. unfold collateralIn.
      match goal with Hp : pools w !! this = Some _ |- _ => rewrite Hp end. reflexivity.
    + exfalso. apply Hn, Hreg. eauto.
  - intros a. rewrite Hreg, lookup_fmap. unfold is_Some.
    destruct (pools w !! a); simpl; split; intros [? ?]; eauto; discriminate.
  - intros a _. unfold collateralIn. now rewrite lookup_fmap.
Qed.

(** ** SimpleStakingToken: the initial grant *)

(** X24. The initial grant is made once per address: after
    [_mintInitialTokens] the address is marked, a second call changes
    nothing, and the supply has grown by [INITIAL_TOKEN_AMOUNT] if the
    address was not marked before and not at all otherwise. *)
Theorem mintInitialTokens_once user s s1 :
  SimpleStakingToken._mintInitialTokens user s = Ok s1 ->
  user ∈ SimpleStakingToken.hasReceivedInitialTokens s1 /\
  SimpleStakingToken._mintInitialTokens user s1 = Ok s1 /\
  SimpleStakingToken._totalSupply s1
  = SimpleStakingToken._totalSupply s
    + (if bool_decide (user ∈ SimpleStakingToken.hasReceivedInitialTokens s)
       then 0 else SimpleStakingToken.INITIAL_TOKEN_AMOUNT).
Proof.
  unfold SimpleStakingToken._mintInitialTokens at 1. intros H.
  destruct (bool_decide_reflect (user ∈ SimpleStakingToken.hasReceivedInitialTokens s))
    as [Hin|Hn].
  - inversion H; subst s1. split; [exact Hin|].
    unfold SimpleStakingToken._mintInitialTokens.
    rewrite bool_decide_eq_true_2 by exact Hin. split; [reflexivity | lia].
  - unfold SimpleStakingToken._mint, SimpleStakingToken._update in H.
    destruct (user =? 0); [discriminate|]. simpl in H.
    apply rbind_Ok in H as (s2 & H2 & H). apply rbind_Ok in H2 as (t & Ht & H2).
    apply checked_add_Ok in Ht as [-> _]. inversion H2; subst s2; clear H2.
    inversion H; subst s1; clear H.
    assert (Hin : user ∈ {[user]} ∪ SimpleStakingToken.hasReceivedInitialTokens s)
      by (apply elem_of_union_l, elem_of_singleton; reflexivity).
    split; [exact Hin|].
    unfold SimpleStakingToken._mintInitialTokens. simpl.
    rewrite bool_decide_eq_true_2 by exact Hin. split; reflexivity.
Qed.

End Facts.

(** * The contracts at work *)

Import Scenario.

Lemma reachable_deployed : reachable deployed.
Proof.
  unfold deployed, approve, fund.
  repeat match goal with
  | |- reachable (match ?x with Ok _ => _ | Reverted _ => _ end) =>
      destruct x as [[? ?]|?] || destruct x
  | |- reachable (set_token _ _) => apply reachable_token
  end;
  (apply reachable_run;
   [ apply reachable_initial; discriminate | vm_compute; reflexivity ]).
Qed.

Lemma reachable_overdrawn : reachable overdrawn.
Proof.
  unfold overdrawn, three_pools.
  apply reachable_run; [apply reachable_run; [apply reachable_deployed|]|];
    vm_compute; reflexivity.
Qed.

Lemma reachable_staked1000 : reachable staked1000.
Proof. apply reachable_run; [apply reachable_deployed | vm_compute; reflexivity]. Qed.

Lemma reachable_two_pools : reachable two_pools.
Proof. apply reachable_run; [apply reachable_deployed | vm_compute; reflexivity]. Qed.

Lemma reachable_three_pools : reachable three_pools.
Proof. apply reachable_run; [apply reachable_deployed | vm_compute; reflexivity]. Qed.

Lemma reachable_drained : reachable drained.
Proof. apply reachable_run; [apply reachable_staked1000 | vm_compute; reflexivity]. Qed.

Lemma reachable_indebted : reachable indebted.
Proof. apply reachable_run; [apply reachable_staked1000 | vm_compute; reflexivity]. Qed.

(** ** Cross-pool commands called by an outsider *)

(** The check of the two outbound commands passes as soon as the caller or
    the target is in the registry. *)
Lemma isValidPool_transfer_spec (allPools : list N) sender targetPool :
  isValidPool_transfer allPools sender targetPool = true <->
  sender ∈ allPools \/ targetPool ∈ allPools.
Proof.
  induction allPools as [|a rest IH]; simpl.
  - split; [discriminate | intros [H|H]; inversion H].
  - rewrite !elem_of_cons.
    destruct (N.eqb_spec a sender) as [->|Hs]; simpl; [tauto|].
    destruct (N.eqb_spec a targetPool) as [->|Ht]; simpl; [tauto|].
    rewrite IH. intuition congruence.
Qed.

(** The callback, for comparison, requires a registered caller. *)
Lemma isValidPool_receive_spec (allPools : list N) sender :
  isValidPool_receive allPools sender = true <-> sender ∈ allPools.
Proof.
  induction allPools as [|a rest IH]; simpl.
  - split; [discriminate | intros H; inversion H].
  - rewrite elem_of_cons.
    destruct (N.eqb_spec a sender) as [->|Hs]; [tauto|].
    rewrite IH. intuition congruence.
Qed.

(** C1 (the code departs from the claim). [bob] is an account, not a pool of
    the registry.  His calls of [transferLiquidityToPool] and
    [contributeLiquidityForPayment] on pool A, naming the registered pool B
    as target, pass the check (it accepts a registered caller or a
    registered target) and move liquidity out of A. *)
Lemma outsider_moves_liquidity :
  isValidPool_receive (PoolFactory.getPools (factory staked1000)) bob = false /\
  liquidity staked1000 A = 1000 /\ liquidity staked1000 B = 0 /\
  (let r := transact staked1000 bob 3000 (CallTransferLiquidityToPool A B bob 400) in
   snd r = Success /\ liquidity (fst r) A = 600 /\ liquidity (fst r) B = 400) /\
  (let r := transact staked1000 bob 3000 (CallContributeLiquidityForPayment A B alice 200) in
   snd r = Success /\ liquidity (fst r) A = 800 /\ liquidity (fst r) B = 200).
Proof. vm_compute. repeat split; reflexivity. Qed.

Lemma poolAt_lookup w a : has_pool w a = true -> pools w !! a = Some (poolAt w a).
Proof. unfold has_pool, poolAt. destruct (pools w !! a); [reflexivity | discriminate]. Qed.

Lemma succeeds_Ok {A} (r : result A) : succeeds r = true -> exists a, r = Ok a.
Proof. destruct r; [eauto | discriminate]. Qed.

(** ** Fallback payments that fail *)

(** A failed payment after Phase 1 and Phase 2 have moved liquidity: with 20 of
    collateral in A and 80 in B, a payment of 150 gathers the amount from B
    and then fails on the collateral limit; pool B is back at 400. *)
Lemma fallbackPay_atomicity_witness :
  match redistributeFundsFromPools A alice 150 20 two_pools with
  | Ok (r, w1) => r = 100 /\ liquidity w1 A = 180 /\ liquidity w1 B = 320
  | Reverted _ => False
  end /\
  liquidity two_pools A = 100 /\ liquidity two_pools B = 400 /\
  fst (transact two_pools alice 3000 (CallFallbackPay A merchant 150)) = two_pools.
Proof.
  split; [vm_compute; repeat split; reflexivity|].
  split; [vm_compute; reflexivity|]. split; [vm_compute; reflexivity|].
  apply (fallbackPay_atomicity two_pools alice 3000 A merchant 150
           (ErrorString "Exceeds collateral limit")).
  vm_compute. reflexivity.
Defined.

(** A payment of 250 against a total collateral of 200. *)
Lemma fallbackPay_exceeding_collateral_fails_witness :
  exists f,
    transact staked1000 alice 3000 (CallFallbackPay A merchant 250)
    = (staked1000, Failure f).
Proof.
  apply (fallbackPay_exceeding_collateral_fails staked1000 A alice 3000 merchant 250
           200 staked1000).
  - apply getTotalCollateralAcrossPools_value. vm_compute. reflexivity.
  - reflexivity.
Defined.

(** C3 (as stated, refuted). With a total collateral of 200, a fallback
    payment of 250 fails, but with "Insufficient liquidity": the phases
    gather less than the amount, and the collateral limit is checked after
    them. *)
Lemma fallbackPay_exceeding_collateral_other_error :
  getTotalCollateralAcrossPools A alice staked1000 = Ok (200, staked1000) /\
  200 < 250 /\
  snd (transact staked1000 alice 3000 (CallFallbackPay A merchant 250))
  = Failure (ErrorString "Insufficient liquidity") /\
  snd (transact staked1000 alice 3000 (CallFallbackPay A merchant 250))
  <> Failure (ErrorString "Exceeds collateral limit").
Proof.
  split; [apply getTotalCollateralAcrossPools_value; vm_compute; reflexivity|].
  split; [reflexivity|].
  assert (E : snd (transact staked1000 alice 3000 (CallFallbackPay A merchant 250))
              = Failure (ErrorString "Insufficient liquidity"))
    by (vm_compute; reflexivity).
  split; [exact E|]. rewrite E. discriminate.
Qed.

(** ** Collateral after stake and unstake *)

(** C4 (the code departs from the claim). After two stakes of 4, the stake
    record holds [stakedAmount = 8] and [collateralAmount = 0], while 20% of
    8, computed as the contract computes it elsewhere, is 1; after an
    unstake of 9 of 10 shares it holds [stakedAmount = 1] and
    [collateralAmount = 1], while 20% of 1 is 0. *)
Lemma stake_collateral_drift :
  getStake (poolAt staked4twice A) alice = mkStake 8 0 8 2001 /\
  8 * COLLATERAL_PERCENTAGE_BP / BASIS_POINTS = 1 /\
  (let w := run deployed [ (alice, 2000, CallStake A 10); (alice, 2001, CallUnstake A 9) ] in
   getStake (poolAt w A) alice = mkStake 1 1 1 2000) /\
  1 * COLLATERAL_PERCENTAGE_BP / BASIS_POINTS = 0.
Proof. vm_compute. repeat split; reflexivity. Qed.

(** ** The unstake timelock *)

(** C5 (the code departs from the claim). The fallback payment made at time
    3000 sets the user's timelock to 3000 + 24 hours; one second later,
    with the timelock still running and the debt unpaid, the same user's
    [unstake] of 100 shares goes through. *)
Lemma unstake_ignores_timelock :
  getTimelock (poolAt indebted A) alice = 3000 + UNSTAKE_TIME_LOCK_DURATION /\
  3001 < getTimelock (poolAt indebted A) alice /\
  getActiveDebtAmount (poolAt indebted A) alice = Ok 150 /\
  snd (transact indebted alice 3001 (CallUnstake A 100)) = Success /\
  lpTokensMinted (getStake (poolAt indebted A) alice) = 850 /\
  lpTokensMinted
    (getStake (poolAt (fst (transact indebted alice 3001 (CallUnstake A 100))) A) alice)
  = 750.
Proof. vm_compute. repeat split; reflexivity. Qed.

(** ** Phase 1 *)

(** C6 (as stated, refuted). In [three_pools] the user has 50 of available
    collateral in pool A, whose liquidity is 250, and asks for 100: the
    fast path does not apply.  Phase 1 would draw 20 from B (80 of
    collateral less a debt of 60) and 30 from C; the contract skips it,
    since its liquidity covers the amount, and Phase 2 draws the whole 50
    from B. *)
Lemma fallbackPay_skips_phase1 :
  getCollateralAvailable (poolAt three_pools A) alice = Ok 50 /\
  liquidity three_pools A = 250 /\
  liquidity three_pools B = 400 /\ liquidity three_pools C = 400 /\
  match fallbackPay A alice 3000 merchant 100 three_pools,
        fallbackPay_as_specified A alice 3000 merchant 100 three_pools with
  | Ok (_, w1), Ok (_, w2) =>
      liquidity w1 B = 350 /\ liquidity w1 C = 400 /\
      liquidity w2 B = 380 /\ liquidity w2 C = 370
  | _, _ => False
  end /\
  fallbackPay A alice 3000 merchant 100 three_pools
  <> fallbackPay_as_specified A alice 3000 merchant 100 three_pools.
Proof.
  repeat (split; [vm_compute; repeat split; reflexivity|]).
  intros E.
  apply (f_equal (fun r => match r with Ok (_, w) => liquidity w B | Reverted _ => 0 end))
    in E.
  vm_compute in E. discriminate E.
Qed.

(** Phase 1 at work: 20 of collateral and 100 of liquidity in A, 150 asked;
    80 is drawn from B. *)
Lemma fallbackPay_phase1_witness :
  match redistribute_loop A alice (PoolFactory.getPools (factory two_pools)) (150 - 20) 20
          two_pools with
  | Ok (r, w1) => (20 <= r /\ r <= 150) /\ liquidity w1 B = 320
  | Reverted _ => False
  end.
Proof.
  assert (H1 : pools two_pools !! A = Some (poolAt two_pools A))
    by (apply poolAt_lookup; vm_compute; reflexivity).
  assert (H2 : status (poolAt two_pools A) = ACTIVE) by (vm_compute; reflexivity).
  assert (H3 : 0 < 150) by reflexivity.
  assert (H4 : merchant <> 0) by discriminate.
  assert (H5 : getTotalCollateralAcrossPools A alice two_pools = Ok (100, two_pools))
    by (apply getTotalCollateralAcrossPools_value; vm_compute; reflexivity).
  assert (H6 : getCollateralAvailable (poolAt two_pools A) alice = Ok 20)
    by (vm_compute; reflexivity).
  assert (H7 : 20 < 150) by reflexivity.
  destruct (fallbackPay_phase1 two_pools A alice 3000 merchant 150
              (poolAt two_pools A) 100 20 H1 H2 H3 H4 H5 H6 H7) as [Hphase1 _].
  destruct Hphase1 as [_ Hbounds]; [vm_compute; reflexivity|].
  assert (Hliq : match redistribute_loop A alice (PoolFactory.getPools (factory two_pools))
                         (150 - 20) 20 two_pools with
                 | Ok (_, w1) => liquidity w1 B = 320
                 | Reverted _ => False
                 end) by (vm_compute; reflexivity).
  destruct (redistribute_loop A alice (PoolFactory.getPools (factory two_pools))
              (150 - 20) 20 two_pools) as [[r w1]|f]; [|exact Hliq].
  split; [exact (Hbounds r w1 eq_refl) | exact Hliq].
Defined.

(** ** unstake *)

(** C7 (as stated, refuted). With 3 staked for 3 shares and no debt, an
    unstake of 1 share succeeds and returns nothing: the proportion is
    3333 basis points and [3 * 3333 / 10000 = 0], where a third of the
    stake is 1. *)
Lemma unstake_returns_less :
  getStake (poolAt staked3 A) alice = mkStake 3 0 3 2000 /\
  getActiveDebtAmount (poolAt staked3 A) alice = Ok 0 /\
  (let r := transact staked3 alice 3000 (CallUnstake A 1) in
   snd r = Success /\
   getStake (poolAt (fst r) A) alice = mkStake 3 0 2 2000 /\
   liquidity (fst r) A = liquidity staked3 A /\
   token_balanceOf (token (fst r)) alice = token_balanceOf (token staked3) alice /\
   stakedAmount (getStake (poolAt staked3 A) alice)
   - stakedAmount (getStake (poolAt (fst r) A) alice)
   <> 3 * 1 / 3).
Proof. vm_compute. repeat split; try reflexivity. discriminate. Qed.

(** With 850 staked for 850 shares, 170 of collateral and an open debt of
    150: an unstake of 200 shares would leave 131 of collateral and is
    refused; an unstake of 100 shares leaves 151 and goes through. *)
Lemma unstake_guard_and_effect_witness :
  unrepaidTotal (getUserDebts (poolAt indebted A) alice) = 150 /\
  getStake (poolAt indebted A) alice = mkStake 850 170 850 2000 /\
  transact indebted alice 4000 (CallUnstake A 200)
  = (indebted, Failure (ErrorString "Insufficient collateral")) /\
  snd (transact indebted alice 4000 (CallUnstake A 100)) = Success /\
  getStake (poolAt (fst (transact indebted alice 4000 (CallUnstake A 100))) A) alice
  = mkStake 751 151 750 2000.
Proof.
  split; [vm_compute; reflexivity|]. split; [vm_compute; reflexivity|].
  assert (H1 : pools indebted !! A = Some (poolAt indebted A))
    by (apply poolAt_lookup; vm_compute; reflexivity).
  assert (H2 : status (poolAt indebted A) = ACTIVE) by (vm_compute; reflexivity).
  assert (H6 : stakedAmount (getStake (poolAt indebted A) alice) * BASIS_POINTS
               <= MAX_UINT256) by (vm_compute; discriminate).
  assert (H7 : collateralAmount (getStake (poolAt indebted A) alice) * BASIS_POINTS
               <= MAX_UINT256) by (vm_compute; discriminate).
  split.
  - assert (H3 : 0 < 200) by reflexivity.
    assert (H4 : 200 <= lpTokensMinted (getStake (poolAt indebted A) alice))
      by (vm_compute; discriminate).
    assert (H5 : 200 * BASIS_POINTS <= MAX_UINT256) by (vm_compute; discriminate).
    destruct (unstake_guard_and_effect indebted A alice 4000 200 (poolAt indebted A)
                reachable_indebted H1 H2 H3 H4 H5 H6 H7) as [Hguard _].
    assert (Hlt : collateralAmount (getStake (poolAt indebted A) alice)
                  - collateralAmount (getStake (poolAt indebted A) alice)
                    * (200 * BASIS_POINTS
                       / lpTokensMinted (getStake (poolAt indebted A) alice))
                    / BASIS_POINTS
                  < unrepaidTotal (getUserDebts (poolAt indebted A) alice))
      by (vm_compute; reflexivity).
    exact (Hguard Hlt).
  - assert (H3 : 0 < 100) by reflexivity.
    assert (H4 : 100 <= lpTokensMinted (getStake (poolAt indebted A) alice))
      by (vm_compute; discriminate).
    assert (H5 : 100 * BASIS_POINTS <= MAX_UINT256) by (vm_compute; discriminate).
    destruct (unstake_guard_and_effect indebted A alice 4000 100 (poolAt indebted A)
                reachable_indebted H1 H2 H3 H4 H5 H6 H7) as [_ Hsuccess].
    assert (Eamount : stakedAmount (getStake (poolAt indebted A) alice)
                      * (100 * BASIS_POINTS
                         / lpTokensMinted (getStake (poolAt indebted A) alice))
                      / BASIS_POINTS = 99) by (vm_compute; reflexivity).
    destruct (succeeds_Ok (LPERC20.burn A alice 100 (lpToken (poolAt indebted A))))
      as [lp' Eburn]; [vm_compute; reflexivity|].
    destruct (succeeds_Ok
                (rbind (token_transfer A alice 99 (token indebted))
                   (fun r => if r.1 then Ok r.2 else Reverted (ErrorString "false"))))
      as [t' Etok]; [vm_compute; reflexivity|].
    destruct (token_transfer A alice 99 (token indebted)) as [[[] t'']|] eqn:Etok';
      simpl in Etok; try discriminate Etok.
    assert (Hge : unrepaidTotal (getUserDebts (poolAt indebted A) alice)
                  <= collateralAmount (getStake (poolAt indebted A) alice)
                     - collateralAmount (getStake (poolAt indebted A) alice)
                       * (100 * BASIS_POINTS
                          / lpTokensMinted (getStake (poolAt indebted A) alice))
                       / BASIS_POINTS) by (vm_compute; discriminate).
    assert (Hliq : stakedAmount (getStake (poolAt indebted A) alice)
                   * (100 * BASIS_POINTS
                      / lpTokensMinted (getStake (poolAt indebted A) alice))
                   / BASIS_POINTS
                   <= totalLiquidityStaked (poolAt indebted A))
      by (vm_compute; discriminate).
    specialize (Hsuccess Hge lp' t'' Hliq Eburn).
    rewrite Eamount in Hsuccess. rewrite (Hsuccess Etok').
    split; [reflexivity|]. vm_compute. reflexivity.
Defined.

(** ** Repayment *)

Lemma poolAt_Some w a p : pools w !! a = Some p -> poolAt w a = p.
Proof. unfold poolAt. now intros ->. Qed.

(** The debt of 150, with the timelock at 3000 + 24 h: after a first
    instalment of 100 the entry is open with 50 left and the timelock
    stands; after the second, of 50, the entry is repaid, no debt is left
    and the timelock is 0. *)
Lemma repayDebt_round_trip_witness :
  getTimelock (poolAt indebted A) alice = 89400 /\
  match repayAll A alice 0 [100] indebted with
  | Ok (_, w1) =>
      (isRepaid <$> getUserDebts (poolAt w1 A) alice !! 0%nat) = Some false /\
      (amount <$> getUserDebts (poolAt w1 A) alice !! 0%nat) = Some 50 /\
      unrepaidTotal (getUserDebts (poolAt w1 A) alice) = 50 /\
      totalDebt (poolAt w1 A) = 50 /\
      getTimelock (poolAt w1 A) alice = 89400
  | Reverted _ => False
  end /\
  match repayAll A alice 0 [100; 50] indebted with
  | Ok (_, w2) =>
      (isRepaid <$> getUserDebts (poolAt w2 A) alice !! 0%nat) = Some true /\
      unrepaidTotal (getUserDebts (poolAt w2 A) alice) = 0 /\
      totalDebt (poolAt w2 A) = 0 /\
      getTimelock (poolAt w2 A) alice = 0
  | Reverted _ => False
  end.
Proof.
  assert (Hlock : getTimelock (poolAt indebted A) alice = 89400)
    by (vm_compute; reflexivity).
  split; [exact Hlock|].
  assert (Hp : pools indebted !! A = Some (poolAt indebted A))
    by (apply poolAt_lookup; vm_compute; reflexivity).
  assert (Hact : status (poolAt indebted A) = ACTIVE) by (vm_compute; reflexivity).
  assert (Hd : getUserDebts (poolAt indebted A) alice !! N.to_nat 0
               = Some (mkDebt alice merchant 150 3000 false))
    by (vm_compute; reflexivity).
  assert (Hun : unrepaidTotal (getUserDebts (poolAt indebted A) alice) = 150)
    by (vm_compute; reflexivity).
  assert (Htd : totalDebt (poolAt indebted A) = 150) by (vm_compute; reflexivity).
  split.
  - destruct (repayDebt_round_trip indebted A alice 0 [100] (poolAt indebted A)
                (mkDebt alice merchant 150 3000 false) reachable_indebted Hp Hact Hd)
      as (w1 & p1 & d1 & E & Hp1 & Hd1 & Erep & Eamt & Hun1 & Htd1 & Hlock1).
    + reflexivity.
    + discriminate.
    + repeat constructor.
    + vm_compute. discriminate.
    + vm_compute. reflexivity.
    + rewrite E, (poolAt_Some _ _ _ Hp1).
      change (foldr N.add 0 [100]) with 100 in *. cbn [amount] in *.
      change (100 =? 150) with false in Erep.
      assert (Hun1' : unrepaidTotal (getUserDebts p1 alice) = 50) by lia.
      rewrite Hlock1, Hun1', Hlock.
      change (N.to_nat 0) with 0%nat in Hd1. rewrite Hd1.
      cbn [fmap option_fmap option_map]. rewrite Erep, (Eamt Erep).
      split; [reflexivity|]. split; [reflexivity|].
      split; [reflexivity|]. split; [lia | reflexivity].
  - destruct (repayDebt_round_trip indebted A alice 0 [100; 50] (poolAt indebted A)
                (mkDebt alice merchant 150 3000 false) reachable_indebted Hp Hact Hd)
      as (w2 & p2 & d2 & E & Hp2 & Hd2 & Erep & Eamt & Hun2 & Htd2 & Hlock2).
    + reflexivity.
    + discriminate.
    + repeat constructor.
    + vm_compute. discriminate.
    + vm_compute. reflexivity.
    + rewrite E, (poolAt_Some _ _ _ Hp2).
      change (foldr N.add 0 [100; 50]) with 150 in *. cbn [amount] in *.
      change (150 =? 150) with true in Erep.
      assert (Hun2' : unrepaidTotal (getUserDebts p2 alice) = 0) by lia.
      rewrite Hlock2, Hun2'.
      change (N.to_nat 0) with 0%nat in Hd2. rewrite Hd2. cbn [fmap option_fmap option_map].
      rewrite Erep.
      split; [reflexivity|]. split; [reflexivity|]. split; [lia | reflexivity].
Defined.

(** ** Available collateral *)

(** After a payment drawn in part from the peers, the active debt (100)
    exceeds the collateral (30): the available collateral is 0. *)
Lemma getCollateralAvailable_total_witness :
  collateralAmount (getStake (poolAt overdrawn A) alice) = 30 /\
  unrepaidTotal (getUserDebts (poolAt overdrawn A) alice) = 100 /\
  getCollateralAvailable (poolAt overdrawn A) alice = Ok 0.
Proof.
  split; [vm_compute; reflexivity|]. split; [vm_compute; reflexivity|].
  rewrite (getCollateralAvailable_total overdrawn A (poolAt overdrawn A) alice
             reachable_overdrawn).
  - vm_compute. reflexivity.
  - apply poolAt_lookup. vm_compute. reflexivity.
Defined.


Lemma poolAt_set_pool a p w : poolAt (set_pool a p w) a = p.
Proof. unfold poolAt, set_pool. cbn [pools]. rewrite lookup_insert_eq. reflexivity. Qed.

(** ** The share ledger at work *)

(** [alice] passes 30 of her 1000 shares of pool A to [bob]. *)
Lemma LPERC20_transfer_effect_witness :
  match LPERC20.transfer alice bob 30 (lpToken (poolAt staked1000 A)) with
  | Ok s' => LPERC20.balanceOf s' alice = 970 /\ LPERC20.balanceOf s' bob = 30
  | Reverted _ => False
  end.
Proof.
  destruct (succeeds_Ok (LPERC20.transfer alice bob 30 (lpToken (poolAt staked1000 A))))
    as [s' E]; [vm_compute; reflexivity|].
  rewrite E.
  destruct (LPERC20_transfer_effect _ _ _ _ _ E) as (_ & _ & _ & _ & _ & _ & HB).
  split; rewrite HB; vm_compute; reflexivity.
Defined.

(** [bob] draws 20 on the allowance of 50 that [alice] gave him. *)
Lemma LPERC20_transferFrom_allowance_witness :
  match LPERC20.transferFrom bob alice bob 20 ledger_approved with
  | Ok s' => LPERC20.allowance s' alice bob = 30
  | Reverted _ => False
  end.
Proof.
  destruct (succeeds_Ok (LPERC20.transferFrom bob alice bob 20 ledger_approved))
    as [s' E]; [vm_compute; reflexivity|].
  rewrite E.
  destruct (LPERC20_transferFrom_allowance _ _ _ _ _ _ E) as (_ & H & _).
  rewrite H. vm_compute. reflexivity.
Defined.

Lemma LPERC20_transfer_succeeds_witness :
  exists s',
    LPERC20.transfer alice bob 40
      (LPERC20.run [LPERC20.Mint A alice 100] (LPERC20.constructor A)) = Ok s'.
Proof.
  apply LPERC20_transfer_succeeds.
  - discriminate.
  - discriminate.
  - apply N.leb_le. vm_compute. reflexivity.
Defined.

Lemma LPERC20_mint_burn_round_trip_witness :
  match LPERC20.mint A alice 10 (lpToken (poolAt staked1000 A)) with
  | Ok s1 =>
      exists s2, LPERC20.burn A alice 10 s1 = Ok s2 /\ LPERC20._totalSupply s2 = 1000
  | Reverted _ => False
  end.
Proof.
  destruct (succeeds_Ok (LPERC20.mint A alice 10 (lpToken (poolAt staked1000 A))))
    as [s1 E]; [vm_compute; reflexivity|].
  rewrite E.
  destruct (LPERC20_mint_burn_round_trip _ _ _ _ _ E) as (s2 & Hb & Hs & _).
  exists s2. split; [exact Hb|]. rewrite Hs. vm_compute. reflexivity.
Defined.

(** [alice] cannot mint herself shares of pool A. *)
Lemma LPERC20_supply_owner_only_witness :
  LPERC20.totalSupply
    (LPERC20.apply_op (lpToken (poolAt staked1000 A)) (LPERC20.Mint alice alice 5))
  = 1000.
Proof.
  rewrite LPERC20_supply_owner_only.
  - vm_compute. reflexivity.
  - vm_compute. discriminate.
Defined.

(** ** The registry at work *)

Lemma registry_lists_pools_witness :
  NoDup (PoolFactory.getPools (factory deployed)) /\
  PoolFactory.getPoolCount (factory deployed) = 3.
Proof.
  destruct (registry_lists_pools deployed reachable_deployed) as (H1 & _ & H3 & _).
  split; [exact H1|]. rewrite H3. vm_compute. reflexivity.
Defined.

Lemma getPoolByRegion_round_trip_witness :
  getPoolByRegion (factory deployed) "south" = Ok B.
Proof.
  assert (E : regionName (poolAt deployed B) = "south") by (vm_compute; reflexivity).
  assert (Hp : pools deployed !! B = Some (poolAt deployed B))
    by (apply poolAt_lookup; vm_compute; reflexivity).
  destruct (getPoolByRegion_round_trip deployed B _ reachable_deployed Hp) as (_ & _ & H).
  rewrite E in H. exact H.
Defined.

Lemma region_names_unique_witness :
  regionName (poolAt deployed A) <> regionName (poolAt deployed B).
Proof.
  apply (region_names_unique deployed A B _ _ reachable_deployed).
  - apply poolAt_lookup. vm_compute. reflexivity.
  - apply poolAt_lookup. vm_compute. reflexivity.
  - discriminate.
Defined.

Lemma lpToken_supply_recorded_witness :
  mintedOfPool (poolAt staked1000 A) = 1000 /\
  LPERC20.totalSupply (lpToken (poolAt staked1000 A)) = mintedOfPool (poolAt staked1000 A).
Proof.
  split; [vm_compute; reflexivity|].
  assert (Hp : pools staked1000 !! A = Some (poolAt staked1000 A))
    by (apply poolAt_lookup; vm_compute; reflexivity).
  destruct (lpToken_supply_recorded staked1000 A _ reachable_staked1000 Hp) as (_ & H & _).
  exact H.
Defined.

Lemma apy_bounded_witness : apyBasisPoints (poolAt deployed A) <= 5000.
Proof.
  apply (apy_bounded deployed A (poolAt deployed A) reachable_deployed).
  apply poolAt_lookup. vm_compute. reflexivity.
Defined.

(** The owner of the factory cannot pause pool A through the factory. *)
Lemma factory_pool_admin_fails_witness :
  togglePoolStatus 1 A deployed = Reverted (ErrorString "Not factory owner").
Proof.
  destruct (factory_pool_admin_fails deployed 1 A 0 reachable_deployed) as (_ & _ & H).
  apply H.
  - vm_compute. reflexivity.
  - rewrite (poolAt_lookup deployed A); [eauto | vm_compute; reflexivity].
Defined.

(** ** Liquidity at work *)

(** With 100 in pool A and 400 in pool B, pool B hands 50 over to pool A. *)
Lemma transferLiquidityToPool_conserves_witness :
  match transferLiquidityToPool B A A alice 50 two_pools with
  | Ok (_, w') =>
      liquidityOf w' A = 150 /\ liquidityOf w' B = 350 /\
      totalLiquidityAll w' = totalLiquidityAll two_pools
  | Reverted _ => False
  end.
Proof.
  destruct (succeeds_Ok (transferLiquidityToPool B A A alice 50 two_pools))
    as [[u w'] E]; [vm_compute; reflexivity|].
  rewrite E.
  destruct (transferLiquidityToPool_conserves _ _ _ _ _ _ _ _ E)
    as (_ & _ & _ & [_ Ht] & HL).
  split; [rewrite HL; vm_compute; reflexivity|].
  split; [rewrite HL; vm_compute; reflexivity | exact Ht].
Defined.

Lemma contributeLiquidityForPayment_conserves_witness :
  match contributeLiquidityForPayment B A A alice 50 two_pools with
  | Ok (_, w') =>
      liquidityOf w' A = 150 /\ liquidityOf w' B = 350 /\
      totalLiquidityAll w' = totalLiquidityAll two_pools
  | Reverted _ => False
  end.
Proof.
  destruct (succeeds_Ok (contributeLiquidityForPayment B A A alice 50 two_pools))
    as [[u w'] E]; [vm_compute; reflexivity|].
  rewrite E.
  destruct (contributeLiquidityForPayment_conserves _ _ _ _ _ _ _ _ E)
    as (_ & _ & [_ Ht] & HL).
  split; [rewrite HL; vm_compute; reflexivity|].
  split; [rewrite HL; vm_compute; reflexivity | exact Ht].
Defined.

(** Phase 1 for a payment of 150 from pool A, where 20 are available. *)
Lemma redistributeFundsFromPools_conserves_witness :
  match redistributeFundsFromPools A alice 150 20 two_pools with
  | Ok (r, w') =>
      liquidityOf w' A = 100 + (r - 20) /\
      totalLiquidityAll w' = totalLiquidityAll two_pools
  | Reverted _ => False
  end.
Proof.
  destruct (succeeds_Ok (redistributeFundsFromPools A alice 150 20 two_pools))
    as [[r w'] E]; [vm_compute; reflexivity|].
  rewrite E.
  destruct (redistributeFundsFromPools_conserves _ _ _ _ _ _ _ E)
    as (_ & _ & [_ Ht] & HL & _).
  split; [rewrite HL; f_equal; vm_compute; reflexivity | exact Ht].
Defined.

Lemma addLiquidityFromNewPools_conserves_witness :
  match addLiquidityFromNewPools A alice 150 20 two_pools with
  | Ok (r, w') =>
      liquidityOf w' A = 100 + (r - 20) /\
      totalLiquidityAll w' = totalLiquidityAll two_pools
  | Reverted _ => False
  end.
Proof.
  destruct (succeeds_Ok (addLiquidityFromNewPools A alice 150 20 two_pools))
    as [[r w'] E]; [vm_compute; reflexivity|].
  rewrite E.
  destruct (addLiquidityFromNewPools_conserves _ _ _ _ _ _ _ E)
    as (_ & _ & [_ Ht] & HL & _).
  split; [rewrite HL; f_equal; vm_compute; reflexivity | exact Ht].
Defined.

(** The payment of 100 from pool A that draws on the peers. *)
Lemma fallbackPay_takes_amount_witness :
  totalLiquidityAll three_pools = 1050 /\
  match fallbackPay A alice 3000 merchant 100 three_pools with
  | Ok (_, w') => totalLiquidityAll w' + 100 = totalLiquidityAll three_pools
  | Reverted _ => False
  end.
Proof.
  split; [vm_compute; reflexivity|].
  destruct (succeeds_Ok (fallbackPay A alice 3000 merchant 100 three_pools))
    as [[u w'] E]; [vm_compute; reflexivity|].
  rewrite E. destruct (fallbackPay_takes_amount _ _ _ _ _ _ _ _ E) as (H & _). exact H.
Defined.

(** ** Edge cases at work *)

(** Pool A holds 1000 shares of [alice] but records no liquidity, after the
    call of an outsider moved it to pool B: staking into it panics. *)
Lemma stake_drained_pool_panics_witness :
  liquidityOf drained A = 0 /\
  LPERC20.totalSupply (lpToken (poolAt drained A)) = 1000 /\
  stake A alice 2600 5 drained = Reverted (PanicCode 18).
Proof.
  split; [vm_compute; reflexivity|]. split; [vm_compute; reflexivity|].
  destruct (succeeds_Ok (token_transferFrom A alice A 5 (token drained)))
    as [[b t] E]; [vm_compute; reflexivity|].
  assert (Hb : match token_transferFrom A alice A 5 (token drained) with
               | Ok (b, _) => b
               | Reverted _ => false
               end = true) by (vm_compute; reflexivity).
  rewrite E in Hb. subst b.
  apply (stake_drained_pool_panics A alice 2600 5 drained (poolAt drained A) t).
  - apply poolAt_lookup. vm_compute. reflexivity.
  - vm_compute. reflexivity.
  - reflexivity.
  - exact E.
  - apply N.leb_le. vm_compute. reflexivity.
  - vm_compute. discriminate.
  - apply N.leb_le. vm_compute. reflexivity.
  - vm_compute. reflexivity.
Defined.

Lemma inactive_pool_rejects_witness :
  status (poolAt paused A) = PAUSED /\
  stake A alice 2600 5 paused = Reverted (ErrorString "Pool not active").
Proof.
  assert (Hs : status (poolAt paused A) = PAUSED) by (vm_compute; reflexivity).
  split; [exact Hs|].
  assert (Hp : pools paused !! A = Some (poolAt paused A))
    by (apply poolAt_lookup; vm_compute; reflexivity).
  assert (Hn : status (poolAt paused A) <> ACTIVE) by (rewrite Hs; discriminate).
  destruct (inactive_pool_rejects A alice 2600 paused (poolAt paused A) Hp Hn) as (H & _).
  exact (H 5).
Defined.

Lemma toggleStatus_twice_witness :
  match toggleStatus A 1 staked1000 with
  | Ok (_, w1) => toggleStatus A 1 w1 = Ok (tt, staked1000)
  | Reverted _ => False
  end.
Proof.
  destruct (succeeds_Ok (toggleStatus A 1 staked1000)) as [[u w1] E];
    [vm_compute; reflexivity|].
  rewrite E. exact (toggleStatus_twice _ _ _ _ _ E).
Defined.

Lemma distributeRewards_pays_nothing_witness :
  rewardsPot (poolAt rewarded A) = 7 /\
  match distributeRewards A 1 rewarded with
  | Ok (_, w') => token w' = token rewarded /\ rewardsPot (poolAt w' A) = 0
  | Reverted _ => False
  end.
Proof.
  split; [vm_compute; reflexivity|].
  destruct (succeeds_Ok (distributeRewards A 1 rewarded)) as [[u w'] E];
    [vm_compute; reflexivity|].
  rewrite E.
  destruct (distributeRewards_pays_nothing _ _ _ _ _ E) as (p & _ & _ & _ & _ & _ & Ht & ->).
  split; [exact Ht|]. rewrite poolAt_set_pool. reflexivity.
Defined.

(** The retired pool A pays out all it holds and still records 1000. *)
Lemma emergencyWithdraw_leaves_accounting_witness :
  match emergencyWithdraw A 1 retired with
  | Ok (_, w') => pools w' = pools retired /\ liquidityOf w' A = 1000
  | Reverted _ => False
  end.
Proof.
  destruct (succeeds_Ok (emergencyWithdraw A 1 retired)) as [[u w'] E];
    [vm_compute; reflexivity|].
  rewrite E.
  destruct (emergencyWithdraw_leaves_accounting _ _ _ _ _ E) as (Hp & _).
  split; [exact Hp|]. unfold liquidityOf. rewrite Hp. vm_compute. reflexivity.
Defined.

Lemma getTotalCollateralAcrossPools_sum_witness :
  totalCollateralOf three_pools alice = 210 /\
  getTotalCollateralAcrossPools A alice three_pools = Ok (210, three_pools).
Proof.
  assert (Et : totalCollateralOf three_pools alice = 210) by (vm_compute; reflexivity).
  split; [exact Et|].
  destruct (succeeds_Ok (getTotalCollateralAcrossPools A alice three_pools))
    as [[t w'] E]; [vm_compute; reflexivity|].
  destruct (getTotalCollateralAcrossPools_sum _ _ _ _ _ reachable_three_pools E) as [-> ->].
  rewrite E, Et. reflexivity.
Defined.

Lemma mintInitialTokens_once_witness :
  match SimpleStakingToken._mintInitialTokens alice token0 with
  | Ok s1 => SimpleStakingToken._mintInitialTokens alice s1 = Ok s1
  | Reverted _ => False
  end.
Proof.
  destruct (succeeds_Ok (SimpleStakingToken._mintInitialTokens alice token0)) as [s1 E];
    [vm_compute; reflexivity|].
  rewrite E. destruct (mintInitialTokens_once _ _ _ E) as (_ & H & _). exact H.
Defined.
